(** * Recognizer of the model programming language: lexer, parser, semantic checker

    A shallow embedding of [main.py]: the regular-expression tokenizer
    ([LexicalAnalyzer]), the recursive-descent parser ([SyntaxAnalyzer]), the
    semantic checker ([SemanticAnalyzer]) and the driver [analyze_program].

    Conventions of the embedding.
    - A Python [str] is a Rocq [string]; each character is read as the code
      point of the same number, so the model covers source texts whose code
      points are below 256.  On that range [\d], [\s] and [\w] follow the
      tables Python's [re] uses for [str] patterns.
    - Python's [int] is [Z].  A [float] is kept as the literal it was read
      from ([VFloat lit] stands for [float(lit)]); nothing below looks inside.
    - An error message is kept as the f-string that builds it, with its
      arguments: one constructor per message of the source.
    - A function that can loop takes a [fuel] bound and answers [OutOfFuel]
      when the bound is hit; a larger bound changes no other answer
      ([parse_mono]).  An exception the source does not catch is kept as an
      outcome of its own.
    - The limits of the interpreter (depth of recursion, length of the digit
      string [int] accepts) are left out. *)

From Stdlib Require Import ZArith List String Ascii Bool Arith Lia.
From Stdlib Require Import ListSet Permutation.
Import ListNotations.

Set Implicit Arguments.

(** ** Character classes *)

Module CharClass.

Definition code (c : ascii) : nat := nat_of_ascii c.

(** [[lo-hi]] *)
Definition range (lo hi c : ascii) : bool :=
  (code lo <=? code c) && (code c <=? code hi).
Arguments range (lo hi c)%_char.

(** [[abc]]: one of the characters of [chars] *)
Definition one_of (chars : string) (c : ascii) : bool :=
  existsb (Ascii.eqb c) (list_ascii_of_string chars).

Definition union (p q : ascii -> bool) (c : ascii) : bool := p c || q c.

Definition newline : ascii := "010"%char.
Definition tab : ascii := "009"%char.

(** [\d] on code points below 256: the decimal digits *)
Definition digit : ascii -> bool := range "0" "9".

(** [.] without DOTALL: anything but a newline *)
Definition dot (c : ascii) : bool := negb (Ascii.eqb c newline).

(** [\s] on code points below 256: 0x09-0x0D, 0x1C-0x1F, space, 0x85, 0xA0 *)
Definition space (c : ascii) : bool :=
  let n := code c in
  ((9 <=? n) && (n <=? 13)) || ((28 <=? n) && (n <=? 31)) || (n =? 32)
  || (n =? 133) || (n =? 160).

(** [\w] on code points below 256: letters, digits and the underscore of
    ASCII, and the alphanumeric code points of Latin-1 *)
Definition word (c : ascii) : bool :=
  let n := code c in
  range "0" "9" c || range "A" "Z" c || range "a" "z" c || Ascii.eqb c "_"
  || (n =? 170) || (n =? 178) || (n =? 179) || (n =? 181) || (n =? 185)
  || (n =? 186) || (n =? 188) || (n =? 189) || (n =? 190)
  || ((192 <=? n) && (n <=? 214)) || ((216 <=? n) && (n <=? 246))
  || (248 <=? n).

End CharClass.

(** ** A backtracking matcher for the regular expressions of the lexer

    The constructs are the ones [token_specification] uses.  Every
    repetition of the source ranges over a single character class, so the
    repetitions take a class.  Matching is by continuation: the first way to
    match that lets the rest succeed is the match, alternatives are tried
    left to right, a greedy repetition tries the longer match first and a
    lazy one the shorter, as Python's [re] does. *)

Module Re.

Inductive regex : Type :=
| Eps                                   (* the empty pattern *)
| Chr (c : ascii)                       (* a literal character *)
| Class (p : ascii -> bool)             (* [...] , \d , . *)
| Cat (r1 r2 : regex)                   (* r1r2 *)
| Alt (r1 r2 : regex)                   (* r1|r2 *)
| Opt (r : regex)                       (* r? *)
| Plus (p : ascii -> bool)              (* [...]+ *)
| Star (p : ascii -> bool)              (* [...]* *)
| LazyStar (p : ascii -> bool)          (* [...]*? *)
| WordBoundary.                         (* \b *)

(** A literal word *)
Fixpoint Lit (w : string) : regex :=
  match w with
  | EmptyString => Eps
  | String c EmptyString => Chr c
  | String c w' => Cat (Chr c) (Lit w')
  end.

(** The rest of a match: the character before the cursor, the text from the
    cursor on, the number of characters matched so far. *)
Definition cont : Type := option ascii -> string -> nat -> option nat.

Definition orelse (a b : option nat) : option nat :=
  match a with Some n => Some n | None => b end.

Fixpoint star (p : ascii -> bool) (k : cont) (prev : option ascii) (s : string) (n : nat)
  : option nat :=
  match s with
  | String c s' =>
      if p c then orelse (star p k (Some c) s' (S n)) (k prev s n) else k prev s n
  | EmptyString => k prev s n
  end.

Fixpoint lazy_star (p : ascii -> bool) (k : cont) (prev : option ascii) (s : string) (n : nat)
  : option nat :=
  match k prev s n with
  | Some r => Some r
  | None =>
      match s with
      | String c s' => if p c then lazy_star p k (Some c) s' (S n) else None
      | EmptyString => None
      end
  end.

Definition is_word (c : option ascii) : bool :=
  match c with Some c => CharClass.word c | None => false end.

Definition next_char (s : string) : option ascii :=
  match s with String c _ => Some c | EmptyString => None end.

Fixpoint run (r : regex) (k : cont) (prev : option ascii) (s : string) (n : nat)
  : option nat :=
  match r with
  | Eps => k prev s n
  | Chr c =>
      match s with
      | String c' s' => if Ascii.eqb c' c then k (Some c') s' (S n) else None
      | EmptyString => None
      end
  | Class p =>
      match s with
      | String c' s' => if p c' then k (Some c') s' (S n) else None
      | EmptyString => None
      end
  | Cat r1 r2 => run r1 (run r2 k) prev s n
  | Alt r1 r2 => orelse (run r1 k prev s n) (run r2 k prev s n)
  | Opt r' => orelse (run r' k prev s n) (k prev s n)
  | Plus p =>
      match s with
      | String c' s' => if p c' then star p k (Some c') s' (S n) else None
      | EmptyString => None
      end
  | Star p => star p k prev s n
  | LazyStar p => lazy_star p k prev s n
  | WordBoundary => if xorb (is_word prev) (is_word (next_char s)) then k prev s n else None
  end.

Definition accept : cont := fun _ _ n => Some n.

(** The length of the match of [r] that starts at the cursor, where [prev]
    is the character before the cursor. *)
Definition match_at (r : regex) (prev : option ascii) (s : string) : option nat :=
  run r accept prev s 0.

(** [re.match(r, s)]: a match at the start of [s] *)
Definition re_match (r : regex) (s : string) : bool :=
  match match_at r None s with Some _ => true | None => false end.

End Re.

(** ** Tokens *)

(** The names of [token_specification], in its order *)
Inductive Kind : Type :=
| COMMENT | NUMBER | BIN_NUMBER | OCT_NUMBER | DEC_NUMBER | HEX_NUMBER
| KEYWORD | IDENTIFIER | ASSIGN | REL_OP | ADD_OP | MUL_OP | UNARY_OP
| DELIMITER | WHITESPACE | NEWLINE.

Definition Kind_eq_dec (a b : Kind) : {a = b} + {a <> b}.
Proof. decide equality. Defined.

Definition Kind_eqb (a b : Kind) : bool :=
  if Kind_eq_dec a b then true else false.

(** The payload of a token: [int(text)], [float(text)] or the matched text *)
Inductive Value : Type :=
| VInt (n : Z)
| VFloat (literal : string)
| VStr (text : string).

Definition Value_eq_dec (a b : Value) : {a = b} + {a <> b}.
Proof. decide equality; [apply Z.eq_dec | apply string_dec | apply string_dec]. Defined.

(** [v == "text"] for a string constant of the source *)
Definition Value_is (v : Value) (text : string) : bool :=
  match v with
  | VStr t => String.eqb t text
  | _ => false
  end.

(** [isinstance(v, int)] and [isinstance(v, float)] *)
Definition is_int (v : Value) : bool :=
  match v with VInt _ => true | _ => false end.

Definition is_float (v : Value) : bool :=
  match v with VFloat _ => true | _ => false end.

(** A token is the pair [(kind, value)] *)
Definition Token : Type := (Kind * Value)%type.

(** ** LexicalAnalyzer *)

Module LexicalAnalyzer.

Import CharClass Re.

(** f"Неизвестный символ: {match.group(0)}" *)
Inductive LexicalError : Type :=
| UnknownSymbol (c : ascii).

Definition keywords : regex :=
  Alt (Lit "let") (Alt (Lit "if") (Alt (Lit "then") (Alt (Lit "else")
  (Alt (Lit "for") (Alt (Lit "do") (Alt (Lit "while") (Alt (Lit "loop")
  (Alt (Lit "input") (Lit "output"))))))))).

Definition hex_digit : ascii -> bool :=
  union (range "0" "9") (union (range "A" "F") (range "a" "f")).

Definition letter_ : ascii -> bool :=
  union (range "A" "Z") (union (range "a" "z") (one_of "_")).

Definition letter_digit_ : ascii -> bool :=
  union (range "A" "Z") (union (range "a" "z") (union (one_of "_") (range "0" "9"))).

Definition token_specification : list (Kind * regex) :=
  [ (* /\*.*?\*/ *)
    (COMMENT, Cat (Chr "/") (Cat (Chr "*") (Cat (LazyStar dot) (Cat (Chr "*") (Chr "/")))));
    (* \d+(?:\.\d+)?(?:[Ee][+-]?\d+)? *)
    (NUMBER, Cat (Plus digit)
               (Cat (Opt (Cat (Chr ".") (Plus digit)))
                    (Opt (Cat (Class (one_of "Ee")) (Cat (Opt (Class (one_of "+-"))) (Plus digit))))));
    (* [01]+[Bb] *)
    (BIN_NUMBER, Cat (Plus (one_of "01")) (Class (one_of "Bb")));
    (* [0-7]+[Oo] *)
    (OCT_NUMBER, Cat (Plus (range "0" "7")) (Class (one_of "Oo")));
    (* \d+[Dd]? *)
    (DEC_NUMBER, Cat (Plus digit) (Opt (Class (one_of "Dd"))));
    (* [0-9A-Fa-f]+[Hh] *)
    (HEX_NUMBER, Cat (Plus hex_digit) (Class (one_of "Hh")));
    (* \b(let|if|then|else|for|do|while|loop|input|output)\b *)
    (KEYWORD, Cat WordBoundary (Cat keywords WordBoundary));
    (* [A-Za-z_][A-Za-z_0-9]* *)
    (IDENTIFIER, Cat (Class letter_) (Star letter_digit_));
    (* = *)
    (ASSIGN, Chr "=");
    (* [<>]=? *)
    (REL_OP, Cat (Class (one_of "<>")) (Opt (Chr "=")));
    (* [+\-]|or *)
    (ADD_OP, Alt (Class (one_of "+-")) (Lit "or"));
    (* [*/]|and *)
    (MUL_OP, Alt (Class (one_of "*/")) (Lit "and"));
    (* not *)
    (UNARY_OP, Lit "not");
    (* [{}();,] *)
    (DELIMITER, Class (one_of "{}();,"));
    (* [ \t]+ *)
    (WHITESPACE, Plus (union (one_of " ") (Ascii.eqb tab)));
    (* \n *)
    (NEWLINE, Chr newline) ].

(** [token_regex] joins the named groups with [|]: at a position the first
    rule of the table that matches gives the match, and [lastgroup] is its
    name. *)
Fixpoint first_match (spec : list (Kind * regex)) (prev : option ascii) (s : string)
  : option (Kind * nat) :=
  match spec with
  | [] => None
  | (name, r) :: rest =>
      match match_at r prev s with
      | Some n => Some (name, n)
      | None => first_match rest prev s
      end
  end.

Definition token_regex : option ascii -> string -> option (Kind * nat) :=
  first_match token_specification.

(** [re.finditer(token_regex, program)]: the matches from left to right,
    none overlapping another; a position where nothing matches is passed
    over.  [skip] counts the characters of the last match still to pass,
    [prev] is the character before the cursor. *)
Fixpoint finditer (skip : nat) (prev : option ascii) (s : string) : list (Kind * string) :=
  match s with
  | EmptyString => []
  | String c s' =>
      match skip with
      | S skip' => finditer skip' (Some c) s'
      | O =>
          match token_regex prev s with
          | Some (kind, n) => (kind, substring 0 n s) :: finditer (n - 1) (Some c) s'
          | None => finditer 0 (Some c) s'
          end
      end
  end.

(** [c in value] *)
Fixpoint contains (c : ascii) (value : string) : bool :=
  match value with
  | EmptyString => false
  | String c' value' => Ascii.eqb c' c || contains c value'
  end.

(** [int(value)] on a run of decimal digits *)
Fixpoint int_from (acc : Z) (value : string) : Z :=
  match value with
  | EmptyString => acc
  | String c value' => int_from (10 * acc + Z.of_nat (code c - 48)) value'
  end.

Definition int (value : string) : Z := int_from 0 value.

(** float(value) if '.' in value or 'E' in value or 'e' in value else int(value) *)
Definition number_value (value : string) : Value :=
  if contains "." value || contains "E" value || contains "e" value
  then VFloat value
  else VInt (int value).

(** The body of the first loop of [tokenize], for one match *)
Definition token_of (m : Kind * string) : list Token :=
  let (kind, value) := m in
  match kind with
  | WHITESPACE | NEWLINE | COMMENT => []
  | NUMBER => [(kind, number_value value)]
  | _ => [(kind, VStr value)]
  end.

(** not any(re.match(spec[1], c) for spec in self.token_specification) *)
Definition no_rule_matches (c : ascii) : bool :=
  negb (existsb (fun spec : Kind * regex => re_match (snd spec) (String c EmptyString))
          token_specification).

(** The second loop of [tokenize]: over re.finditer(r'[^\s]', program) *)
Fixpoint unknown_symbols (program : string) : list LexicalError :=
  match program with
  | EmptyString => []
  | String c program' =>
      if negb (space c) && no_rule_matches c
      then UnknownSymbol c :: unknown_symbols program'
      else unknown_symbols program'
  end.

Definition tokenize (program : string) : list Token * list LexicalError :=
  let tokens := flat_map token_of (finditer 0 None program) in
  let errors := unknown_symbols program in
  (tokens, errors).

End LexicalAnalyzer.

(** ** SyntaxAnalyzer *)

Module SyntaxAnalyzer.

(** What [parse_expression] returns: [left[1]], or the dictionary
    {"left": left[1], "operator": operator[1], "right": right} *)
Inductive Expr : Type :=
| Leaf (v : Value)
| Comparison (left operator : Value) (right : Expr).

(** An entry of the symbol table: the dictionary with the keys "type",
    "value" and, once declared, "declared" ([None]: the key is absent) *)
Record Entry : Type := {
  type : string;
  value : option Expr;
  declared : option bool
}.

(** A Python [dict] keyed by identifier: the items in insertion order.
    Keys are compared as written; on the textual payloads identifiers carry
    this is Python's [==]. *)
Definition dict : Type := list (Value * Entry).

Fixpoint dict_get (k : Value) (d : dict) : option Entry :=
  match d with
  | [] => None
  | (k', e) :: d' => if Value_eq_dec k' k then Some e else dict_get k d'
  end.

(** [d[k] = e]: a present key keeps its place, a new one goes last *)
Fixpoint dict_set (k : Value) (e : Entry) (d : dict) : dict :=
  match d with
  | [] => [(k, e)]
  | (k', e') :: d' =>
      if Value_eq_dec k' k then (k', e) :: d' else (k', e') :: dict_set k e d'
  end.

Definition keys (d : dict) : list Value := map fst d.

(** The messages of the [SyntaxError]s the parser raises *)
Inductive SyntaxMessage : Type :=
| Expected (expected_type : Kind) (token_found : option Token)
    (* f"Ожидался {expected_type}, найдено {token_found}";
       [None] is the marker "конец файла" *)
| UnexpectedEndOfFile
    (* "Неожиданный конец файла" *)
| UnknownOperator (current : Token)
    (* f"Неизвестный оператор: {current}" *)
| ExpectedOperand (token : Token).
    (* f"Ожидался IDENTIFIER или NUMBER, найдено {token}" *)

Inductive exn : Type :=
| SyntaxError (msg : SyntaxMessage)
| IndexError.                     (* list index out of range *)

(** The fields of the parser object that change *)
Record state : Type := {
  current_token : nat;
  symbol_table : dict
}.

Definition init : state :=
  {| current_token := 0; symbol_table := [] |}.

Inductive result (A : Type) : Type :=
| Ok (a : A) (s : state)
| Raise (e : exn) (s : state)
| OutOfFuel (s : state).
Arguments Raise {A} e s.
Arguments OutOfFuel {A} s.

Definition M (A : Type) : Type := state -> result A.

Definition ret {A : Type} (a : A) : M A := fun s => Ok a s.

Definition bind {A B : Type} (m : M A) (f : A -> M B) : M B :=
  fun s =>
    match m s with
    | Ok a s' => f a s'
    | Raise e s' => Raise e s'
    | OutOfFuel s' => OutOfFuel s'
    end.

Definition raise {A : Type} (e : exn) : M A := fun s => Raise e s.

Definition out_of_fuel {A : Type} : M A := fun s => OutOfFuel s.

Declare Scope parser_scope.
Delimit Scope parser_scope with parser.
Notation "x <- m ;; k" := (bind m (fun x => k))
  (at level 61, m at next level, right associativity) : parser_scope.
Notation "m ;; k" := (bind m (fun _ => k))
  (at level 61, right associativity) : parser_scope.
Local Open Scope parser_scope.

Definition get_current_token : M nat := fun s => Ok (current_token s) s.

Definition get_symbol_table : M dict := fun s => Ok (symbol_table s) s.

(** self.current_token += 1 *)
Definition advance : M unit :=
  fun s => Ok tt {| current_token := current_token s + 1;
                    symbol_table := symbol_table s |}.

Definition put_symbol_table (d : dict) : M unit :=
  fun s => Ok tt {| current_token := current_token s;
                    symbol_table := d |}.

Section Parser.

Variable tokens : list Token.

(** [self.tokens[i]] *)
Definition index (i : nat) : M Token :=
  match nth_error tokens i with
  | Some token => ret token
  | None => raise IndexError
  end.

(** self.current_token < len(self.tokens) and p(self.tokens[self.current_token]) *)
Definition at_cursor (p : Token -> bool) : M bool :=
  i <- get_current_token ;;
  match nth_error tokens i with
  | Some token => ret (p token)
  | None => ret false
  end.

Definition match_ (expected_type : Kind) : M Token :=
  i <- get_current_token ;;
  ok <- at_cursor (fun token => Kind_eqb (fst token) expected_type) ;;
  if ok then
    token <- index i ;;
    advance ;;
    ret token
  else
    raise (SyntaxError (Expected expected_type (nth_error tokens i))).

Fixpoint parse_expression (fuel : nat) : M Expr :=
  match fuel with
  | O => out_of_fuel
  | S fuel =>
      i <- get_current_token ;;
      token <- index i ;;
      left <- (if Kind_eqb (fst token) IDENTIFIER || Kind_eqb (fst token) NUMBER
               then match_ (fst token)
               else raise (SyntaxError (ExpectedOperand token))) ;;
      rel <- at_cursor (fun token => Kind_eqb (fst token) REL_OP) ;;
      if rel then
        operator <- match_ REL_OP ;;
        right <- parse_expression fuel ;;
        ret (Comparison (snd left) (snd operator) right)
      else
        ret (Leaf (snd left))
  end.

Definition parse_declaration (fuel : nat) : M unit :=
  match_ KEYWORD ;;
  identifier <- match_ IDENTIFIER ;;
  match_ ASSIGN ;;
  value <- parse_expression fuel ;;
  match_ DELIMITER ;;
  d <- get_symbol_table ;;
  put_symbol_table
    (dict_set (snd identifier)
       {| type := "variable"; value := Some value; declared := Some true |} d).

Definition parse_assignment (fuel : nat) : M unit :=
  identifier <- match_ IDENTIFIER ;;
  match_ ASSIGN ;;
  value <- parse_expression fuel ;;
  match_ DELIMITER ;;
  d <- get_symbol_table ;;
  match dict_get (snd identifier) d with
  | Some entry =>
      put_symbol_table
        (dict_set (snd identifier)
           {| type := type entry; value := Some value; declared := declared entry |} d)
  | None =>
      put_symbol_table
        (dict_set (snd identifier)
           {| type := "variable"; value := Some value; declared := None |} d)
  end.

Definition parse_input : M unit :=
  match_ KEYWORD ;;
  match_ IDENTIFIER ;;
  match_ DELIMITER ;;
  ret tt.

Definition parse_output (fuel : nat) : M unit :=
  match_ KEYWORD ;;
  parse_expression fuel ;;
  match_ DELIMITER ;;
  ret tt.

Definition not_closing_brace (token : Token) : bool :=
  negb (Value_is (snd token) "}").

Fixpoint parse_statement (fuel : nat) : M unit :=
  match fuel with
  | O => out_of_fuel
  | S fuel =>
      i <- get_current_token ;;
      if List.length tokens <=? i then raise (SyntaxError UnexpectedEndOfFile) else
      current <- index i ;;
      assignment <- (if Kind_eqb (fst current) IDENTIFIER
                     then next <- index (i + 1) ;; ret (Kind_eqb (fst next) ASSIGN)
                     else ret false) ;;
      if assignment then parse_assignment fuel
      else if Kind_eqb (fst current) KEYWORD then
        if Value_is (snd current) "if" then parse_conditional fuel
        else if Value_is (snd current) "for" then parse_fixed_loop fuel
        else if Value_is (snd current) "do" then parse_while_loop fuel
        else if Value_is (snd current) "input" then parse_input
        else if Value_is (snd current) "output" then parse_output fuel
        else ret tt
      else if Kind_eqb (fst current) DELIMITER && Value_is (snd current) "{"
      then parse_compound_statement fuel
      else raise (SyntaxError (UnknownOperator current))
  end

with parse_conditional (fuel : nat) : M unit :=
  match fuel with
  | O => out_of_fuel
  | S fuel =>
      match_ KEYWORD ;;
      parse_expression fuel ;;
      match_ KEYWORD ;;
      parse_compound_statement fuel ;;
      has_else <- at_cursor (fun token => Value_is (snd token) "else") ;;
      if has_else then
        match_ KEYWORD ;;
        parse_compound_statement fuel
      else ret tt
  end

with parse_fixed_loop (fuel : nat) : M unit :=
  match fuel with
  | O => out_of_fuel
  | S fuel =>
      match_ KEYWORD ;;
      match_ IDENTIFIER ;;
      match_ ASSIGN ;;
      parse_expression fuel ;;
      match_ KEYWORD ;;
      parse_expression fuel ;;
      parse_compound_statement fuel
  end

with parse_while_loop (fuel : nat) : M unit :=
  match fuel with
  | O => out_of_fuel
  | S fuel =>
      match_ KEYWORD ;;
      parse_compound_statement fuel ;;
      match_ KEYWORD ;;
      parse_expression fuel ;;
      ret tt
  end

with parse_compound_statement (fuel : nat) : M unit :=
  match fuel with
  | O => out_of_fuel
  | S fuel =>
      match_ DELIMITER ;;
      compound_statement_loop fuel ;;
      match_ DELIMITER ;;
      ret tt
  end

(** The [while] loop of [parse_compound_statement] *)
with compound_statement_loop (fuel : nat) : M unit :=
  match fuel with
  | O => out_of_fuel
  | S fuel =>
      continue <- at_cursor not_closing_brace ;;
      if continue then
        parse_statement fuel ;;
        compound_statement_loop fuel
      else ret tt
  end.

(** The [while] loop of [parse_program] *)
Fixpoint program_loop (fuel : nat) : M unit :=
  match fuel with
  | O => out_of_fuel
  | S fuel =>
      continue <- at_cursor not_closing_brace ;;
      if continue then
        i <- get_current_token ;;
        token <- index i ;;
        (if Kind_eqb (fst token) KEYWORD && Value_is (snd token) "let"
         then parse_declaration fuel
         else parse_statement fuel) ;;
        program_loop fuel
      else ret tt
  end.

Definition parse_program (fuel : nat) : M unit :=
  match_ DELIMITER ;;
  program_loop fuel ;;
  match_ DELIMITER ;;
  ret tt.

End Parser.

(** What [parse] returns:
    {"success": True, "symbol_table": ...} or {"success": False, "error": ...} *)
Inductive ParseResult : Type :=
| Success (symbol_table : dict)
| Failure (error : SyntaxMessage).

End SyntaxAnalyzer.

(** How a call ends: it returns, an exception leaves it, or the fuel bound
    is hit before either. *)
Inductive outcome (A : Type) : Type :=
| Returns (a : A)
| Uncaught (e : SyntaxAnalyzer.exn)
| Unfinished.
Arguments Uncaught {A} e.
Arguments Unfinished {A}.

(** [SyntaxAnalyzer(tokens).parse()]: only [SyntaxError] is caught *)
Definition parse (tokens : list Token) (fuel : nat) : outcome SyntaxAnalyzer.ParseResult :=
  match SyntaxAnalyzer.parse_program tokens fuel SyntaxAnalyzer.init with
  | SyntaxAnalyzer.Ok _ s => Returns (SyntaxAnalyzer.Success (SyntaxAnalyzer.symbol_table s))
  | SyntaxAnalyzer.Raise (SyntaxAnalyzer.SyntaxError msg) _ => Returns (SyntaxAnalyzer.Failure msg)
  | SyntaxAnalyzer.Raise SyntaxAnalyzer.IndexError _ => Uncaught SyntaxAnalyzer.IndexError
  | SyntaxAnalyzer.OutOfFuel _ => Unfinished
  end.

(** ** SemanticAnalyzer *)

Module SemanticAnalyzer.

Import SyntaxAnalyzer.

(** The entries of [self.errors] *)
Inductive SemanticError : Type :=
| Lexical (lexical_error : LexicalAnalyzer.LexicalError)
    (* f"Лексическая ошибка: {lexical_error}" *)
| Syntax (error : SyntaxMessage)
    (* f"Синтаксическая ошибка: {parse_result['error']}" *)
| UsedBeforeDeclaration (var_name : Value)
    (* f"Переменная {var_name} используется до объявления." *)
| UnknownType (var_name : Value).
    (* f"Неизвестный тип для переменной {var_name}." *)

Definition SemanticError_eq_dec (a b : SemanticError) : {a = b} + {a <> b}.
Proof.
  repeat decide equality; try apply Z.eq_dec; try apply string_dec.
Defined.

(** The fields of the checker object.  The two Python sets are lists
    without repetition, in the order of first insertion. *)
Record analyzer : Type := {
  symbol_table : dict;
  errors : list SemanticError;
  declared_variables : set Value;
  undeclared_usage : set Value
}.

Definition init : analyzer :=
  {| symbol_table := []; errors := []; declared_variables := []; undeclared_usage := [] |}.

(** self.errors.append(e) *)
Definition append_error (e : SemanticError) (self : analyzer) : analyzer :=
  {| symbol_table := symbol_table self;
     errors := errors self ++ [e];
     declared_variables := declared_variables self;
     undeclared_usage := undeclared_usage self |}.

Definition set_symbol_table (d : dict) (self : analyzer) : analyzer :=
  {| symbol_table := d;
     errors := errors self;
     declared_variables := declared_variables self;
     undeclared_usage := undeclared_usage self |}.

(** self.declared_variables.add(identifier) *)
Definition declare (identifier : Value) (self : analyzer) : analyzer :=
  {| symbol_table := symbol_table self;
     errors := errors self;
     declared_variables := set_add Value_eq_dec identifier (declared_variables self);
     undeclared_usage := undeclared_usage self |}.

(** self.undeclared_usage.add(var_name) *)
Definition use_undeclared (var_name : Value) (self : analyzer) : analyzer :=
  {| symbol_table := symbol_table self;
     errors := errors self;
     declared_variables := declared_variables self;
     undeclared_usage := set_add Value_eq_dec var_name (undeclared_usage self) |}.

Definition is_let (token : Token) : bool :=
  Kind_eqb (fst token) KEYWORD && Value_is (snd token) "let".

(** The first loop of [check_variables]; [tokens] is the stream from the
    current token on, so its second element is [tokens[i + 1]]. *)
Fixpoint collect_declared (tokens : list Token) (self : analyzer) : analyzer :=
  match tokens with
  | [] => self
  | token :: rest =>
      collect_declared rest
        (if is_let token then
           match rest with
           | next :: _ =>
               if Kind_eqb (fst next) IDENTIFIER then declare (snd next) self else self
           | [] => self
           end
         else self)
  end.

(** The second loop of [check_variables] *)
Fixpoint collect_undeclared (tokens : list Token) (self : analyzer) : analyzer :=
  match tokens with
  | [] => self
  | token :: rest =>
      collect_undeclared rest
        (if Kind_eqb (fst token) IDENTIFIER then
           if set_mem Value_eq_dec (snd token) (declared_variables self)
           then self
           else use_undeclared (snd token) self
         else self)
  end.

Section Checker.

(** The order in which a [for] loop goes over a Python set; the language
    does not fix it. *)
Variable iterate : set Value -> list Value.

Definition check_variables (tokens : list Token) (self : analyzer) : analyzer :=
  let self := collect_declared tokens self in
  let self := collect_undeclared tokens self in
  fold_left (fun self var_name => append_error (UsedBeforeDeclaration var_name) self)
    (iterate (undeclared_usage self)) self.

(** [isinstance(v, int)] and [isinstance(v, float)] on a stored value *)
Definition isinstance_int (v : Expr) : bool :=
  match v with Leaf x => is_int x | Comparison _ _ _ => false end.

Definition isinstance_float (v : Expr) : bool :=
  match v with Leaf x => is_float x | Comparison _ _ _ => false end.

Definition expected_type (v : Expr) : string :=
  if isinstance_int v then "int"
  else if isinstance_float v then "float"
  else "unknown".

(** The body of the loop of [check_types] *)
Definition check_type (self : analyzer) (item : Value * Entry) : analyzer :=
  let (var_name, info) := item in
  match value info with
  | Some v =>
      if String.eqb (type info) "variable" && String.eqb (expected_type v) "unknown"
      then append_error (UnknownType var_name) self
      else self
  | None => self
  end.

Definition check_types (self : analyzer) : analyzer :=
  fold_left check_type (symbol_table self) self.

(** What [analyze] returns *)
Record SemanticResult : Type := {
  result_success : bool;
  result_errors : list SemanticError;
  result_symbol_table : dict
}.

Definition analyze (lexical_errors : list LexicalAnalyzer.LexicalError)
    (parse_result : ParseResult) (tokens : list Token) (self : analyzer) : SemanticResult :=
  let self := fold_left (fun self lexical_error => append_error (Lexical lexical_error) self)
                lexical_errors self in
  match parse_result with
  | Failure error =>
      let self := append_error (Syntax error) self in
      {| result_success := false;
         result_errors := errors self;
         result_symbol_table := symbol_table self |}
  | Success table =>
      let self := set_symbol_table table self in
      let self := check_variables tokens self in
      let self := check_types self in
      {| result_success := Nat.eqb (List.length (errors self)) 0;
         result_errors := errors self;
         result_symbol_table := symbol_table self |}
  end.

End Checker.

End SemanticAnalyzer.

(** ** analyze_program *)

(** The dictionary [analyze_program] returns *)
Record Analysis : Type := {
  tokens : list Token;
  lexical_errors : list LexicalAnalyzer.LexicalError;
  parse_result : SyntaxAnalyzer.ParseResult;
  semantic_result : SemanticAnalyzer.SemanticResult
}.

Definition analyze_program (iterate : set Value -> list Value) (program : string) (fuel : nat)
  : outcome Analysis :=
  let (tokens, lexical_errors) := LexicalAnalyzer.tokenize program in
  match parse tokens fuel with
  | Returns parse_result =>
      Returns {| tokens := tokens;
                 lexical_errors := lexical_errors;
                 parse_result := parse_result;
                 semantic_result :=
                   SemanticAnalyzer.analyze iterate lexical_errors parse_result tokens
                     SemanticAnalyzer.init |}
  | Uncaught e => Uncaught e
  | Unfinished => Unfinished
  end.

(** * Specification-side definitions *)

(** The pattern the table gives for a name *)
Fixpoint rule_in (spec : list (Kind * Re.regex)) (kind : Kind) : Re.regex :=
  match spec with
  | [] => Re.Eps
  | (name, r) :: rest => if Kind_eqb name kind then r else rule_in rest kind
  end.

Definition rule (kind : Kind) : Re.regex :=
  rule_in LexicalAnalyzer.token_specification kind.

(** The characters that some rule matches when they stand alone, white
    space apart: digits, letters, the underscore, operators, delimiters *)
Definition token_character (c : ascii) : bool :=
  CharClass.digit c || LexicalAnalyzer.letter_ c || CharClass.one_of "=<>+-*/{}();," c.

(** The three numeral kinds with a base suffix that follow NUMBER in the table *)
Definition suffixed_number (kind : Kind) : bool :=
  match kind with
  | BIN_NUMBER | OCT_NUMBER | DEC_NUMBER => true
  | _ => false
  end.

(** ** Runs of the parser *)

Module Run.

Import SyntaxAnalyzer.

(** The state in which a run stopped, however it stopped *)
Definition final {A : Type} (r : result A) : state :=
  match r with
  | Ok _ s => s
  | Raise _ s => s
  | OutOfFuel s => s
  end.

(** Every run of [m] takes a state to one related to it by [R], whether it
    returns, raises or is cut by the fuel bound. *)
Definition steps {A : Type} (R : state -> state -> Prop) (m : M A) : Prop :=
  forall s, R s (final (m s)).

(** [m'] answers as [m] does wherever [m] is not cut by the fuel bound. *)
Definition approx {A : Type} (m m' : M A) : Prop :=
  forall s, match m s with
            | OutOfFuel _ => True
            | r => m' s = r
            end.

(** The cursor moves forward only, and not past the end of [tokens]. *)
Definition cursor_moves (tokens : list Token) (s s' : state) : Prop :=
  current_token s <= current_token s' /\
  (current_token s <= List.length tokens -> current_token s' <= List.length tokens).

(** Every run of [m] that returns takes a state to one related by [R]. *)
Definition returns {A : Type} (R : state -> state -> Prop) (m : M A) : Prop :=
  forall s a s', m s = Ok a s' -> R s s'.

(** The same, for the runs that start in a state with [P] *)
Definition returns_from {A : Type} (P : state -> Prop) (R : state -> state -> Prop)
    (m : M A) : Prop :=
  forall s a s', P s -> m s = Ok a s' -> R s s'.

(** The token at [i] has kind [k]. *)
Definition kind_at (tokens : list Token) (i : nat) (k : Kind) : Prop :=
  exists t, nth_error tokens i = Some t /\ fst t = k.

(** The token at [i] comes immediately after the keyword [for]. *)
Definition after_for (tokens : list Token) (i : nat) : Prop :=
  exists j, i = S j /\ nth_error tokens j = Some (KEYWORD, VStr "for").

(** The token at [i] is the identifier [name] standing on the left side of
    a declaration or of an assignment: the next token is the assignment
    sign, and the identifier is not the variable of a [for] header. *)
Definition left_side (tokens : list Token) (i : nat) (name : Value) : Prop :=
  nth_error tokens i = Some (IDENTIFIER, name)
  /\ kind_at tokens (S i) ASSIGN
  /\ ~ after_for tokens i.

(** The token consumed last, if any, is no keyword. *)
Definition last_not_keyword (tokens : list Token) (s : state) : Prop :=
  forall j t, current_token s = S j -> nth_error tokens j = Some t -> fst t <> KEYWORD.

(** From [s] to [s'] the cursor went forward, and the keys of the symbol
    table grew by the names in [pending] short of the left sides met: the
    identifiers at [i] whose assignment sign, at [i + 1], was consumed. *)
Definition adds_pending (tokens : list Token) (pending : list Value) (s s' : state) : Prop :=
  current_token s <= current_token s'
  /\ forall name,
       In name (keys (symbol_table s')) \/ In name pending <->
       In name (keys (symbol_table s))
       \/ exists i, current_token s <= S i /\ S i < current_token s'
                    /\ left_side tokens i name.

Definition adds_left_sides (tokens : list Token) : state -> state -> Prop :=
  adds_pending tokens [].

End Run.

(** ** Reading the token stream *)

(** Somewhere in [tokens] the keyword [let] is immediately followed by the
    identifier [name]. *)
Definition let_declares (tokens : list Token) (name : Value) : Prop :=
  exists before after,
    tokens = before ++ (KEYWORD, VStr "let") :: (IDENTIFIER, name) :: after.

(** The names of the entries that [check_types] cannot classify: the value
    is present and is neither an [int] nor a [float] *)
Fixpoint unclassified (d : SyntaxAnalyzer.dict) : list Value :=
  match d with
  | [] => []
  | (var_name, info) :: d' =>
      match SyntaxAnalyzer.value info with
      | Some v =>
          if String.eqb (SyntaxAnalyzer.type info) "variable"
             && negb (SemanticAnalyzer.isinstance_int v)
             && negb (SemanticAnalyzer.isinstance_float v)
          then var_name :: unclassified d'
          else unclassified d'
      | None => unclassified d'
      end
  end.

(** The set of undeclared identifiers the two loops of [check_variables]
    build from a fresh checker *)
Definition undeclared (tokens : list Token) : set Value :=
  SemanticAnalyzer.undeclared_usage
    (SemanticAnalyzer.collect_undeclared tokens
       (SemanticAnalyzer.collect_declared tokens SemanticAnalyzer.init)).

(** ** Reading the rules of the tokenizer *)

(** Whether [r] matches the empty text *)
Fixpoint nullable (r : Re.regex) : bool :=
  match r with
  | Re.Eps | Re.Opt _ | Re.Star _ | Re.LazyStar _ | Re.WordBoundary => true
  | Re.Chr _ | Re.Class _ | Re.Plus _ => false
  | Re.Cat r1 r2 => nullable r1 && nullable r2
  | Re.Alt r1 r2 => nullable r1 || nullable r2
  end.

(** The characters a match of [r] that is not empty can begin with *)
Fixpoint starts (r : Re.regex) (c : ascii) : bool :=
  match r with
  | Re.Eps | Re.WordBoundary => false
  | Re.Chr c' => Ascii.eqb c c'
  | Re.Class p | Re.Plus p | Re.Star p | Re.LazyStar p => p c
  | Re.Cat r1 r2 => starts r1 c || (nullable r1 && starts r2 c)
  | Re.Alt r1 r2 => starts r1 c || starts r2 c
  | Re.Opt r' => starts r' c
  end.

(** The kinds [tokenize] lets through *)
Definition emitted_kinds : list Kind :=
  [NUMBER; HEX_NUMBER; KEYWORD; IDENTIFIER; ASSIGN; REL_OP; ADD_OP; MUL_OP; DELIMITER].

(** The texts a token of a kind with finitely many spellings can carry *)
Definition spellings (kind : Kind) : option (list string) :=
  match kind with
  | KEYWORD => Some ["let"; "if"; "then"; "else"; "for"; "do"; "while"; "loop";
                     "input"; "output"]
  | ASSIGN => Some ["="]
  | REL_OP => Some ["<"; ">"; "<="; ">="]
  | ADD_OP => Some ["+"; "-"]
  | MUL_OP => Some ["*"; "/"]
  | DELIMITER => Some ["{"; "}"; "("; ")"; ";"; ","]
  | _ => None
  end%string.

(** Every character of [s] is in the class [p]. *)
Fixpoint all_in (p : ascii -> bool) (s : string) : bool :=
  match s with
  | EmptyString => true
  | String c s' => p c && all_in p s'
  end.

(** The letters among the hexadecimal digits *)
Definition hex_letter : ascii -> bool :=
  CharClass.union (CharClass.range "A" "F") (CharClass.range "a" "f").

(** The texts a pattern spells, whatever stands around them *)
Fixpoint matches (r : Re.regex) (w : string) : Prop :=
  match r with
  | Re.Eps | Re.WordBoundary => w = EmptyString
  | Re.Chr c => w = String c EmptyString
  | Re.Class p => exists c, w = String c EmptyString /\ p c = true
  | Re.Cat r1 r2 => exists w1 w2, w = (w1 ++ w2)%string /\ matches r1 w1 /\ matches r2 w2
  | Re.Alt r1 r2 => matches r1 w \/ matches r2 w
  | Re.Opt r' => w = EmptyString \/ matches r' w
  | Re.Plus p => w <> EmptyString /\ all_in p w = true
  | Re.Star p | Re.LazyStar p => all_in p w = true
  end.

(** No character the pattern asks for is a newline. *)
Fixpoint on_one_line (r : Re.regex) : bool :=
  match r with
  | Re.Eps | Re.WordBoundary => true
  | Re.Chr c => negb (Ascii.eqb CharClass.newline c)
  | Re.Class p | Re.Plus p | Re.Star p | Re.LazyStar p => negb (p CharClass.newline)
  | Re.Cat r1 r2 | Re.Alt r1 r2 => on_one_line r1 && on_one_line r2
  | Re.Opt r' => on_one_line r'
  end.

(** The rest of a match answers on a line followed by a newline and [b] as
    it does on the line alone. *)
Definition same_on_line (b : string) (k k' : Re.cont) : Prop :=
  forall prev s n,
    LexicalAnalyzer.contains CharClass.newline s = false ->
    k prev (s ++ String CharClass.newline b)%string n = k' prev s n.

(** Of the character before the cursor, the rest of a match asks only
    whether it is a word character. *)
Definition same_before (k : Re.cont) : Prop :=
  forall p p' s n, Re.is_word p = Re.is_word p' -> k p s n = k p' s n.

(** ** What the parser reads and stores *)

Module Grammar.

Import SyntaxAnalyzer.

(** The kinds [parse_expression] takes for an operand *)
Definition operand (k : Kind) : bool :=
  Kind_eqb k IDENTIFIER || Kind_eqb k NUMBER.

(** The tokens an expression was read from: operands with a REL_OP between
    each two, the expression nesting to the right *)
Fixpoint spelled (e : Expr) (consumed : list Token) : Prop :=
  match e, consumed with
  | Leaf v, [t] => operand (fst t) = true /\ snd t = v
  | Comparison a op b, t :: o :: consumed' =>
      operand (fst t) = true /\ snd t = a
      /\ fst o = REL_OP /\ snd o = op
      /\ spelled b consumed'
  | _, _ => False
  end.

(** The token lists the parser takes for an expression, a statement, a
    block, a declaration and a program, as its methods read them: any
    keyword separates the parts of a statement, any delimiter ends one and
    opens a block, the delimiter that closes is the brace. *)
Inductive expression : list Token -> Prop :=
| expression_operand (t : Token) :
    operand (fst t) = true -> expression [t]
| expression_comparison (t o : Token) (rest : list Token) :
    operand (fst t) = true -> fst o = REL_OP -> expression rest ->
    expression (t :: o :: rest).

Inductive statement : list Token -> Prop :=
| statement_assignment (name : Value) (asg semi : Token) (e : list Token) :
    fst asg = ASSIGN -> expression e -> fst semi = DELIMITER ->
    statement ((IDENTIFIER, name) :: asg :: e ++ [semi])
| statement_if (kw : Token) (cond yes : list Token) :
    expression cond -> fst kw = KEYWORD -> block yes ->
    statement ((KEYWORD, VStr "if") :: cond ++ kw :: yes)
| statement_if_else (kw : Token) (cond yes no : list Token) :
    expression cond -> fst kw = KEYWORD -> block yes -> block no ->
    statement ((KEYWORD, VStr "if") :: cond ++ kw :: yes ++ (KEYWORD, VStr "else") :: no)
| statement_for (name : Value) (asg kw : Token) (from to body : list Token) :
    fst asg = ASSIGN -> expression from -> fst kw = KEYWORD -> expression to -> block body ->
    statement ((KEYWORD, VStr "for") :: (IDENTIFIER, name) :: asg :: from ++ kw :: to ++ body)
| statement_do (kw : Token) (body cond : list Token) :
    block body -> fst kw = KEYWORD -> expression cond ->
    statement ((KEYWORD, VStr "do") :: body ++ kw :: cond)
| statement_input (name : Value) (semi : Token) :
    fst semi = DELIMITER ->
    statement [(KEYWORD, VStr "input"); (IDENTIFIER, name); semi]
| statement_output (semi : Token) (e : list Token) :
    expression e -> fst semi = DELIMITER ->
    statement ((KEYWORD, VStr "output") :: e ++ [semi])
| statement_block (body : list Token) :
    statements body ->
    statement ((DELIMITER, VStr "{") :: body ++ [(DELIMITER, VStr "}")])

with block : list Token -> Prop :=
| block_of (open : Token) (body : list Token) :
    fst open = DELIMITER -> statements body ->
    block (open :: body ++ [(DELIMITER, VStr "}")])

with statements : list Token -> Prop :=
| statements_none : statements []
| statements_more (st rest : list Token) :
    statement st -> statements rest -> statements (st ++ rest).

Inductive declaration : list Token -> Prop :=
| declaration_of (name : Value) (asg semi : Token) (e : list Token) :
    fst asg = ASSIGN -> expression e -> fst semi = DELIMITER ->
    declaration ((KEYWORD, VStr "let") :: (IDENTIFIER, name) :: asg :: e ++ [semi]).

Inductive items : list Token -> Prop :=
| items_none : items []
| items_declaration (d rest : list Token) :
    declaration d -> items rest -> items (d ++ rest)
| items_statement (st rest : list Token) :
    statement st -> items rest -> items (st ++ rest).

Definition program (l : list Token) : Prop :=
  exists open body,
    fst open = DELIMITER /\ items body /\ l = open :: body ++ [(DELIMITER, VStr "}")].

(** From [s] to [s'] the cursor went over the tokens [l]. *)
Definition reads (tokens l : list Token) (s s' : state) : Prop :=
  skipn (current_token s) tokens = l ++ skipn (current_token s') tokens
  /\ current_token s' = current_token s + List.length l.

(** The keywords [parse_statement] has a branch for *)
Definition dispatched (v : Value) : bool :=
  Value_is v "if" || Value_is v "for" || Value_is v "do"
  || Value_is v "input" || Value_is v "output".

(** The first token of [l] passes the test [p]: what a test at the cursor
    sees when [l] is what lies ahead. *)
Definition head_is (p : Token -> bool) (l : list Token) : bool :=
  match l with
  | [] => false
  | t :: _ => p t
  end.

(** No identifier spelled as the closing brace or as [else] *)
Definition plain (t : Token) : bool :=
  negb (Kind_eqb (fst t) IDENTIFIER && (Value_is (snd t) "}" || Value_is (snd t) "else")).

(** The tokens a statement of the grammar begins with *)
Definition starter (t : Token) : bool :=
  match fst t with
  | IDENTIFIER => true
  | KEYWORD => dispatched (snd t)
  | DELIMITER => Value_is (snd t) "{"
  | _ => false
  end.

(** Started in [s], [m] returns with the cursor moved over [l], under every
    fuel bound from some bound on. *)
Definition accepted {A : Type} (tokens l : list Token) (m : nat -> M A) (s : state) : Prop :=
  exists g a s', reads tokens l s s' /\ forall f, g <= f -> m f s = Ok a s'.

(** The kinds [match] is ever asked for *)
Definition consumable (k : Kind) : bool :=
  match k with
  | DELIMITER | KEYWORD | IDENTIFIER | ASSIGN | NUMBER | REL_OP => true
  | _ => false
  end.

(** An entry as the parser writes it *)
Definition entry_ok (info : Entry) : Prop :=
  type info = "variable"%string
  /\ value info <> None
  /\ (declared info = None \/ declared info = Some true).

(** A table of such entries, no key twice *)
Definition table_ok (d : dict) : Prop :=
  NoDup (keys d) /\ forall name info, In (name, info) d -> entry_ok info.

(** From [s] to [s'] the cursor went forward over tokens of the kinds
    [match] is asked for. *)
Definition consumes (tokens : list Token) (s s' : state) : Prop :=
  current_token s <= current_token s'
  /\ forall i, current_token s <= i -> i < current_token s' ->
       exists t, nth_error tokens i = Some t /\ consumable (fst t) = true.

(** From [s] to [s'] the table stayed one of well-formed entries. *)
Definition keeps_table (s s' : state) : Prop :=
  table_ok (symbol_table s) -> table_ok (symbol_table s').

(** Where [m] returns with the cursor short of [bound], [m'] returns the
    same. *)
Definition returns_alike {A : Type} (bound : nat) (m m' : M A) : Prop :=
  forall s a s', m s = Ok a s' -> current_token s' < bound -> m' s = Ok a s'.

(** The kinds of a last token behind which the parser looks for one more:
    an identifier that may begin an assignment, and the tokens an operand
    has to follow *)
Definition open_end (k : Kind) : bool :=
  match k with
  | IDENTIFIER | ASSIGN | KEYWORD | REL_OP => true
  | _ => false
  end.

(** The stream ends in a token of such a kind. *)
Definition ends_open (tokens : list Token) : Prop :=
  exists last,
    nth_error tokens (List.length tokens - 1) = Some last /\ open_end (fst last) = true.

(** The token before the cursor is of such a kind. *)
Definition after_open (tokens : list Token) (s : state) : Prop :=
  exists j t,
    current_token s = S j /\ nth_error tokens j = Some t /\ open_end (fst t) = true.

(** The run was not cut by the fuel bound. *)
Definition finished {A : Type} (r : result A) : Prop :=
  match r with
  | OutOfFuel _ => False
  | _ => True
  end.

(** The fuel [fuel] leaves room for three calls for each token behind the
    cursor, and [c] more. *)
Definition room (tokens : list Token) (fuel c : nat) (s : state) : Prop :=
  3 * (List.length tokens - current_token s) + c <= fuel.

(** [m'] answers as [m] does wherever [m], started in a state with [P], is
    not cut. *)
Definition agrees {A : Type} (P : state -> Prop) (m' m : M A) : Prop :=
  forall s, P s -> finished (m s) -> m' s = m s.

End Grammar.

(** * The tokenizer *)

Section LexerFacts.

Import CharClass Re LexicalAnalyzer.

Ltac all_ascii c := destruct c as [[] [] [] [] [] [] [] []].

Lemma binary_digit_is_digit (c : ascii) : one_of "01" c = true -> digit c = true.
Proof. all_ascii c; vm_compute; auto. Qed.

Lemma octal_digit_is_digit (c : ascii) : range "0" "7" c = true -> digit c = true.
Proof. all_ascii c; vm_compute; auto. Qed.

Lemma orelse_right (a b : option nat) : b <> None -> orelse a b <> None.
Proof. destruct a; simpl; [discriminate | auto]. Qed.

(** A greedy repetition before a rest that always matches always matches. *)
Lemma star_total (p : ascii -> bool) (k : cont) :
  (forall prev s n, k prev s n <> None) ->
  forall s prev n, star p k prev s n <> None.
Proof.
  intros Hk s; induction s as [|c s IH]; intros prev n; simpl.
  - apply Hk.
  - destruct (p c); [apply orelse_right|]; apply Hk.
Qed.

Lemma opt_total (r : regex) (k : cont) :
  (forall prev s n, k prev s n <> None) ->
  forall prev s n, run (Opt r) k prev s n <> None.
Proof. intros Hk prev s n; simpl; apply orelse_right, Hk. Qed.

(** NUMBER matches wherever the text starts with a decimal digit. *)
Lemma number_matches_at_digit (prev : option ascii) (c : ascii) (s : string) :
  digit c = true -> match_at (rule NUMBER) prev (String c s) <> None.
Proof.
  intros Hc. unfold match_at, rule. simpl rule_in.
  cbn [run]. rewrite Hc.
  apply star_total. intros prev' s' n'.
  change (run (Opt (Cat (Chr ".") (Plus digit)))
            (run (Opt (Cat (Class (one_of "Ee")) (Cat (Opt (Class (one_of "+-"))) (Plus digit))))
               accept) prev' s' n' <> None).
  apply opt_total. intros; apply opt_total. intros; discriminate.
Qed.

(** A pattern that begins with [p+] matches only a text whose first
    character is in [p]. *)
Lemma plus_first (p : ascii -> bool) (r : regex) (prev : option ascii) (s : string) (n : nat) :
  match_at (Cat (Plus p) r) prev s = Some n ->
  exists c s', s = String c s' /\ p c = true.
Proof.
  unfold match_at; cbn [run]. destruct s as [|c s']; [discriminate|].
  destruct (p c) eqn:Hc; [|discriminate]. eauto.
Qed.

Lemma suffixed_number_starts_with_digit (kind : Kind) (prev : option ascii) (s : string) (n : nat) :
  suffixed_number kind = true ->
  match_at (rule kind) prev s = Some n ->
  exists c s', s = String c s' /\ digit c = true.
Proof.
  intros Hk Hm. destruct kind; try discriminate Hk; unfold rule in Hm; simpl rule_in in Hm;
    apply plus_first in Hm; destruct Hm as (c & s' & -> & Hc); exists c, s'; split; auto.
  - apply binary_digit_is_digit, Hc.
  - apply octal_digit_is_digit, Hc.
Qed.

(** Where one of the three suffixed rules matches, NUMBER matches too. *)
Lemma number_shadows (kind : Kind) (prev : option ascii) (s : string) (n : nat) :
  suffixed_number kind = true ->
  match_at (rule kind) prev s = Some n ->
  exists m, match_at (rule NUMBER) prev s = Some m.
Proof.
  intros Hk Hm.
  destruct (@suffixed_number_starts_with_digit kind prev s n Hk Hm) as (c & s' & -> & Hc).
  destruct (match_at (rule NUMBER) prev (String c s')) as [m|] eqn:E; [eauto|].
  exfalso. exact (@number_matches_at_digit prev c s' Hc E).
Qed.

(** The first rule of a table that matches is not one that comes after
    a rule matching at the same place. *)
Lemma token_regex_kind (prev : option ascii) (s : string) (kind : Kind) (n : nat) :
  token_regex prev s = Some (kind, n) -> suffixed_number kind = false.
Proof.
  unfold token_regex, token_specification. cbn [first_match].
  match goal with |- context [match_at ?r prev s] =>
    destruct (match_at r prev s); [intros [= <- _]; reflexivity|] end.
  destruct (match_at (rule NUMBER) prev s) as [m|] eqn:EN.
  - unfold rule in EN; simpl rule_in in EN. rewrite EN. intros [= <- _]; reflexivity.
  - assert (H3 : forall k m, suffixed_number k = true -> match_at (rule k) prev s = Some m -> False).
    { intros k m Hk Hm. destruct (@number_shadows k prev s m Hk Hm) as [m' Hm']. congruence. }
    unfold rule in EN; simpl rule_in in EN. rewrite EN.
    repeat match goal with |- context [match_at ?r prev s] =>
      let E := fresh "E" in
      destruct (match_at r prev s) as [?m|] eqn:E;
      [ first [ exfalso; apply (H3 BIN_NUMBER m eq_refl); exact E
              | exfalso; apply (H3 OCT_NUMBER m eq_refl); exact E
              | exfalso; apply (H3 DEC_NUMBER m eq_refl); exact E
              | intros [= <- _]; reflexivity ] |] end.
    discriminate.
Qed.

Lemma token_of_kind (m : Kind * string) (token : Token) :
  In token (token_of m) -> fst token = fst m.
Proof.
  destruct m as [kind value]; destruct kind; simpl; intros H;
    repeat destruct H as [<- | H]; try reflexivity; contradiction.
Qed.

Lemma finditer_kinds (s : string) :
  forall skip prev m, In m (finditer skip prev s) -> suffixed_number (fst m) = false.
Proof.
  induction s as [|c s IH]; intros skip prev m; simpl; [contradiction|].
  destruct skip as [|skip]; [|apply IH].
  destruct (token_regex prev (String c s)) as [[kind n]|] eqn:E; [|apply IH].
  intros [<- | H]; [|eapply IH; eauto].
  simpl. eapply token_regex_kind; eauto.
Qed.

(** The second pass reports the characters outside the token alphabet. *)
Lemma unknown_symbol_test (c : ascii) :
  negb (space c) && no_rule_matches c = negb (space c) && negb (token_character c).
Proof. all_ascii c; vm_compute; reflexivity. Qed.

Lemma unknown_symbols_filter (program : string) :
  unknown_symbols program
  = map UnknownSymbol
      (filter (fun c => negb (space c) && negb (token_character c))
         (list_ascii_of_string program)).
Proof.
  induction program as [|c program IH]; [reflexivity|].
  cbn [unknown_symbols list_ascii_of_string filter]. rewrite unknown_symbol_test.
  destruct (negb (space c) && negb (token_character c)); simpl; congruence.
Qed.

(** Every token carries a number when its kind is NUMBER, and the matched
    text otherwise. *)
Lemma token_of_payload (m : Kind * string) (token : Token) :
  In token (token_of m) ->
  (fst token = NUMBER /\ (is_int (snd token) = true \/ is_float (snd token) = true))
  \/ (fst token <> NUMBER /\ snd token = VStr (snd m)).
Proof.
  destruct m as [kind value]. unfold token_of.
  destruct kind; simpl; intros H; try contradiction; destruct H as [<-|[]]; simpl;
    try (right; split; [discriminate | reflexivity]).
  left. split; [reflexivity|]. unfold number_value.
  destruct (contains "." value || contains "E" value || contains "e" value); auto.
Qed.

Lemma tokenize_payloads (program : string) :
  Forall (fun token : Token =>
            (fst token = NUMBER /\ (is_int (snd token) = true \/ is_float (snd token) = true))
            \/ (fst token <> NUMBER /\ exists text, snd token = VStr text))
    (fst (tokenize program)).
Proof.
  apply Forall_forall. intros token H. unfold tokenize in H. cbn [fst] in H.
  apply in_flat_map in H. destruct H as (m & _ & H).
  apply token_of_payload in H. destruct H as [H|[H1 H2]]; [left; exact H|].
  right. split; [exact H1 | eauto].
Qed.

(** ** The first character of a match *)

(** A match on a text that is not empty begins with a character of
    [starts], or is the empty match. *)
Lemma run_starts (r : regex) :
  forall k prev c s n m,
    run r k prev (String c s) n = Some m ->
    starts r c = true \/ (nullable r = true /\ k prev (String c s) n = Some m).
Proof.
  induction r as [| c' | p | r1 IH1 r2 IH2 | r1 IH1 r2 IH2 | r IH | p | p | p | ];
    intros k prev c s n m H; cbn [run starts nullable] in *.
  - right; auto.
  - destruct (Ascii.eqb c c'); [left; reflexivity | discriminate].
  - destruct (p c); [left; reflexivity | discriminate].
  - apply IH1 in H. destruct H as [H | [N H]]; [left; rewrite H; reflexivity|].
    apply IH2 in H. destruct H as [H | [N2 H]].
    + left. rewrite N, H. apply orb_true_r.
    + right. rewrite N, N2. auto.
  - unfold orelse in H. destruct (run r1 k prev (String c s) n) as [x|] eqn:E1.
    + injection H as ->. apply IH1 in E1. destruct E1 as [E1 | [N E1]].
      * left. rewrite E1. reflexivity.
      * right. rewrite N. auto.
    + apply IH2 in H. destruct H as [H | [N H]].
      * left. rewrite H. apply orb_true_r.
      * right. rewrite N. rewrite orb_true_r. auto.
  - unfold orelse in H. destruct (run r k prev (String c s) n) as [x|] eqn:E1.
    + injection H as ->. apply IH in E1. destruct E1 as [E1 | [N E1]]; auto.
    + auto.
  - destruct (p c); [left; reflexivity | discriminate].
  - cbn [star] in H. destruct (p c); [left; reflexivity | right; auto].
  - cbn [lazy_star] in H. destruct (k prev (String c s) n) as [x|] eqn:K.
    + right. auto.
    + destruct (p c); [left; reflexivity | discriminate].
  - destruct (xorb (is_word prev) (is_word (next_char (String c s)))); [right; auto | discriminate].
Qed.

Lemma match_at_starts (r : regex) (prev : option ascii) (c : ascii) (s : string) (n : nat) :
  nullable r = false ->
  match_at r prev (String c s) = Some n -> starts r c = true.
Proof.
  intros N H. apply run_starts in H. destruct H as [H | [H _]]; [exact H | congruence].
Qed.

(** Each match of [finditer] is a match of [token_regex] at some position,
    with the text it covers. *)
Lemma finditer_sound (s : string) :
  forall skip prev m,
    In m (finditer skip prev s) ->
    exists prev' c s' n,
      token_regex prev' (String c s') = Some (fst m, n)
      /\ snd m = substring 0 n (String c s').
Proof.
  induction s as [|c s IH]; intros skip prev m; cbn [finditer]; [contradiction|].
  destruct skip as [|skip]; [|apply IH].
  destruct (token_regex prev (String c s)) as [[kind n]|] eqn:E; [|apply IH].
  intros [<- | H]; [|eapply IH; eauto].
  exists prev, c, s, n. auto.
Qed.

(** The match [token_regex] gives is a match of the rule of its kind. *)
Lemma token_regex_rule (prev : option ascii) (s : string) (kind : Kind) (n : nat) :
  token_regex prev s = Some (kind, n) -> match_at (rule kind) prev s = Some n.
Proof.
  unfold token_regex, token_specification. cbn [first_match].
  repeat match goal with |- context [match_at ?r prev s] =>
    let E := fresh "E" in
    destruct (match_at r prev s) as [?m|] eqn:E;
    [ intros [= <- <-]; exact E |] end.
  discriminate.
Qed.

(** A match of a kind that comes after IDENTIFIER in the table stands where
    IDENTIFIER does not match. *)
Lemma token_regex_not_identifier (prev : option ascii) (s : string) (kind : Kind) (n : nat) :
  token_regex prev s = Some (kind, n) ->
  match_at (rule IDENTIFIER) prev s <> None ->
  In kind [COMMENT; NUMBER; BIN_NUMBER; OCT_NUMBER; DEC_NUMBER; HEX_NUMBER; KEYWORD; IDENTIFIER].
Proof.
  intros H I. revert H. unfold token_regex, token_specification. cbn [first_match].
  do 8 (match goal with |- context [match_at ?r prev s] =>
    let E := fresh "E" in
    destruct (match_at r prev s) as [?m|] eqn:E;
    [ intros [= <- _]; simpl; tauto |] end).
  exfalso. apply I. assumption.
Qed.

(** IDENTIFIER matches wherever the text starts with a letter or an
    underscore. *)
Lemma identifier_matches_at_letter (prev : option ascii) (c : ascii) (s : string) :
  letter_ c = true -> match_at (rule IDENTIFIER) prev (String c s) <> None.
Proof.
  intros Hc. unfold match_at, rule. simpl rule_in. cbn [run]. rewrite Hc.
  apply star_total. intros; discriminate.
Qed.

(** ** The text of a match *)

Lemma append_assoc (a b c : string) : ((a ++ b) ++ c = a ++ (b ++ c))%string.
Proof. induction a as [|x a IH]; simpl; congruence. Qed.

Lemma append_empty (a : string) : (a ++ EmptyString)%string = a.
Proof. induction a as [|x a IH]; simpl; congruence. Qed.

Lemma length_append (a b : string) :
  String.length (a ++ b) = String.length a + String.length b.
Proof. induction a as [|x a IH]; simpl; congruence. Qed.

Lemma substring_0_0 (s : string) : substring 0 0 s = EmptyString.
Proof. destruct s; reflexivity. Qed.

Lemma substring_append (w s : string) : substring 0 (String.length w) (w ++ s) = w.
Proof.
  induction w as [|c w IH]; simpl; [apply substring_0_0 | congruence].
Qed.

Lemma substring_all (s : string) : substring 0 (String.length s) s = s.
Proof. induction s as [|c s IH]; simpl; congruence. Qed.

Lemma all_in_append (p : ascii -> bool) (a b : string) :
  all_in p (a ++ b) = all_in p a && all_in p b.
Proof. induction a as [|x a IH]; simpl; [reflexivity|]. rewrite IH. apply andb_assoc. Qed.

Lemma contains_append (c : ascii) (a b : string) :
  contains c (a ++ b) = contains c a || contains c b.
Proof. induction a as [|x a IH]; simpl; [reflexivity|]. rewrite IH. apply orb_assoc. Qed.

Lemma star_sound (p : ascii -> bool) (k : cont) (s : string) :
  forall prev n m,
    star p k prev s n = Some m ->
    exists w s' prev',
      s = (w ++ s')%string /\ all_in p w = true /\ k prev' s' (n + String.length w) = Some m.
Proof.
  induction s as [|c s IH]; intros prev n m H; cbn [star] in H.
  - exists EmptyString, EmptyString, prev. rewrite Nat.add_0_r. auto.
  - assert (Stop : k prev (String c s) n = Some m ->
                   exists w s' prev',
                     String c s = (w ++ s')%string /\ all_in p w = true
                     /\ k prev' s' (n + String.length w) = Some m).
    { intros K. exists EmptyString, (String c s), prev. rewrite Nat.add_0_r. auto. }
    destruct (p c) eqn:Hc; [|auto].
    unfold orelse in H. destruct (star p k (Some c) s (S n)) as [x|] eqn:E; [|auto].
    injection H as ->. apply IH in E. destruct E as (w & s' & prev' & -> & A & K).
    exists (String c w), s', prev'. simpl. rewrite Hc, A.
    rewrite Nat.add_succ_r. auto.
Qed.

Lemma lazy_star_sound (p : ascii -> bool) (k : cont) (s : string) :
  forall prev n m,
    lazy_star p k prev s n = Some m ->
    exists w s' prev',
      s = (w ++ s')%string /\ all_in p w = true /\ k prev' s' (n + String.length w) = Some m.
Proof.
  induction s as [|c s IH]; intros prev n m H; cbn [lazy_star] in H.
  - destruct (k prev EmptyString n) as [x|] eqn:K; [|discriminate].
    injection H as ->. exists EmptyString, EmptyString, prev. rewrite Nat.add_0_r. auto.
  - destruct (k prev (String c s) n) as [x|] eqn:K.
    + injection H as ->. exists EmptyString, (String c s), prev. rewrite Nat.add_0_r. auto.
    + destruct (p c) eqn:Hc; [|discriminate].
      apply IH in H. destruct H as (w & s' & prev' & -> & A & K').
      exists (String c w), s', prev'. simpl. rewrite Hc, A.
      rewrite Nat.add_succ_r. auto.
Qed.

(** A match covers a text the pattern spells, and the rest of the match
    goes on behind it. *)
Lemma run_sound (r : regex) :
  forall k prev s n m,
    run r k prev s n = Some m ->
    exists w s' prev',
      s = (w ++ s')%string /\ matches r w /\ k prev' s' (n + String.length w) = Some m.
Proof.
  induction r as [| c' | p | r1 IH1 r2 IH2 | r1 IH1 r2 IH2 | r IH | p | p | p | ];
    intros k prev s n m H; cbn [run matches] in *.
  - exists EmptyString, s, prev. rewrite Nat.add_0_r. auto.
  - destruct s as [|c s]; [discriminate|].
    destruct (Ascii.eqb c c') eqn:E; [|discriminate]. apply Ascii.eqb_eq in E. subst c'.
    exists (String c EmptyString), s, (Some c). simpl. rewrite Nat.add_1_r. auto.
  - destruct s as [|c s]; [discriminate|].
    destruct (p c) eqn:E; [|discriminate].
    exists (String c EmptyString), s, (Some c). simpl. rewrite Nat.add_1_r. eauto.
  - apply IH1 in H. destruct H as (w1 & s1 & prev1 & -> & M1 & H).
    apply IH2 in H. destruct H as (w2 & s2 & prev2 & -> & M2 & H).
    exists (w1 ++ w2)%string, s2, prev2. rewrite append_assoc, length_append, Nat.add_assoc.
    eauto 10.
  - unfold orelse in H. destruct (run r1 k prev s n) as [x|] eqn:E1.
    + injection H as ->. apply IH1 in E1. destruct E1 as (w & s' & prev' & -> & M & K).
      exists w, s', prev'. auto.
    + apply IH2 in H. destruct H as (w & s' & prev' & -> & M & K).
      exists w, s', prev'. auto.
  - unfold orelse in H. destruct (run r k prev s n) as [x|] eqn:E1.
    + injection H as ->. apply IH in E1. destruct E1 as (w & s' & prev' & -> & M & K).
      exists w, s', prev'. auto.
    + exists EmptyString, s, prev. rewrite Nat.add_0_r. auto.
  - destruct s as [|c s]; [discriminate|].
    destruct (p c) eqn:E; [|discriminate].
    apply star_sound in H. destruct H as (w & s' & prev' & -> & A & K).
    exists (String c w), s', prev'. simpl. rewrite E, A, Nat.add_succ_r.
    repeat split; auto. discriminate.
  - apply star_sound in H. exact H.
  - apply lazy_star_sound in H. exact H.
  - destruct (xorb (is_word prev) (is_word (next_char s))); [|discriminate].
    exists EmptyString, s, prev. rewrite Nat.add_0_r. auto.
Qed.

(** The text of a match of [r] is spelled by [r]. *)
Lemma match_at_sound (r : regex) (prev : option ascii) (s : string) (n : nat) :
  match_at r prev s = Some n -> matches r (substring 0 n s).
Proof.
  intros H. apply run_sound in H. destruct H as (w & s' & prev' & -> & M & [= <-]).
  simpl. rewrite substring_append. exact M.
Qed.

(** The text of each match of [finditer] is spelled by the rule of its kind. *)
Lemma finditer_matches (program : string) (m : Kind * string) :
  In m (finditer 0 None program) -> matches (rule (fst m)) (snd m).
Proof.
  intros H. apply finditer_sound in H. destruct H as (prev & c & s & n & H & ->).
  apply match_at_sound with (prev := prev). apply token_regex_rule, H.
Qed.

Lemma matches_Lit (w x : string) : matches (Lit w) x -> x = w.
Proof.
  revert x. induction w as [|c w IH]; intros x M; [exact M|].
  destruct w as [|c' w]; [exact M|].
  change (Lit (String c (String c' w))) with (Cat (Chr c) (Lit (String c' w))) in M.
  cbn [matches] in M. destruct M as (w1 & w2 & -> & -> & M). apply IH in M. subst w2.
  reflexivity.
Qed.

Lemma one_of_In (chars : string) (c : ascii) :
  one_of chars c = true -> In c (list_ascii_of_string chars).
Proof.
  unfold one_of. intros H. apply existsb_exists in H. destruct H as (x & I & E).
  apply Ascii.eqb_eq in E. subst x. exact I.
Qed.

Lemma substring_head (n : nat) (s : string) (c : ascii) (w : string) :
  substring 0 n s = String c w -> exists s', s = String c s'.
Proof.
  destruct s as [|c' s']; destruct n as [|n]; simpl; try discriminate.
  intros [= -> _]. eauto.
Qed.

(** A word that begins with a letter is taken by a rule up to IDENTIFIER,
    never by one of the operator rules behind it. *)
Lemma word_not_operator (prev : option ascii) (s : string) (kind : Kind) (n : nat)
    (c : ascii) (w : string) :
  token_regex prev s = Some (kind, n) ->
  substring 0 n s = String c w -> letter_ c = true ->
  In kind [COMMENT; NUMBER; BIN_NUMBER; OCT_NUMBER; DEC_NUMBER; HEX_NUMBER; KEYWORD; IDENTIFIER].
Proof.
  intros H T L. destruct (substring_head _ _ T) as [s' ->].
  eapply token_regex_not_identifier; [exact H|].
  apply identifier_matches_at_letter, L.
Qed.

(** The spelling of a match of a kind with finitely many spellings *)
Lemma token_regex_spelling (prev : option ascii) (s : string) (kind : Kind) (n : nat)
    (texts : list string) :
  token_regex prev s = Some (kind, n) ->
  spellings kind = Some texts ->
  In (substring 0 n s) texts.
Proof.
  intros H S. pose proof (match_at_sound _ _ _ (token_regex_rule _ _ H)) as M.
  destruct kind; try discriminate S; injection S as <-;
    unfold rule in M; simpl rule_in in M.
  - (* KEYWORD *)
    unfold keywords in M. cbn [matches] in M.
    destruct M as (w1 & w2 & -> & -> & w3 & w4 & -> & M & ->).
    repeat destruct M as [M|M]; apply matches_Lit in M; rewrite M; simpl; tauto.
  - (* ASSIGN *)
    cbn [matches] in M. rewrite M. simpl; tauto.
  - (* REL_OP *)
    cbn [matches] in M. destruct M as (w1 & w2 & -> & (c & -> & Hc) & M).
    apply one_of_In in Hc. simpl in Hc.
    destruct Hc as [<-|[<-|[]]]; destruct M as [->| ->]; simpl; tauto.
  - (* ADD_OP *)
    cbn [matches] in M. destruct M as [(c & E & Hc) | M].
    + rewrite E. apply one_of_In in Hc. simpl in Hc.
      destruct Hc as [<-|[<-|[]]]; simpl; tauto.
    + apply (matches_Lit "or") in M.
      pose proof (word_not_operator _ _ H M eq_refl) as K. simpl in K.
      repeat destruct K as [K|K]; try discriminate K; contradiction.
  - (* MUL_OP *)
    cbn [matches] in M. destruct M as [(c & E & Hc) | M].
    + rewrite E. apply one_of_In in Hc. simpl in Hc.
      destruct Hc as [<-|[<-|[]]]; simpl; tauto.
    + apply (matches_Lit "and") in M.
      pose proof (word_not_operator _ _ H M eq_refl) as K. simpl in K.
      repeat destruct K as [K|K]; try discriminate K; contradiction.
  - (* DELIMITER *)
    cbn [matches] in M. destruct M as (c & E & Hc). rewrite E.
    apply one_of_In in Hc. simpl in Hc.
    repeat destruct Hc as [<-|Hc]; simpl; tauto.
Qed.

(** No match of [finditer] is a UNARY_OP: the word [not] is an IDENTIFIER. *)
Lemma finditer_no_unary (program : string) (m : Kind * string) :
  In m (finditer 0 None program) -> fst m <> UNARY_OP.
Proof.
  intros H U. apply finditer_sound in H. destruct H as (prev & c & s & n & H & _).
  rewrite U in H. pose proof (match_at_sound _ _ _ (token_regex_rule _ _ H)) as M.
  unfold rule in M; simpl rule_in in M. apply (matches_Lit "not") in M.
  pose proof (word_not_operator _ _ H M eq_refl) as K. simpl in K.
  repeat destruct K as [K|K]; try discriminate K; contradiction.
Qed.

Lemma tokenize_In (program : string) (token : Token) :
  In token (fst (tokenize program)) ->
  exists m, In m (finditer 0 None program) /\ In token (token_of m).
Proof. unfold tokenize. cbn [fst]. apply in_flat_map. Qed.

(** ** Numbers *)

Lemma int_from_nonnegative (value : string) :
  forall acc, (0 <= acc)%Z -> (0 <= int_from acc value)%Z.
Proof.
  induction value as [|c value IH]; intros acc H; cbn [int_from]; [exact H|].
  apply IH. lia.
Qed.

(** A NUMBER without a decimal point and without an exponent marker is a
    run of decimal digits. *)
Lemma number_digits (w : string) :
  matches (rule NUMBER) w ->
  contains "." w || contains "E" w || contains "e" w = false ->
  w <> EmptyString /\ all_in digit w = true.
Proof.
  unfold rule; simpl rule_in. cbn [matches].
  intros (w1 & w' & -> & (N & D) & w2 & w3 & -> & F & X) C.
  rewrite !contains_append in C.
  assert (F' : w2 = EmptyString).
  { destruct F as [F | (a & b & -> & -> & _)]; [exact F|].
    simpl in C. rewrite !orb_true_r in C. discriminate C. }
  assert (X' : w3 = EmptyString).
  { destruct X as [X | (a & b & -> & (c & -> & Hc) & _)]; [exact X|].
    apply one_of_In in Hc. simpl in Hc. destruct Hc as [<-|[<-|[]]];
      simpl in C; rewrite ?orb_true_r in C; discriminate C. }
  subst w2 w3. rewrite !append_empty. split; [|exact D].
  destruct w1; [contradiction | discriminate].
Qed.

(** ** Bounds *)

Lemma finditer_length (s : string) :
  forall skip prev, List.length (finditer skip prev s) <= String.length s.
Proof.
  induction s as [|c s IH]; intros skip prev; cbn [finditer]; [simpl; lia|].
  destruct skip as [|skip]; [|specialize (IH skip (Some c)); simpl; lia].
  destruct (token_regex prev (String c s)) as [[kind n]|].
  - specialize (IH (n - 1) (Some c)). simpl. lia.
  - specialize (IH 0 (Some c)). simpl. lia.
Qed.

Lemma token_of_length (m : Kind * string) : List.length (token_of m) <= 1.
Proof. destruct m as [kind value]; destruct kind; simpl; lia. Qed.

Lemma flat_map_length_bound {X Y : Type} (f : X -> list Y) (l : list X) :
  (forall x, List.length (f x) <= 1) -> List.length (flat_map f l) <= List.length l.
Proof.
  intros H. induction l as [|x l IH]; simpl; [lia|].
  rewrite length_app. specialize (H x). lia.
Qed.

Lemma unknown_symbols_length (program : string) :
  List.length (unknown_symbols program) <= String.length program.
Proof.
  induction program as [|c program IH]; cbn [unknown_symbols]; [simpl; lia|].
  destruct (negb (space c) && no_rule_matches c); simpl; lia.
Qed.

Lemma dot_no_newline (w : string) : all_in dot w = true -> contains newline w = false.
Proof.
  induction w as [|c w IH]; simpl; [reflexivity|]. intros H.
  apply andb_prop in H. destruct H as [H1 H2]. rewrite (IH H2).
  unfold dot in H1. destruct (Ascii.eqb c newline); [discriminate | reflexivity].
Qed.

(** ** Words of hexadecimal letters *)

Lemma finditer_skip_all (s : string) :
  forall skip prev, String.length s <= skip -> finditer skip prev s = [].
Proof.
  induction s as [|c s IH]; intros skip prev H; [reflexivity|].
  destruct skip as [|skip]; simpl in H; [lia|]. cbn [finditer]. apply IH. lia.
Qed.

(** A greedy repetition takes a whole run of its class when the rest matches
    the one character behind the run. *)
Lemma star_takes_all (p : ascii -> bool) (k : cont) (x : ascii) (w : string) :
  p x = false ->
  (forall prev n, k prev (String x EmptyString) n = Some (S n)) ->
  all_in p w = true ->
  forall prev n,
    star p k prev (w ++ String x EmptyString) n = Some (S (n + String.length w)).
Proof.
  intros Hx Hk. induction w as [|c w IH]; intros A prev n; simpl in *.
  - rewrite Hx, Hk, Nat.add_0_r. reflexivity.
  - apply andb_prop in A. destruct A as [Hc A]. rewrite Hc, (IH A).
    simpl. rewrite Nat.add_succ_r. reflexivity.
Qed.

Lemma hex_letter_facts (c : ascii) :
  hex_letter c = true ->
  hex_digit c = true /\ token_character c = true /\ space c = false
  /\ starts (rule COMMENT) c = false /\ starts (rule NUMBER) c = false
  /\ starts (rule BIN_NUMBER) c = false /\ starts (rule OCT_NUMBER) c = false
  /\ starts (rule DEC_NUMBER) c = false.
Proof.
  all_ascii c; vm_compute; intros H; try discriminate H; repeat split.
Qed.

Lemma hex_suffix_facts (x : ascii) :
  one_of "Hh" x = true ->
  hex_digit x = false /\ token_character x = true /\ space x = false.
Proof.
  all_ascii x; vm_compute; intros H; try discriminate H; repeat split.
Qed.

Lemma no_match_at (r : regex) (prev : option ascii) (c : ascii) (s : string) :
  nullable r = false -> starts r c = false -> match_at r prev (String c s) = None.
Proof.
  intros N S. destruct (match_at r prev (String c s)) as [n|] eqn:E; [|reflexivity].
  apply match_at_starts in E; [congruence | exact N].
Qed.

Lemma unknown_symbols_none (program : string) :
  all_in (fun c => token_character c && negb (space c)) program = true ->
  unknown_symbols program = [].
Proof.
  intros H. rewrite unknown_symbols_filter.
  induction program as [|c program IH]; [reflexivity|]. simpl in *.
  apply andb_prop in H. destruct H as [Hc H]. apply andb_prop in Hc. destruct Hc as [T S].
  rewrite T. rewrite andb_false_r. apply IH, H.
Qed.

(** A word of hexadecimal letters with the suffix [h] is one HEX_NUMBER. *)
Lemma hex_word_tokens (c x : ascii) (w : string) :
  hex_letter c = true -> all_in hex_letter w = true -> one_of "Hh" x = true ->
  let word := String c (w ++ String x EmptyString) in
  tokenize word = ([(HEX_NUMBER, VStr word)], []).
Proof.
  intros Hc Hw Hx word.
  destruct (hex_letter_facts c Hc) as (D & T & S & S1 & S2 & S3 & S4 & S5).
  destruct (hex_suffix_facts x Hx) as (Dx & Tx & Sx).
  assert (A : all_in hex_digit w = true).
  { clear - Hw. induction w as [|a w IH]; [reflexivity|]. simpl in *.
    apply andb_prop in Hw. destruct Hw as [Ha Hw].
    rewrite (proj1 (hex_letter_facts a Ha)), (IH Hw). reflexivity. }
  assert (M : token_regex None word = Some (HEX_NUMBER, String.length word)).
  { pose proof (@no_match_at (rule COMMENT) None c (w ++ String x EmptyString) eq_refl S1) as N1.
    pose proof (@no_match_at (rule NUMBER) None c (w ++ String x EmptyString) eq_refl S2) as N2.
    pose proof (@no_match_at (rule BIN_NUMBER) None c (w ++ String x EmptyString) eq_refl S3) as N3.
    pose proof (@no_match_at (rule OCT_NUMBER) None c (w ++ String x EmptyString) eq_refl S4) as N4.
    pose proof (@no_match_at (rule DEC_NUMBER) None c (w ++ String x EmptyString) eq_refl S5) as N5.
    unfold rule in N1, N2, N3, N4, N5. simpl rule_in in N1, N2, N3, N4, N5.
    unfold token_regex, token_specification, word. cbn [first_match].
    rewrite N1, N2, N3, N4, N5.
    unfold match_at. cbn [run]. rewrite D.
    rewrite (@star_takes_all hex_digit _ x w Dx); [| |exact A].
    - simpl. rewrite length_append. simpl. rewrite Nat.add_1_r. reflexivity.
    - intros prev n. cbn [run]. rewrite Hx. reflexivity. }
  unfold tokenize. f_equal.
  - unfold word in *. cbn [finditer]. rewrite M.
    rewrite finditer_skip_all by (simpl; lia).
    rewrite substring_all. reflexivity.
  - apply unknown_symbols_none. unfold word. cbn [all_in]. rewrite T, S. simpl.
    clear - Hw Tx Sx. induction w as [|a w IH]; simpl.
    + rewrite Tx, Sx. reflexivity.
    + simpl in Hw. apply andb_prop in Hw. destruct Hw as [Ha Hw].
      destruct (hex_letter_facts a Ha) as (_ & Ta & Sa & _). rewrite Ta, Sa. simpl.
      apply IH, Hw.
Qed.

(** A match of a kind that comes after NUMBER in the table stands where
    NUMBER does not match. *)
Lemma token_regex_not_number (prev : option ascii) (s : string) (kind : Kind) (n : nat) :
  token_regex prev s = Some (kind, n) ->
  match_at (rule NUMBER) prev s <> None ->
  kind = COMMENT \/ kind = NUMBER.
Proof.
  intros H I. revert H. unfold token_regex, token_specification. cbn [first_match].
  do 2 (match goal with |- context [match_at ?r prev s] =>
    let E := fresh "E" in
    destruct (match_at r prev s) as [?m|] eqn:E;
    [ intros [= <- _]; tauto |] end).
  exfalso. apply I. assumption.
Qed.

Lemma hex_letter_or_digit (c : ascii) :
  hex_digit c = true -> digit c = true \/ hex_letter c = true.
Proof. all_ascii c; vm_compute; intros H; try discriminate H; auto. Qed.

(** The text of a HEX_NUMBER match begins with a letter: where it would
    begin with a digit, NUMBER matches first. *)
Lemma hex_number_text (prev : option ascii) (s : string) (n : nat) :
  token_regex prev s = Some (HEX_NUMBER, n) ->
  exists c w x,
    substring 0 n s = String c (w ++ String x EmptyString)
    /\ hex_letter c = true /\ all_in hex_digit w = true /\ one_of "Hh" x = true.
Proof.
  intros H. pose proof (match_at_sound _ _ _ (token_regex_rule _ _ H)) as M.
  unfold rule in M; simpl rule_in in M. cbn [matches] in M.
  destruct M as (w1 & w2 & E & (N & A) & (x & -> & Hx)).
  destruct w1 as [|c w]; [contradiction|]. simpl in A.
  apply andb_prop in A. destruct A as [Hc A].
  exists c, w, x. split; [exact E|]. split; [|auto].
  destruct (hex_letter_or_digit c Hc) as [D|L]; [|exact L]. exfalso.
  destruct (substring_head _ _ E) as [s' ->].
  destruct (token_regex_not_number _ _ H (@number_matches_at_digit prev c s' D)); discriminate.
Qed.

(** ** Line by line *)

Section Lines.

(** The text behind the newline that ends the line *)
Variable b : string.

Lemma contains_tail (c x : ascii) (s : string) :
  contains c (String x s) = false -> Ascii.eqb x c = false /\ contains c s = false.
Proof. simpl. apply orb_false_elim. Qed.

Lemma star_on_line (p : ascii -> bool) (k k' : cont) :
  p newline = false -> same_on_line b k k' -> same_on_line b (star p k) (star p k').
Proof.
  intros Hp K prev s. revert prev. induction s as [|c s IH]; intros prev n C.
  - simpl. rewrite Hp. apply (K prev EmptyString n C).
  - destruct (contains_tail _ _ _ C) as [_ C'].
    change ((String c s ++ String newline b)%string) with (String c (s ++ String newline b)%string).
    cbn [star]. rewrite (IH (Some c) (S n) C').
    pose proof (K prev (String c s) n C) as E.
    change ((String c s ++ String newline b)%string) with (String c (s ++ String newline b)%string) in E.
    rewrite E. reflexivity.
Qed.

Lemma lazy_star_on_line (p : ascii -> bool) (k k' : cont) :
  p newline = false -> same_on_line b k k' -> same_on_line b (lazy_star p k) (lazy_star p k').
Proof.
  intros Hp K prev s. revert prev. induction s as [|c s IH]; intros prev n C.
  - pose proof (K prev EmptyString n C) as E. simpl in E. simpl. rewrite E, Hp.
    destruct (k' prev EmptyString n); reflexivity.
  - destruct (contains_tail _ _ _ C) as [_ C'].
    pose proof (K prev (String c s) n C) as E.
    change ((String c s ++ String newline b)%string) with (String c (s ++ String newline b)%string) in *.
    cbn [lazy_star]. rewrite E, (IH (Some c) (S n) C'). reflexivity.
Qed.

(** A pattern without a newline matches on a line as it does on the line
    followed by more lines. *)
Lemma run_on_line (r : regex) :
  on_one_line r = true ->
  forall k k', same_on_line b k k' -> same_on_line b (run r k) (run r k').
Proof.
  induction r as [| c' | p | r1 IH1 r2 IH2 | r1 IH1 r2 IH2 | r IH | p | p | p | ];
    cbn [on_one_line]; intros L k k' K prev s n C.
  - apply K, C.
  - apply negb_true_iff in L. destruct s as [|c s].
    + change ((EmptyString ++ String newline b)%string) with (String newline b).
      cbn [run]. rewrite L. reflexivity.
    + destruct (contains_tail _ _ _ C) as [_ C'].
      change ((String c s ++ String newline b)%string) with (String c (s ++ String newline b)%string).
      cbn [run]. destruct (Ascii.eqb c c'); [apply K, C' | reflexivity].
  - apply negb_true_iff in L. destruct s as [|c s].
    + change ((EmptyString ++ String newline b)%string) with (String newline b).
      cbn [run]. rewrite L. reflexivity.
    + destruct (contains_tail _ _ _ C) as [_ C'].
      change ((String c s ++ String newline b)%string) with (String c (s ++ String newline b)%string).
      cbn [run]. destruct (p c); [apply K, C' | reflexivity].
  - apply andb_prop in L. destruct L as [L1 L2]. cbn [run].
    apply (IH1 L1 (run r2 k) (run r2 k')); [|exact C]. apply IH2; assumption.
  - apply andb_prop in L. destruct L as [L1 L2]. cbn [run].
    rewrite (IH1 L1 k k' K prev s n C), (IH2 L2 k k' K prev s n C). reflexivity.
  - cbn [run]. rewrite (IH L k k' K prev s n C), (K prev s n C). reflexivity.
  - apply negb_true_iff in L. destruct s as [|c s].
    + change ((EmptyString ++ String newline b)%string) with (String newline b).
      cbn [run]. rewrite L. reflexivity.
    + destruct (contains_tail _ _ _ C) as [_ C'].
      change ((String c s ++ String newline b)%string) with (String c (s ++ String newline b)%string).
      cbn [run]. destruct (p c); [apply (@star_on_line p k k' L K), C' | reflexivity].
  - apply negb_true_iff in L. cbn [run]. apply (@star_on_line p k k' L K), C.
  - apply negb_true_iff in L. cbn [run]. apply (@lazy_star_on_line p k k' L K), C.
  - cbn [run]. rewrite (K prev s n C).
    destruct s as [|c s]; reflexivity.
Qed.

Lemma match_at_on_line (r : regex) (prev : option ascii) (s : string) :
  on_one_line r = true -> contains newline s = false ->
  match_at r prev (s ++ String newline b)%string = match_at r prev s.
Proof.
  intros L C. unfold match_at. apply (run_on_line r L); [|exact C].
  intros p x n _. reflexivity.
Qed.

Lemma token_regex_on_line (prev : option ascii) (c : ascii) (s : string) :
  contains newline (String c s) = false ->
  token_regex prev (String c s ++ String newline b)%string = token_regex prev (String c s).
Proof.
  intros C. unfold token_regex, token_specification. cbn [first_match].
  rewrite !match_at_on_line by (reflexivity || exact C).
  destruct (contains_tail _ _ _ C) as [N _].
  assert (E : forall x, match_at (Chr newline) prev (String c x) = None).
  { intros x. unfold match_at. cbn [run]. rewrite N. reflexivity. }
  change ((String c s ++ String newline b)%string) with (String c (s ++ String newline b)%string).
  rewrite !E. reflexivity.
Qed.

Lemma match_length (prev : option ascii) (s : string) (kind : Kind) (n : nat) :
  token_regex prev s = Some (kind, n) -> n <= String.length s.
Proof.
  intros H. apply token_regex_rule in H. apply run_sound in H.
  destruct H as (w & s' & prev' & -> & _ & [= <-]). rewrite length_append. simpl. lia.
Qed.

Lemma substring_on_line (n : nat) (s t : string) :
  n <= String.length s -> substring 0 n (s ++ t) = substring 0 n s.
Proof.
  revert n. induction s as [|c s IH]; intros n H; simpl in *.
  - assert (n = 0) by lia. subst n. rewrite substring_0_0. reflexivity.
  - destruct n as [|n]; [reflexivity|]. rewrite IH by lia. reflexivity.
Qed.

(** At a newline the NEWLINE rule matches, and no rule before it. *)
Lemma token_regex_newline (prev : option ascii) (s : string) :
  token_regex prev (String newline s) = Some (NEWLINE, 1).
Proof.
  unfold token_regex, token_specification. cbn [first_match].
  repeat match goal with |- context [match_at ?r prev (String newline s)] =>
    rewrite (@no_match_at r prev newline s eq_refl eq_refl) end.
  reflexivity.
Qed.

Lemma star_before (p : ascii -> bool) (k : cont) : same_before k -> same_before (star p k).
Proof.
  intros K q q' s. revert q q'. induction s as [|c s IH]; intros q q' n W; cbn [star].
  - apply K, W.
  - rewrite (K q q' (String c s) n W). reflexivity.
Qed.

Lemma lazy_star_before (p : ascii -> bool) (k : cont) :
  same_before k -> same_before (lazy_star p k).
Proof.
  intros K q q' s. revert q q'. induction s as [|c s IH]; intros q q' n W; cbn [lazy_star].
  - rewrite (K q q' EmptyString n W). reflexivity.
  - rewrite (K q q' (String c s) n W). reflexivity.
Qed.

Lemma run_before (r : regex) : forall k, same_before k -> same_before (run r k).
Proof.
  induction r as [| c' | p | r1 IH1 r2 IH2 | r1 IH1 r2 IH2 | r IH | p | p | p | ];
    intros k K q q' s n W; cbn [run].
  - apply K, W.
  - reflexivity.
  - reflexivity.
  - apply IH1; [apply IH2, K | exact W].
  - rewrite (IH1 k K q q' s n W), (IH2 k K q q' s n W). reflexivity.
  - rewrite (IH k K q q' s n W), (K q q' s n W). reflexivity.
  - reflexivity.
  - apply star_before; assumption.
  - apply lazy_star_before; assumption.
  - rewrite W, (K q q' s n W). reflexivity.
Qed.

Lemma token_regex_before (p p' : option ascii) (s : string) :
  is_word p = is_word p' -> token_regex p s = token_regex p' s.
Proof.
  intros W. unfold token_regex. generalize token_specification as spec.
  induction spec as [|[name r] spec IH]; cbn [first_match]; [reflexivity|].
  unfold match_at. rewrite (run_before r (k := accept)) with (p' := p'); [|intros ? ? ? ? ?; reflexivity | exact W].
  rewrite IH. reflexivity.
Qed.

Lemma finditer_before (p p' : option ascii) (s : string) (skip : nat) :
  is_word p = is_word p' -> finditer skip p s = finditer skip p' s.
Proof.
  intros W. destruct s as [|c s]; [reflexivity|]. cbn [finditer].
  destruct skip; [|reflexivity]. rewrite (token_regex_before _ _ _ W). reflexivity.
Qed.

(** The matches of a line followed by more lines are the matches of the
    line, the newline, and the matches of the other lines. *)
Lemma finditer_on_line (a : string) :
  forall skip prev,
    contains newline a = false -> skip <= String.length a ->
    exists p,
      finditer skip prev (a ++ String newline b)%string
      = finditer skip prev a ++ finditer 0 p (String newline b).
Proof.
  induction a as [|c a IH]; intros skip prev C S.
  - simpl in S. assert (skip = 0) by lia. subst skip. exists prev. reflexivity.
  - destruct (contains_tail _ _ _ C) as [_ C'].
    destruct skip as [|skip].
    + pose proof (token_regex_on_line prev _ _ C) as E.
      change ((String c a ++ String newline b)%string) with (String c (a ++ String newline b)%string) in *.
      cbn [finditer]. rewrite E.
      destruct (token_regex prev (String c a)) as [[kind n]|] eqn:T.
      * pose proof (match_length _ _ T) as Ln. simpl in Ln.
        destruct (IH (n - 1) (Some c) C' ltac:(lia)) as [p Hp]. exists p.
        rewrite Hp.
        change (String c (a ++ String newline b)%string) with ((String c a ++ String newline b)%string).
        rewrite substring_on_line by exact Ln. reflexivity.
      * destruct (IH 0 (Some c) C' ltac:(lia)) as [p Hp]. exists p. exact Hp.
    + simpl in S. destruct (IH skip (Some c) C' ltac:(lia)) as [p Hp]. exists p.
      change ((String c a ++ String newline b)%string) with (String c (a ++ String newline b)%string).
      cbn [finditer]. exact Hp.
Qed.

Lemma unknown_symbols_on_line (a : string) :
  unknown_symbols (a ++ String newline b)%string = unknown_symbols a ++ unknown_symbols b.
Proof.
  induction a as [|c a IH]; [reflexivity|].
  change ((String c a ++ String newline b)%string) with (String c (a ++ String newline b)%string).
  cbn [unknown_symbols]. rewrite IH.
  destruct (negb (space c) && no_rule_matches c); reflexivity.
Qed.

(** The tokens and errors of a line followed by more lines *)
Lemma tokenize_on_line (a : string) :
  contains newline a = false ->
  tokenize (a ++ String newline b)%string
  = (fst (tokenize a) ++ fst (tokenize b), snd (tokenize a) ++ snd (tokenize b)).
Proof.
  intros C. unfold tokenize. cbn [fst snd]. f_equal; [|apply unknown_symbols_on_line].
  destruct (@finditer_on_line a 0 None C ltac:(lia)) as [p Hp]. rewrite Hp.
  cbn [finditer]. rewrite token_regex_newline.
  rewrite flat_map_app. cbn [flat_map token_of]. cbn [app].
  change (1 - 1) with 0.
  rewrite (@finditer_before (Some newline) None b 0) by reflexivity. reflexivity.
Qed.

End Lines.

End LexerFacts.

(** * The parser *)

Section ParserFacts.

Import SyntaxAnalyzer Run.
Local Open Scope parser_scope.

Variable tokens : list Token.

(** ** Inversion of successful runs *)

Lemma bind_ok {A B : Type} (m : M A) (f : A -> M B) (s s' : state) (b : B) :
  bind m f s = Ok b s' -> exists a s1, m s = Ok a s1 /\ f a s1 = Ok b s'.
Proof.
  unfold bind. destruct (m s) as [a s1|e s1|s1]; try discriminate. eauto.
Qed.

Lemma ret_ok {A : Type} (a a' : A) (s s' : state) :
  ret a s = Ok a' s' -> a' = a /\ s' = s.
Proof. unfold ret. intros [= -> ->]. auto. Qed.

Lemma at_cursor_ok (p : Token -> bool) (s s' : state) (b : bool) :
  at_cursor tokens p s = Ok b s' ->
  s' = s /\ b = match nth_error tokens (current_token s) with
               | Some token => p token
               | None => false
               end.
Proof.
  cbv [at_cursor bind get_current_token ret].
  destruct (nth_error tokens (current_token s)); simpl; intros [= <- <-]; auto.
Qed.

Lemma index_ok (i : nat) (s s' : state) (token : Token) :
  index tokens i s = Ok token s' -> s' = s /\ nth_error tokens i = Some token.
Proof.
  cbv [index ret raise]. destruct (nth_error tokens i); [|discriminate].
  intros [= <- <-]. auto.
Qed.

Lemma match_ok (expected_type : Kind) (s s' : state) (token : Token) :
  match_ tokens expected_type s = Ok token s' ->
  nth_error tokens (current_token s) = Some token /\
  fst token = expected_type /\
  s' = {| current_token := current_token s + 1;
          symbol_table := symbol_table s |}.
Proof.
  cbv [match_ bind get_current_token at_cursor index ret advance raise].
  destruct (nth_error tokens (current_token s)) as [token'|]; simpl; [|discriminate].
  unfold Kind_eqb. destruct (Kind_eq_dec (fst token') expected_type); simpl; [|discriminate].
  intros [= <- <-]. auto.
Qed.

(** ** The cursor *)

Section Steps.

Variable R : state -> state -> Prop.
Hypothesis R_refl : forall s, R s s.
Hypothesis R_trans : forall s1 s2 s3, R s1 s2 -> R s2 s3 -> R s1 s3.

Lemma steps_bind {A B : Type} (m : M A) (f : A -> M B) :
  steps R m -> (forall a, steps R (f a)) -> steps R (bind m f).
Proof.
  intros Hm Hf s. unfold bind. specialize (Hm s).
  destruct (m s) as [a s1|e s1|s1]; simpl in *; auto.
  eapply R_trans; [exact Hm | apply Hf].
Qed.

Lemma steps_ret {A : Type} (a : A) : steps R (ret a).
Proof. intros s; apply R_refl. Qed.

Lemma steps_raise {A : Type} (e : exn) : steps R (@raise A e).
Proof. intros s; apply R_refl. Qed.

Lemma steps_out_of_fuel {A : Type} : steps R (@out_of_fuel A).
Proof. intros s; apply R_refl. Qed.

Lemma steps_get_current_token : steps R get_current_token.
Proof. intros s; apply R_refl. Qed.

Lemma steps_get_symbol_table : steps R get_symbol_table.
Proof. intros s; apply R_refl. Qed.

Lemma steps_index (i : nat) : steps R (index tokens i).
Proof. unfold index. destruct (nth_error tokens i); [apply steps_ret | apply steps_raise]. Qed.

Lemma steps_at_cursor (p : Token -> bool) : steps R (at_cursor tokens p).
Proof.
  unfold at_cursor. apply steps_bind; [apply steps_get_current_token|].
  intros i. destruct (nth_error tokens i); apply steps_ret.
Qed.

End Steps.

Lemma cursor_moves_refl (s : state) : cursor_moves tokens s s.
Proof. unfold cursor_moves; lia. Qed.

Lemma cursor_moves_trans (s1 s2 s3 : state) :
  cursor_moves tokens s1 s2 -> cursor_moves tokens s2 s3 -> cursor_moves tokens s1 s3.
Proof. unfold cursor_moves; lia. Qed.

Lemma match_cursor (expected_type : Kind) : steps (cursor_moves tokens) (match_ tokens expected_type).
Proof.
  intros s. destruct (match_ tokens expected_type s) as [token s'|e s'|s'] eqn:E; simpl.
  - apply match_ok in E. destruct E as (Hn & _ & ->).
    assert (current_token s < List.length tokens)
      by (apply nth_error_Some; congruence).
    unfold cursor_moves; simpl; lia.
  - revert E. cbv [match_ bind get_current_token at_cursor index ret advance raise].
    destruct (nth_error tokens (current_token s)) as [t|]; [destruct (Kind_eqb (fst t) expected_type)|];
      intros [= <- <-] || intros [= <-]; apply cursor_moves_refl.
  - revert E. cbv [match_ bind get_current_token at_cursor index ret advance raise].
    destruct (nth_error tokens (current_token s)) as [t|]; [destruct (Kind_eqb (fst t) expected_type)|];
      discriminate.
Qed.

Lemma put_symbol_table_cursor (d : dict) : steps (cursor_moves tokens) (put_symbol_table d).
Proof. intros s; unfold cursor_moves; simpl; lia. Qed.

Ltac cursor_step :=
  repeat first
    [ assumption
    | apply match_cursor
    | apply put_symbol_table_cursor
    | apply steps_ret; exact cursor_moves_refl
    | apply steps_raise; exact cursor_moves_refl
    | apply steps_out_of_fuel; exact cursor_moves_refl
    | apply steps_get_current_token; exact cursor_moves_refl
    | apply steps_get_symbol_table; exact cursor_moves_refl
    | apply steps_index; exact cursor_moves_refl
    | apply steps_at_cursor; [exact cursor_moves_refl | exact cursor_moves_trans]
    | apply steps_bind; [exact cursor_moves_trans | | intros ?]
    | match goal with
      | |- steps _ (if ?b then _ else _) => destruct b
      | |- steps _ (match ?x with _ => _ end) => destruct x
      end ].

Lemma parse_expression_cursor (fuel : nat) :
  steps (cursor_moves tokens) (parse_expression tokens fuel).
Proof.
  induction fuel as [|fuel IH]; cbn [parse_expression]; cursor_step.
Qed.

Lemma parse_declaration_cursor (fuel : nat) :
  steps (cursor_moves tokens) (parse_declaration tokens fuel).
Proof.
  pose proof (parse_expression_cursor fuel). unfold parse_declaration. cursor_step.
Qed.

Lemma parse_assignment_cursor (fuel : nat) :
  steps (cursor_moves tokens) (parse_assignment tokens fuel).
Proof.
  pose proof (parse_expression_cursor fuel). unfold parse_assignment. cursor_step.
Qed.

Lemma parse_input_cursor : steps (cursor_moves tokens) (parse_input tokens).
Proof. unfold parse_input. cursor_step. Qed.

Lemma parse_output_cursor (fuel : nat) :
  steps (cursor_moves tokens) (parse_output tokens fuel).
Proof.
  pose proof (parse_expression_cursor fuel). unfold parse_output. cursor_step.
Qed.

Lemma statements_cursor (fuel : nat) :
  steps (cursor_moves tokens) (parse_statement tokens fuel) /\
  steps (cursor_moves tokens) (parse_conditional tokens fuel) /\
  steps (cursor_moves tokens) (parse_fixed_loop tokens fuel) /\
  steps (cursor_moves tokens) (parse_while_loop tokens fuel) /\
  steps (cursor_moves tokens) (parse_compound_statement tokens fuel) /\
  steps (cursor_moves tokens) (compound_statement_loop tokens fuel).
Proof.
  induction fuel as [|fuel (IH1 & IH2 & IH3 & IH4 & IH5 & IH6)].
  - repeat apply conj; cbn [parse_statement parse_conditional parse_fixed_loop parse_while_loop
                          parse_compound_statement compound_statement_loop]; cursor_step.
  - pose proof (parse_expression_cursor fuel).
    pose proof (parse_assignment_cursor fuel).
    pose proof (parse_output_cursor fuel).
    pose proof parse_input_cursor.
    repeat apply conj; cbn [parse_statement parse_conditional parse_fixed_loop parse_while_loop
                          parse_compound_statement compound_statement_loop]; cursor_step.
Qed.

Lemma program_loop_cursor (fuel : nat) :
  steps (cursor_moves tokens) (program_loop tokens fuel).
Proof.
  induction fuel as [|fuel IH]; cbn [program_loop]; [cursor_step|].
  pose proof (parse_declaration_cursor fuel).
  pose proof (proj1 (statements_cursor fuel)).
  cursor_step.
Qed.

Lemma parse_program_cursor (fuel : nat) :
  steps (cursor_moves tokens) (parse_program tokens fuel).
Proof.
  pose proof (program_loop_cursor fuel). unfold parse_program. cursor_step.
Qed.

(** ** More fuel changes no answer *)

Lemma approx_refl {A : Type} (m : M A) : approx m m.
Proof. intros s. destruct (m s); auto. Qed.

Lemma approx_out_of_fuel {A : Type} (m : M A) : approx out_of_fuel m.
Proof. intros s. exact I. Qed.

Lemma approx_bind {A B : Type} (m m' : M A) (f f' : A -> M B) :
  approx m m' -> (forall a, approx (f a) (f' a)) -> approx (bind m f) (bind m' f').
Proof.
  intros Hm Hf s. unfold bind. specialize (Hm s).
  destruct (m s) as [a s1|e s1|s1]; [|rewrite Hm; reflexivity|exact I].
  rewrite Hm. specialize (Hf a s1). destruct (f a s1); auto.
Qed.

Ltac approx_step :=
  repeat first
    [ assumption
    | apply approx_out_of_fuel
    | apply approx_refl
    | apply approx_bind; [| intros ?]
    | match goal with
      | |- approx (if ?b then _ else _) _ => destruct b
      | |- approx (match ?x with _ => _ end) _ => destruct x
      | H : forall fuel', _ <= fuel' -> approx (?f _ ?fuel) _ |- approx (?f _ ?fuel) _ =>
          apply H; lia
      end ].

Lemma parse_expression_mono (fuel : nat) :
  forall fuel', fuel <= fuel' ->
  approx (parse_expression tokens fuel) (parse_expression tokens fuel').
Proof.
  induction fuel as [|fuel IH]; intros fuel' Hle; [apply approx_out_of_fuel|].
  destruct fuel' as [|fuel']; [lia|].
  cbn [parse_expression]. approx_step.
Qed.

Lemma parse_declaration_mono (fuel fuel' : nat) :
  fuel <= fuel' ->
  approx (parse_declaration tokens fuel) (parse_declaration tokens fuel').
Proof.
  intros Hle. pose proof (parse_expression_mono Hle).
  unfold parse_declaration. approx_step.
Qed.

Lemma parse_assignment_mono (fuel fuel' : nat) :
  fuel <= fuel' ->
  approx (parse_assignment tokens fuel) (parse_assignment tokens fuel').
Proof.
  intros Hle. pose proof (parse_expression_mono Hle).
  unfold parse_assignment. approx_step.
Qed.

Lemma parse_output_mono (fuel fuel' : nat) :
  fuel <= fuel' ->
  approx (parse_output tokens fuel) (parse_output tokens fuel').
Proof.
  intros Hle. pose proof (parse_expression_mono Hle).
  unfold parse_output. approx_step.
Qed.

Lemma statements_mono (fuel : nat) :
  forall fuel', fuel <= fuel' ->
  approx (parse_statement tokens fuel) (parse_statement tokens fuel') /\
  approx (parse_conditional tokens fuel) (parse_conditional tokens fuel') /\
  approx (parse_fixed_loop tokens fuel) (parse_fixed_loop tokens fuel') /\
  approx (parse_while_loop tokens fuel) (parse_while_loop tokens fuel') /\
  approx (parse_compound_statement tokens fuel) (parse_compound_statement tokens fuel') /\
  approx (compound_statement_loop tokens fuel) (compound_statement_loop tokens fuel').
Proof.
  induction fuel as [|fuel IH]; intros fuel' Hle.
  - repeat apply conj; apply approx_out_of_fuel.
  - destruct fuel' as [|fuel']; [lia|].
    assert (Hle' : fuel <= fuel') by lia.
    destruct (IH fuel' Hle') as (IH1 & IH2 & IH3 & IH4 & IH5 & IH6).
    pose proof (parse_expression_mono Hle').
    pose proof (parse_assignment_mono Hle').
    pose proof (parse_output_mono Hle').
    repeat apply conj;
      cbn [parse_statement parse_conditional parse_fixed_loop parse_while_loop
             parse_compound_statement compound_statement_loop];
      approx_step.
Qed.

Lemma program_loop_mono (fuel : nat) :
  forall fuel', fuel <= fuel' ->
  approx (program_loop tokens fuel) (program_loop tokens fuel').
Proof.
  induction fuel as [|fuel IH]; intros fuel' Hle; [apply approx_out_of_fuel|].
  destruct fuel' as [|fuel']; [lia|].
  assert (Hle' : fuel <= fuel') by lia.
  pose proof (parse_declaration_mono Hle').
  pose proof (proj1 (statements_mono Hle')).
  pose proof (IH fuel' Hle').
  cbn [program_loop]. approx_step.
Qed.

Lemma parse_program_mono (fuel fuel' : nat) :
  fuel <= fuel' ->
  approx (parse_program tokens fuel) (parse_program tokens fuel').
Proof.
  intros Hle. pose proof (program_loop_mono Hle).
  unfold parse_program. approx_step.
Qed.

(** An answer of [parse] stays the answer under any larger fuel bound. *)
Lemma parse_mono (fuel fuel' : nat) :
  fuel <= fuel' ->
  parse tokens fuel <> Unfinished ->
  parse tokens fuel' = parse tokens fuel.
Proof.
  intros Hle. unfold parse. pose proof (parse_program_mono Hle init) as H.
  destruct (parse_program tokens fuel init) as [a s|e s|s]; [| |congruence];
    rewrite H; reflexivity.
Qed.

(** ** The symbol table and the left sides of the token stream *)

Lemma keys_dict_set (k : Value) (e : Entry) (d : dict) (name : Value) :
  In name (keys (dict_set k e d)) <-> name = k \/ In name (keys d).
Proof.
  induction d as [|[k' e'] d IH]; simpl.
  - intuition congruence.
  - destruct (Value_eq_dec k' k) as [->|Hne]; simpl.
    + intuition congruence.
    + rewrite IH. intuition congruence.
Qed.

Lemma dict_get_None (k : Value) (d : dict) : ~ In k (keys d) -> dict_get k d = None.
Proof.
  induction d as [|[k' e] d IH]; [reflexivity|]. simpl. intros N.
  destruct (Value_eq_dec k' k); [exfalso; auto | apply IH; tauto].
Qed.

Section Returns.

Variable R : state -> state -> Prop.
Hypothesis R_refl : forall s, R s s.
Hypothesis R_trans : forall s1 s2 s3, R s1 s2 -> R s2 s3 -> R s1 s3.

Lemma returns_bind {A B : Type} (m : M A) (f : A -> M B) :
  returns R m -> (forall a, returns R (f a)) -> returns R (bind m f).
Proof.
  intros Hm Hf s b s' H. apply bind_ok in H. destruct H as (a & s1 & H1 & H2).
  eapply R_trans; [eapply Hm | eapply Hf]; eauto.
Qed.

Lemma returns_ret {A : Type} (a : A) : returns R (ret a).
Proof. intros s a' s' H. apply ret_ok in H. destruct H as [_ ->]. apply R_refl. Qed.

Lemma returns_raise {A : Type} (e : exn) : returns R (@raise A e).
Proof. intros s a s'; discriminate. Qed.

Lemma returns_out_of_fuel {A : Type} : returns R (@out_of_fuel A).
Proof. intros s a s'; discriminate. Qed.

Lemma returns_get_current_token : returns R get_current_token.
Proof. intros s a s' [= _ <-]. apply R_refl. Qed.

Lemma returns_get_symbol_table : returns R get_symbol_table.
Proof. intros s a s' [= _ <-]. apply R_refl. Qed.

Lemma returns_index (i : nat) : returns R (index tokens i).
Proof. intros s a s' H. apply index_ok in H. destruct H as [-> _]. apply R_refl. Qed.

Lemma returns_at_cursor (p : Token -> bool) : returns R (at_cursor tokens p).
Proof. intros s a s' H. apply at_cursor_ok in H. destruct H as [-> _]. apply R_refl. Qed.

End Returns.

Ltac returns_step refl trans :=
  repeat first
    [ assumption
    | match goal with H : context [returns] |- returns _ _ => solve [apply H] end
    | apply returns_ret; exact refl
    | apply returns_raise
    | apply returns_out_of_fuel
    | apply returns_get_current_token; exact refl
    | apply returns_get_symbol_table; exact refl
    | apply returns_index; exact refl
    | apply returns_at_cursor; exact refl
    | apply returns_bind; [exact trans | | intros ?]
    | match goal with
      | |- returns _ (if ?b then _ else _) => destruct b
      | |- returns _ (match ?x with _ => _ end) => destruct x
      end ].

Lemma adds_left_sides_refl (s : state) : adds_left_sides tokens s s.
Proof.
  split; [lia|]. intros name. simpl. split.
  - intros [H|[]]. left; exact H.
  - intros [H|(i & ? & ? & _)]; [left; exact H | lia].
Qed.

Lemma adds_then_pending (pending : list Value) (s1 s2 s3 : state) :
  adds_left_sides tokens s1 s2 -> adds_pending tokens pending s2 s3 ->
  adds_pending tokens pending s1 s3.
Proof.
  intros [C1 K1] [C2 K2]. split; [lia|]. intros name. rewrite K2.
  specialize (K1 name). simpl in K1. split.
  - intros [H | (i & ? & ? & L)].
    + destruct (proj1 K1 (or_introl H)) as [H'|(i & ? & ? & L)];
        [left; exact H' | right; exists i; split; [lia | split; [lia | exact L]]].
    + right; exists i; split; [lia | split; [lia | exact L]].
  - intros [H | (i & ? & ? & L)].
    + left. destruct (proj2 K1 (or_introl H)) as [H'|[]]. exact H'.
    + destruct (Nat.lt_ge_cases (S i) (current_token s2)).
      * left. destruct (proj2 K1 (or_intror (ex_intro _ i (conj H (conj H1 L))))) as [H'|[]].
        exact H'.
      * right. exists i. auto.
Qed.

Lemma pending_then_adds (pending : list Value) (s1 s2 s3 : state) :
  adds_pending tokens pending s1 s2 -> adds_left_sides tokens s2 s3 ->
  adds_pending tokens pending s1 s3.
Proof.
  intros [C1 K1] [C2 K2]. split; [lia|]. intros name.
  specialize (K1 name). specialize (K2 name). simpl in K2. split.
  - intros [H | P].
    + destruct (proj1 K2 (or_introl H)) as [H'|(i & ? & ? & L)].
      * destruct (proj1 K1 (or_introl H')) as [H''|(i & ? & ? & L)];
          [left; exact H'' | right; exists i; split; [lia | split; [lia | exact L]]].
      * right; exists i; split; [lia | split; [lia | exact L]].
    + destruct (proj1 K1 (or_intror P)) as [H''|(i & ? & ? & L)];
        [left; exact H'' | right; exists i; split; [lia | split; [lia | exact L]]].
  - intros H.
    assert (H2 : (In name (keys (symbol_table s2)) \/ In name pending)
                 \/ exists i, current_token s2 <= S i /\ S i < current_token s3
                              /\ left_side tokens i name).
    { destruct H as [H | (i & ? & ? & L)].
      - left. apply K1. left; exact H.
      - destruct (Nat.lt_ge_cases (S i) (current_token s2)).
        + left. apply K1. right. exists i. auto.
        + right. exists i. auto. }
    destruct H2 as [[H2|P]|H2].
    + left. destruct (proj2 K2 (or_introl H2)) as [H'|[]]. exact H'.
    + right; exact P.
    + left. destruct (proj2 K2 (or_intror H2)) as [H'|[]]. exact H'.
Qed.

Lemma adds_left_sides_trans (s1 s2 s3 : state) :
  adds_left_sides tokens s1 s2 -> adds_left_sides tokens s2 s3 ->
  adds_left_sides tokens s1 s3.
Proof. apply adds_then_pending. Qed.

(** Consuming a token that is no assignment sign meets no left side. *)
Lemma match_adds (expected_type : Kind) :
  expected_type <> ASSIGN ->
  returns (adds_left_sides tokens) (match_ tokens expected_type).
Proof.
  intros Hk s token s' H. apply match_ok in H. destruct H as (Hn & Hf & ->).
  split; simpl; [lia|]. intros name. split.
  - intros [H|[]]. left; exact H.
  - intros [H|(i & H1 & H2 & (_ & (t & Ht & Hkt) & _))]; [left; exact H|].
    assert (S i = current_token s) by lia. congruence.
Qed.

(** Consuming the assignment sign after an identifier that stands on a left
    side leaves its name pending. *)
Lemma match_assign_pending (s s' : state) (token : Token) (j : nat) (name : Value) :
  match_ tokens ASSIGN s = Ok token s' ->
  current_token s = S j ->
  nth_error tokens j = Some (IDENTIFIER, name) ->
  ~ after_for tokens j ->
  adds_pending tokens [name] s s'.
Proof.
  intros H Hc Hj Hf. apply match_ok in H. destruct H as (Hn & Hk & ->).
  split; simpl; [lia|]. intros x. split.
  - intros [H|[<-|[]]]; [left; exact H|].
    right. exists j. split; [lia | split; [lia|]].
    split; [exact Hj | split; [|exact Hf]].
    exists token. rewrite <- Hc. auto.
  - intros [H|(i & H1 & H2 & (Hi & _))]; [left; exact H|].
    assert (i = j) by lia. subst i. right. left. congruence.
Qed.

(** Consuming the assignment sign of a [for] header meets no left side. *)
Lemma match_assign_after_for (s s' : state) (token : Token) (j : nat) :
  match_ tokens ASSIGN s = Ok token s' ->
  current_token s = S j ->
  after_for tokens j ->
  adds_left_sides tokens s s'.
Proof.
  intros H Hc Hf. apply match_ok in H. destruct H as (Hn & Hk & ->).
  split; simpl; [lia|]. intros x. split.
  - intros [H|[]]. left; exact H.
  - intros [H|(i & H1 & H2 & (_ & _ & Hnf))]; [left; exact H|].
    assert (i = j) by lia. subst i. contradiction.
Qed.

(** Storing a pending name under its key settles it. *)
Lemma put_pending (name : Value) (e : Entry) (s0 s s' : state) (u : unit) :
  adds_pending tokens [name] s0 s ->
  put_symbol_table (dict_set name e (symbol_table s)) s = Ok u s' ->
  adds_left_sides tokens s0 s'.
Proof.
  intros [C K] H. cbv [put_symbol_table] in H. injection H as _ <-.
  split; simpl; [exact C|]. intros x. rewrite keys_dict_set, <- K. simpl.
  intuition congruence.
Qed.

(** ** The token before a statement *)

(** Taking apart a run that returned *)
Ltac inv_run :=
  repeat match goal with
  | H : bind _ _ _ = Ok _ _ |- _ =>
      let a := fresh "a" in
      let s := fresh "s" in
      let E := fresh "E" in
      apply bind_ok in H; destruct H as (a & s & E & H)
  | H : ret _ _ = Ok _ _ |- _ => apply ret_ok in H; destruct H as [? ?]; subst
  | H : raise _ _ = Ok _ _ |- _ => discriminate H
  | H : out_of_fuel _ = Ok _ _ |- _ => discriminate H
  | H : get_current_token _ = Ok _ _ |- _ =>
      cbv [get_current_token] in H; injection H as ? ?; subst
  | H : get_symbol_table _ = Ok _ _ |- _ =>
      cbv [get_symbol_table] in H; injection H as ? ?; subst
  | H : put_symbol_table _ _ = Ok _ _ |- _ =>
      cbv [put_symbol_table] in H; injection H as ? ?; subst
  | H : at_cursor _ _ _ = Ok _ _ |- _ => apply at_cursor_ok in H; destruct H as [? ?]; subst
  | H : index _ _ _ = Ok _ _ |- _ => apply index_ok in H; destruct H as [? ?]; subst
  | H : match_ _ _ _ = Ok _ _ |- _ =>
      let Hn := fresh "Hn" in
      let Hk := fresh "Hk" in
      apply match_ok in H; destruct H as (Hn & Hk & ?); subst
  | H : (if ?b then _ else _) _ = Ok _ _ |- _ => destruct b eqn:?
  end.

Lemma advance_ends (s : state) (token : Token) (d : dict) :
  nth_error tokens (current_token s) = Some token ->
  fst token <> KEYWORD ->
  last_not_keyword tokens {| current_token := current_token s + 1; symbol_table := d |}.
Proof.
  intros Hn Hk j t Hj Ht. simpl in Hj. assert (j = current_token s) by lia. congruence.
Qed.

Lemma same_cursor_ends (s s' : state) :
  current_token s' = current_token s ->
  last_not_keyword tokens s -> last_not_keyword tokens s'.
Proof. intros E H j t Hj Ht. rewrite E in Hj. eapply H; eauto. Qed.

Ltac ends_now :=
  first
    [ assumption
    | eapply advance_ends; [eassumption | congruence]
    | eapply same_cursor_ends; [reflexivity | ends_now] ].

Lemma operand_kind (k : Kind) :
  Kind_eqb k IDENTIFIER || Kind_eqb k NUMBER = true -> k <> KEYWORD /\ k <> ASSIGN.
Proof. destruct k; simpl; intros H; try discriminate H; split; discriminate. Qed.

(** The run [H] of a callee ends as the lemma [L] says. *)
Ltac ends_by L :=
  match goal with
  | H : _ = Ok _ ?s |- last_not_keyword _ ?s => apply L in H; exact H
  end.

Ltac operand_facts :=
  match goal with
  | H : Kind_eqb _ IDENTIFIER || Kind_eqb _ NUMBER = true |- _ =>
      apply operand_kind in H; destruct H
  end.

Lemma parse_expression_ends (fuel : nat) :
  returns (fun _ s' => last_not_keyword tokens s') (parse_expression tokens fuel).
Proof.
  induction fuel as [|fuel IH]; intros s e s' H; cbn [parse_expression] in H; [discriminate|].
  inv_run.
  - ends_by IH.
  - operand_facts. ends_now.
Qed.

Lemma parse_compound_statement_ends (fuel : nat) :
  returns (fun _ s' => last_not_keyword tokens s') (parse_compound_statement tokens fuel).
Proof.
  intros s u s' H. destruct fuel as [|fuel]; cbn [parse_compound_statement] in H; [discriminate|].
  inv_run. ends_now.
Qed.

Lemma parse_conditional_ends (fuel : nat) :
  returns (fun _ s' => last_not_keyword tokens s') (parse_conditional tokens fuel).
Proof.
  intros s u s' H. destruct fuel as [|fuel]; cbn [parse_conditional] in H; [discriminate|].
  inv_run; ends_by parse_compound_statement_ends.
Qed.

Lemma parse_fixed_loop_ends (fuel : nat) :
  returns (fun _ s' => last_not_keyword tokens s') (parse_fixed_loop tokens fuel).
Proof.
  intros s u s' H. destruct fuel as [|fuel]; cbn [parse_fixed_loop] in H; [discriminate|].
  inv_run. ends_by parse_compound_statement_ends.
Qed.

Lemma parse_while_loop_ends (fuel : nat) :
  returns (fun _ s' => last_not_keyword tokens s') (parse_while_loop tokens fuel).
Proof.
  intros s u s' H. destruct fuel as [|fuel]; cbn [parse_while_loop] in H; [discriminate|].
  inv_run. ends_by parse_expression_ends.
Qed.

Lemma parse_declaration_ends (fuel : nat) :
  returns (fun _ s' => last_not_keyword tokens s') (parse_declaration tokens fuel).
Proof.
  intros s u s' H. unfold parse_declaration in H. inv_run. ends_now.
Qed.

Lemma parse_assignment_ends (fuel : nat) :
  returns (fun _ s' => last_not_keyword tokens s') (parse_assignment tokens fuel).
Proof.
  intros s u s' H. unfold parse_assignment in H. inv_run.
  match goal with H : match ?x with _ => _ end _ = Ok _ _ |- _ => destruct x end;
    inv_run; ends_now.
Qed.

Lemma parse_input_ends :
  returns (fun _ s' => last_not_keyword tokens s') (parse_input tokens).
Proof. intros s u s' H. unfold parse_input in H. inv_run. ends_now. Qed.

Lemma parse_output_ends (fuel : nat) :
  returns (fun _ s' => last_not_keyword tokens s') (parse_output tokens fuel).
Proof. intros s u s' H. unfold parse_output in H. inv_run. ends_now. Qed.

(** A statement keeps the token before the cursor a non-keyword. *)
Lemma parse_statement_keeps_end (fuel : nat) (s s' : state) (u : unit) :
  parse_statement tokens fuel s = Ok u s' ->
  last_not_keyword tokens s -> last_not_keyword tokens s'.
Proof.
  intros H Hs. destruct fuel as [|fuel]; cbn [parse_statement] in H; [discriminate|].
  inv_run;
    first [ ends_by parse_assignment_ends
          | ends_by parse_conditional_ends
          | ends_by parse_fixed_loop_ends
          | ends_by parse_while_loop_ends
          | ends_by parse_input_ends
          | ends_by parse_output_ends
          | ends_by parse_compound_statement_ends
          | assumption ].
Qed.

(** ** The left sides a run meets *)

Lemma keyword_is (token : Token) (text : string) :
  Kind_eqb (fst token) KEYWORD = true -> Value_is (snd token) text = true ->
  token = (KEYWORD, VStr text).
Proof.
  destruct token as [k v]; simpl. unfold Kind_eqb.
  destruct (Kind_eq_dec k KEYWORD) as [->|]; [|discriminate]. intros _.
  destruct v; simpl; try discriminate. intros H. apply String.eqb_eq in H. congruence.
Qed.

Lemma identifier_token (token : Token) : fst token = IDENTIFIER -> token = (IDENTIFIER, snd token).
Proof. destruct token; simpl; congruence. Qed.

Lemma operand_match_adds (token : Token) (e : exn) :
  returns (adds_left_sides tokens)
    (if Kind_eqb (fst token) IDENTIFIER || Kind_eqb (fst token) NUMBER
     then match_ tokens (fst token) else raise e).
Proof.
  destruct (Kind_eqb (fst token) IDENTIFIER || Kind_eqb (fst token) NUMBER) eqn:K.
  - apply match_adds. apply operand_kind in K. tauto.
  - apply returns_raise.
Qed.

Lemma parse_expression_adds (fuel : nat) :
  returns (adds_left_sides tokens) (parse_expression tokens fuel).
Proof.
  induction fuel as [|fuel IH]; cbn [parse_expression]; [apply returns_out_of_fuel|].
  pose proof operand_match_adds.
  pose proof (@match_adds REL_OP ltac:(discriminate)).
  returns_step adds_left_sides_refl adds_left_sides_trans.
Qed.

Lemma parse_input_adds : returns (adds_left_sides tokens) (parse_input tokens).
Proof.
  unfold parse_input.
  pose proof (@match_adds KEYWORD ltac:(discriminate)).
  pose proof (@match_adds IDENTIFIER ltac:(discriminate)).
  pose proof (@match_adds DELIMITER ltac:(discriminate)).
  returns_step adds_left_sides_refl adds_left_sides_trans.
Qed.

Lemma parse_output_adds (fuel : nat) :
  returns (adds_left_sides tokens) (parse_output tokens fuel).
Proof.
  unfold parse_output.
  pose proof (@match_adds KEYWORD ltac:(discriminate)).
  pose proof (@match_adds DELIMITER ltac:(discriminate)).
  pose proof (parse_expression_adds fuel).
  returns_step adds_left_sides_refl adds_left_sides_trans.
Qed.

Ltac bind_inv H a s E :=
  apply bind_ok in H; destruct H as (a & s & E & H).

(** A declaration gives a key to the identifier after its [let]. *)
Lemma parse_declaration_adds (fuel : nat) :
  returns_from (fun s => nth_error tokens (current_token s) = Some (KEYWORD, VStr "let"))
    (adds_left_sides tokens) (parse_declaration tokens fuel).
Proof.
  intros s u s' Hlet H. unfold parse_declaration in H.
  bind_inv H kw s1 E1. bind_inv H identifier s2 E2. bind_inv H asg s3 E3.
  bind_inv H val s4 E4. bind_inv H semi s5 E5. bind_inv H d s6 E6.
  cbv [get_symbol_table] in E6. injection E6 as <- <-.
  eapply put_pending; [|exact H].
  eapply adds_then_pending; [exact (@match_adds KEYWORD ltac:(discriminate) _ _ _ E1)|].
  eapply adds_then_pending; [exact (@match_adds IDENTIFIER ltac:(discriminate) _ _ _ E2)|].
  eapply pending_then_adds; [|exact (@match_adds DELIMITER ltac:(discriminate) _ _ _ E5)].
  eapply pending_then_adds; [|eapply parse_expression_adds; exact E4].
  apply match_ok in E1. destruct E1 as (_ & _ & ->).
  apply match_ok in E2. destruct E2 as (Hi & Hk & ->). simpl in *.
  eapply (@match_assign_pending _ _ _ (current_token s + 1)); [exact E3 | simpl; lia | |].
  - rewrite Hi. f_equal. apply identifier_token, Hk.
  - intros (j & Hj & Hfor). assert (j = current_token s) by lia. subst j.
    rewrite Hlet in Hfor. discriminate Hfor.
Qed.

(** An assignment gives a key to its identifier. *)
Lemma parse_assignment_adds (fuel : nat) :
  returns_from (last_not_keyword tokens) (adds_left_sides tokens)
    (parse_assignment tokens fuel).
Proof.
  intros s u s' Hs H. unfold parse_assignment in H.
  bind_inv H identifier s1 E1. bind_inv H asg s2 E2.
  bind_inv H val s3 E3. bind_inv H semi s4 E4. bind_inv H d s5 E5.
  cbv [get_symbol_table] in E5. injection E5 as <- <-.
  assert (P : adds_pending tokens [snd identifier] s s4).
  { eapply adds_then_pending; [exact (@match_adds IDENTIFIER ltac:(discriminate) _ _ _ E1)|].
    eapply pending_then_adds; [|exact (@match_adds DELIMITER ltac:(discriminate) _ _ _ E4)].
    eapply pending_then_adds; [|eapply parse_expression_adds; exact E3].
    apply match_ok in E1. destruct E1 as (Hi & Hk & ->). simpl in *.
    eapply (@match_assign_pending _ _ _ (current_token s)); [exact E2 | simpl; lia | |].
    - rewrite Hi. f_equal. apply identifier_token, Hk.
    - intros (j & Hj & Hfor). exact (Hs j _ Hj Hfor eq_refl). }
  destruct (dict_get (snd identifier) (symbol_table s4)); eapply put_pending; eauto.
Qed.

Lemma statements_add (fuel : nat) :
  returns_from (last_not_keyword tokens) (adds_left_sides tokens)
    (parse_statement tokens fuel)
  /\ returns (adds_left_sides tokens) (parse_conditional tokens fuel)
  /\ returns_from (fun s => nth_error tokens (current_token s) = Some (KEYWORD, VStr "for"))
       (adds_left_sides tokens) (parse_fixed_loop tokens fuel)
  /\ returns (adds_left_sides tokens) (parse_while_loop tokens fuel)
  /\ returns (adds_left_sides tokens) (parse_compound_statement tokens fuel)
  /\ returns_from (last_not_keyword tokens) (adds_left_sides tokens)
       (compound_statement_loop tokens fuel).
Proof.
  induction fuel as [|fuel (IH1 & IH2 & IH3 & IH4 & IH5 & IH6)].
  - unfold returns, returns_from; repeat apply conj; intros;
      match goal with H : _ = Ok _ _ |- _ => discriminate H end.
  - pose proof (@match_adds KEYWORD ltac:(discriminate)) as MK.
    pose proof (@match_adds IDENTIFIER ltac:(discriminate)) as MI.
    pose proof (@match_adds DELIMITER ltac:(discriminate)) as MD.
    pose proof (parse_expression_adds fuel) as PE.
    repeat apply conj.
    + (* parse_statement *)
      intros s u s' Hs H. cbn [parse_statement] in H.
      bind_inv H i s0 E0. cbv [get_current_token] in E0. injection E0 as <- <-.
      destruct (List.length tokens <=? current_token s); [discriminate|].
      bind_inv H current s1 E1. apply index_ok in E1. destruct E1 as [-> Hcur].
      bind_inv H assignment s2 E2.
      assert (s2 = s) as ->.
      { destruct (Kind_eqb (fst current) IDENTIFIER); inv_run; reflexivity. }
      clear E2. destruct assignment.
      { eapply parse_assignment_adds; eauto. }
      destruct (Kind_eqb (fst current) KEYWORD) eqn:K.
      { destruct (Value_is (snd current) "if"); [eapply IH2; eauto|].
        destruct (Value_is (snd current) "for") eqn:F.
        { eapply IH3; [|exact H]. simpl. rewrite Hcur. f_equal. apply keyword_is; assumption. }
        destruct (Value_is (snd current) "do"); [eapply IH4; eauto|].
        destruct (Value_is (snd current) "input"); [eapply parse_input_adds; eauto|].
        destruct (Value_is (snd current) "output"); [eapply parse_output_adds; eauto|].
        apply ret_ok in H. destruct H as [_ ->]. apply adds_left_sides_refl. }
      destruct (Kind_eqb (fst current) DELIMITER && Value_is (snd current) "{");
        [eapply IH5; eauto | discriminate].
    + (* parse_conditional *)
      cbn [parse_conditional]. returns_step adds_left_sides_refl adds_left_sides_trans.
    + (* parse_fixed_loop *)
      intros s u s' Hfor H. cbn [parse_fixed_loop] in H.
      bind_inv H kw s1 E1. bind_inv H identifier s2 E2. bind_inv H asg s3 E3.
      bind_inv H from s4 E4. bind_inv H kw' s5 E5. bind_inv H to s6 E6.
      eapply adds_left_sides_trans; [exact (MK _ _ _ E1)|].
      eapply adds_left_sides_trans; [exact (MI _ _ _ E2)|].
      eapply adds_left_sides_trans; [|
        eapply adds_left_sides_trans; [exact (PE _ _ _ E4)|];
        eapply adds_left_sides_trans; [exact (MK _ _ _ E5)|];
        eapply adds_left_sides_trans; [exact (PE _ _ _ E6)|];
        exact (IH5 _ _ _ H)].
      apply match_ok in E1. destruct E1 as (_ & _ & ->).
      apply match_ok in E2. destruct E2 as (_ & _ & ->). simpl in *.
      eapply (@match_assign_after_for _ _ _ (current_token s + 1)); [exact E3 | simpl; lia |].
      exists (current_token s). split; [lia | exact Hfor].
    + (* parse_while_loop *)
      cbn [parse_while_loop]. returns_step adds_left_sides_refl adds_left_sides_trans.
    + (* parse_compound_statement *)
      intros s u s' H. cbn [parse_compound_statement] in H.
      bind_inv H open s1 E1. bind_inv H u2 s2 E2. bind_inv H close s3 E3.
      apply ret_ok in H. destruct H as [_ ->].
      eapply adds_left_sides_trans; [exact (MD _ _ _ E1)|].
      eapply adds_left_sides_trans; [|exact (MD _ _ _ E3)].
      eapply IH6; [|exact E2].
      apply match_ok in E1. destruct E1 as (Hn & Hk & ->).
      eapply advance_ends; [exact Hn | congruence].
    + (* compound_statement_loop *)
      intros s u s' Hs H. cbn [compound_statement_loop] in H.
      bind_inv H continue s0 E0. apply at_cursor_ok in E0. destruct E0 as [-> _].
      destruct continue.
      * bind_inv H u1 s1 E1.
        eapply adds_left_sides_trans; [eapply IH1; eauto|].
        eapply IH6; [|exact H].
        exact (parse_statement_keeps_end _ E1 Hs).
      * apply ret_ok in H. destruct H as [_ ->]. apply adds_left_sides_refl.
Qed.

Lemma program_loop_adds (fuel : nat) :
  returns_from (last_not_keyword tokens) (adds_left_sides tokens) (program_loop tokens fuel).
Proof.
  induction fuel as [|fuel IH]; intros s u s' Hs H; cbn [program_loop] in H; [discriminate|].
  bind_inv H continue s0 E0. apply at_cursor_ok in E0. destruct E0 as [-> _].
  destruct continue; [|apply ret_ok in H; destruct H as [_ ->]; apply adds_left_sides_refl].
  bind_inv H i s0 E0. cbv [get_current_token] in E0. injection E0 as <- <-.
  bind_inv H token s1 E1. apply index_ok in E1. destruct E1 as [-> Hcur].
  bind_inv H u1 s1 E1.
  destruct (Kind_eqb (fst token) KEYWORD && Value_is (snd token) "let") eqn:L.
  - apply andb_prop in L. destruct L as [L1 L2].
    eapply adds_left_sides_trans.
    + eapply parse_declaration_adds; [|exact E1]. simpl. rewrite Hcur. f_equal.
      apply keyword_is; assumption.
    + eapply IH; [|exact H]. apply parse_declaration_ends in E1. exact E1.
  - eapply adds_left_sides_trans.
    + eapply (proj1 (statements_add fuel)); eauto.
    + eapply IH; [|exact H]. exact (parse_statement_keeps_end _ E1 Hs).
Qed.

Lemma parse_program_adds (fuel : nat) :
  returns (adds_left_sides tokens) (parse_program tokens fuel).
Proof.
  intros s u s' H. unfold parse_program in H.
  bind_inv H open s1 E1. bind_inv H u2 s2 E2. bind_inv H close s3 E3.
  apply ret_ok in H. destruct H as [_ ->].
  eapply adds_left_sides_trans;
    [exact (@match_adds DELIMITER ltac:(discriminate) _ _ _ E1)|].
  eapply adds_left_sides_trans;
    [|exact (@match_adds DELIMITER ltac:(discriminate) _ _ _ E3)].
  eapply program_loop_adds; [|exact E2].
  apply match_ok in E1. destruct E1 as (Hn & Hk & ->).
  eapply advance_ends; [exact Hn | congruence].
Qed.

(** ** Expressions *)

Import Grammar.

Lemma skipn_nth_error {X : Type} (l : list X) :
  forall i x, nth_error l i = Some x -> skipn i l = x :: skipn (S i) l.
Proof.
  induction l as [|y l IH]; intros [|i] x H; simpl in H; try discriminate.
  - injection H as ->. reflexivity.
  - apply IH in H. exact H.
Qed.

(** An expression is read from the operands and operators that follow the
    cursor, as far as they alternate; the symbol table is left alone. *)
Lemma parse_expression_spelled (fuel : nat) :
  forall s e s',
    parse_expression tokens fuel s = Ok e s' ->
    exists consumed,
      skipn (current_token s) tokens = consumed ++ skipn (current_token s') tokens
      /\ spelled e consumed
      /\ current_token s' = current_token s + List.length consumed
      /\ symbol_table s' = symbol_table s
      /\ ~ kind_at tokens (current_token s') REL_OP.
Proof.
  induction fuel as [|fuel IH]; intros s e s' H; cbn [parse_expression] in H; [discriminate|].
  bind_inv H i s0 E0. cbv [get_current_token] in E0. injection E0 as <- <-.
  bind_inv H token s1 E1. apply index_ok in E1. destruct E1 as [-> Hcur].
  bind_inv H lhs s2 E2.
  destruct (Kind_eqb (fst token) IDENTIFIER || Kind_eqb (fst token) NUMBER) eqn:K;
    [|discriminate E2].
  apply match_ok in E2. destruct E2 as (Hl & _ & ->).
  assert (lhs = token) by congruence. subst lhs.
  bind_inv H rel s3 E3. apply at_cursor_ok in E3. destruct E3 as [-> Hrel]. simpl in Hrel.
  rewrite (skipn_nth_error _ _ Hcur).
  destruct rel.
  - bind_inv H operator s4 E4. apply match_ok in E4. destruct E4 as (Ho & Ko & ->).
    bind_inv H rhs s5 E5. apply ret_ok in H. destruct H as [-> ->].
    apply IH in E5. destruct E5 as (consumed & S5 & P5 & C5 & T5 & N5).
    cbn [current_token symbol_table] in *. rewrite !Nat.add_1_r in *.
    exists (token :: operator :: consumed). split; [|split; [|split; [|split]]].
    + rewrite (skipn_nth_error _ _ Ho), S5. reflexivity.
    + cbn [spelled]. auto.
    + simpl. lia.
    + exact T5.
    + exact N5.
  - apply ret_ok in H. destruct H as [-> ->].
    cbn [current_token symbol_table] in *. rewrite !Nat.add_1_r in *.
    exists [token]. split; [|split; [|split; [|split]]].
    + reflexivity.
    + cbn [spelled]. auto.
    + simpl. lia.
    + reflexivity.
    + intros (t & Ht & Kt). rewrite Ht, Kt in Hrel. discriminate Hrel.
Qed.

(** ** Progress *)

Lemma steps_returns {A : Type} (R : state -> state -> Prop) (m : M A) :
  steps R m -> returns R m.
Proof. intros H s a s' E. specialize (H s). rewrite E in H. exact H. Qed.

Lemma moves_forward {A : Type} (m : M A) :
  steps (cursor_moves tokens) m ->
  returns (fun s s' => current_token s <= current_token s') m.
Proof. intros H s a s' E. apply steps_returns in H. apply (H _ _ _ E). Qed.

Lemma match_advances (expected_type : Kind) :
  returns (fun s s' => current_token s < current_token s') (match_ tokens expected_type).
Proof. intros s token s' H. apply match_ok in H. destruct H as (_ & _ & ->). simpl. lia. Qed.

Lemma advances_bind {A B : Type} (m : M A) (f : A -> M B) :
  returns (fun s s' => current_token s < current_token s') m ->
  (forall a, steps (cursor_moves tokens) (f a)) ->
  returns (fun s s' => current_token s < current_token s') (bind m f).
Proof.
  intros Hm Hf s b s' H. bind_inv H a s1 E.
  apply Hm in E. apply (moves_forward (Hf a)) in H. lia.
Qed.

Ltac advances_now :=
  apply advances_bind; [apply match_advances | intros ?; cursor_step].

Lemma parse_declaration_advances (fuel : nat) :
  returns (fun s s' => current_token s < current_token s') (parse_declaration tokens fuel).
Proof. pose proof (parse_expression_cursor fuel). unfold parse_declaration. advances_now. Qed.

Lemma parse_assignment_advances (fuel : nat) :
  returns (fun s s' => current_token s < current_token s') (parse_assignment tokens fuel).
Proof. pose proof (parse_expression_cursor fuel). unfold parse_assignment. advances_now. Qed.

Lemma parse_input_advances :
  returns (fun s s' => current_token s < current_token s') (parse_input tokens).
Proof. unfold parse_input. advances_now. Qed.

Lemma parse_output_advances (fuel : nat) :
  returns (fun s s' => current_token s < current_token s') (parse_output tokens fuel).
Proof. pose proof (parse_expression_cursor fuel). unfold parse_output. advances_now. Qed.

Lemma blocks_advance (fuel : nat) :
  returns (fun s s' => current_token s < current_token s') (parse_conditional tokens fuel)
  /\ returns (fun s s' => current_token s < current_token s') (parse_fixed_loop tokens fuel)
  /\ returns (fun s s' => current_token s < current_token s') (parse_while_loop tokens fuel)
  /\ returns (fun s s' => current_token s < current_token s')
       (parse_compound_statement tokens fuel).
Proof.
  destruct fuel as [|fuel].
  - repeat apply conj; intros s u s' H; discriminate H.
  - destruct (statements_cursor fuel) as (C1 & C2 & C3 & C4 & C5 & C6).
    pose proof (parse_expression_cursor fuel).
    repeat apply conj;
      cbn [parse_conditional parse_fixed_loop parse_while_loop parse_compound_statement];
      advances_now.
Qed.

(** A statement that returns has moved the cursor, unless it met a keyword
    that [parse_statement] has no branch for: then nothing has changed. *)
Lemma parse_statement_progress (fuel : nat) (s s' : state) (u : unit) :
  parse_statement tokens fuel s = Ok u s' ->
  current_token s < current_token s'
  \/ (s' = s /\ exists current,
        nth_error tokens (current_token s) = Some current
        /\ fst current = KEYWORD /\ dispatched (snd current) = false).
Proof.
  intros H. destruct fuel as [|fuel]; cbn [parse_statement] in H; [discriminate|].
  bind_inv H i s0 E0. cbv [get_current_token] in E0. injection E0 as <- <-.
  destruct (List.length tokens <=? current_token s); [discriminate|].
  bind_inv H current s1 E1. apply index_ok in E1. destruct E1 as [-> Hcur].
  bind_inv H assignment s2 E2.
  assert (s2 = s) as ->.
  { destruct (Kind_eqb (fst current) IDENTIFIER); inv_run; reflexivity. }
  clear E2. destruct (blocks_advance fuel) as (B1 & B2 & B3 & B4).
  destruct assignment; [left; eapply parse_assignment_advances; eauto|].
  destruct (Kind_eqb (fst current) KEYWORD) eqn:K.
  - destruct (Value_is (snd current) "if") eqn:V1; [left; eapply B1; eauto|].
    destruct (Value_is (snd current) "for") eqn:V2; [left; eapply B2; eauto|].
    destruct (Value_is (snd current) "do") eqn:V3; [left; eapply B3; eauto|].
    destruct (Value_is (snd current) "input") eqn:V4; [left; eapply parse_input_advances; eauto|].
    destruct (Value_is (snd current) "output") eqn:V5;
      [left; eapply parse_output_advances; eauto|].
    apply ret_ok in H. destruct H as [_ ->]. right. split; [reflexivity|].
    exists current. split; [exact Hcur|]. split.
    + unfold Kind_eqb in K. destruct (Kind_eq_dec (fst current) KEYWORD); [assumption | discriminate].
    + unfold dispatched. rewrite V1, V2, V3, V4, V5. reflexivity.
  - destruct (Kind_eqb (fst current) DELIMITER && Value_is (snd current) "{");
      [left; eapply B4; eauto | discriminate].
Qed.

(** At such a keyword a statement returns at once, with any fuel but none. *)
Lemma parse_statement_stray (fuel : nat) (s : state) (current : Token) :
  nth_error tokens (current_token s) = Some current ->
  fst current = KEYWORD -> dispatched (snd current) = false ->
  parse_statement tokens (S fuel) s = Ok tt s.
Proof.
  intros Hcur K D. cbn [parse_statement].
  cbv [bind get_current_token index ret raise].
  assert (L : (List.length tokens <=? current_token s) = false).
  { apply Nat.leb_gt. apply nth_error_Some. congruence. }
  rewrite L, Hcur. rewrite K. cbn [Kind_eqb]. 
  unfold dispatched in D.
  destruct (Value_is (snd current) "if"); [discriminate D|].
  destruct (Value_is (snd current) "for"); [discriminate D|].
  destruct (Value_is (snd current) "do"); [discriminate D|].
  destruct (Value_is (snd current) "input"); [discriminate D|].
  destruct (Value_is (snd current) "output"); [discriminate D|].
  reflexivity.
Qed.

(** ** The kinds of the tokens a run consumes *)

Lemma consumes_refl (s : state) : consumes tokens s s.
Proof. split; [lia|]. intros i H1 H2. lia. Qed.

Lemma consumes_trans (s1 s2 s3 : state) :
  consumes tokens s1 s2 -> consumes tokens s2 s3 -> consumes tokens s1 s3.
Proof.
  intros [C1 K1] [C2 K2]. split; [lia|]. intros i H1 H2.
  destruct (Nat.lt_ge_cases i (current_token s2)); [apply K1 | apply K2]; lia.
Qed.

Lemma match_consumes (expected_type : Kind) :
  consumable expected_type = true ->
  returns (consumes tokens) (match_ tokens expected_type).
Proof.
  intros Hk s token s' H. apply match_ok in H. destruct H as (Hn & Hf & ->).
  split; simpl; [lia|]. intros i H1 H2. assert (i = current_token s) by lia. subst i.
  exists token. rewrite Hf. auto.
Qed.

Lemma operand_match_consumes (token : Token) (e : exn) :
  returns (consumes tokens)
    (if Kind_eqb (fst token) IDENTIFIER || Kind_eqb (fst token) NUMBER
     then match_ tokens (fst token) else raise e).
Proof.
  destruct (Kind_eqb (fst token) IDENTIFIER || Kind_eqb (fst token) NUMBER) eqn:K.
  - apply match_consumes. destruct (fst token); try discriminate K; reflexivity.
  - apply returns_raise.
Qed.

Lemma put_symbol_table_consumes (d : dict) : returns (consumes tokens) (put_symbol_table d).
Proof. intros s u s' [= _ <-]. split; simpl; [lia|]. intros i H1 H2. lia. Qed.

Ltac consumes_step :=
  pose proof operand_match_consumes;
  pose proof put_symbol_table_consumes;
  pose proof (@match_consumes KEYWORD eq_refl);
  pose proof (@match_consumes IDENTIFIER eq_refl);
  pose proof (@match_consumes ASSIGN eq_refl);
  pose proof (@match_consumes DELIMITER eq_refl);
  pose proof (@match_consumes REL_OP eq_refl);
  returns_step consumes_refl consumes_trans.

Lemma parse_expression_consumes (fuel : nat) :
  returns (consumes tokens) (parse_expression tokens fuel).
Proof.
  induction fuel as [|fuel IH]; cbn [parse_expression]; [apply returns_out_of_fuel|].
  consumes_step.
Qed.

Lemma statements_consume (fuel : nat) :
  returns (consumes tokens) (parse_statement tokens fuel)
  /\ returns (consumes tokens) (parse_conditional tokens fuel)
  /\ returns (consumes tokens) (parse_fixed_loop tokens fuel)
  /\ returns (consumes tokens) (parse_while_loop tokens fuel)
  /\ returns (consumes tokens) (parse_compound_statement tokens fuel)
  /\ returns (consumes tokens) (compound_statement_loop tokens fuel).
Proof.
  induction fuel as [|fuel (IH1 & IH2 & IH3 & IH4 & IH5 & IH6)].
  - repeat apply conj; intros s u s' H; discriminate H.
  - pose proof (parse_expression_consumes fuel).
    repeat apply conj;
      cbn [parse_statement parse_conditional parse_fixed_loop parse_while_loop
             parse_compound_statement compound_statement_loop];
      unfold parse_assignment, parse_input, parse_output; consumes_step.
Qed.

Lemma parse_program_consumes (fuel : nat) :
  returns (consumes tokens) (parse_program tokens fuel).
Proof.
  assert (L : forall fuel, returns (consumes tokens) (program_loop tokens fuel)).
  { clear fuel. induction fuel as [|fuel IH]; cbn [program_loop]; [apply returns_out_of_fuel|].
    pose proof (parse_expression_consumes fuel).
    pose proof (proj1 (statements_consume fuel)).
    unfold parse_declaration. consumes_step. }
  pose proof (L fuel). unfold parse_program. consumes_step.
Qed.

(** ** The entries of the symbol table *)

Lemma dict_get_In (k : Value) (d : dict) (e : Entry) : dict_get k d = Some e -> In (k, e) d.
Proof.
  induction d as [|[k' e'] d IH]; simpl; [discriminate|].
  destruct (Value_eq_dec k' k) as [->|]; [intros [= ->]; auto | auto].
Qed.

Lemma In_dict_get (k : Value) (d : dict) (e : Entry) :
  NoDup (keys d) -> In (k, e) d -> dict_get k d = Some e.
Proof.
  induction d as [|[k' e'] d IH]; simpl; [contradiction|]. intros N I.
  inversion N as [|? ? N1 N2]; subst.
  destruct (Value_eq_dec k' k) as [->|Hne].
  - destruct I as [[= ->]|I]; [reflexivity|].
    exfalso. apply N1. apply in_map_iff. exists (k, e). auto.
  - destruct I as [[= -> _]|I]; [contradiction | auto].
Qed.

Lemma dict_get_set_same (k : Value) (e : Entry) (d : dict) : dict_get k (dict_set k e d) = Some e.
Proof.
  induction d as [|[k' e'] d IH]; simpl.
  - destruct (Value_eq_dec k k); [reflexivity | contradiction].
  - destruct (Value_eq_dec k' k) as [->|Hne]; simpl.
    + destruct (Value_eq_dec k k); [reflexivity | contradiction].
    + destruct (Value_eq_dec k' k); [contradiction | exact IH].
Qed.

Lemma dict_get_set_other (k k' : Value) (e : Entry) (d : dict) :
  k' <> k -> dict_get k' (dict_set k e d) = dict_get k' d.
Proof.
  intros Hne. induction d as [|[k1 e1] d IH]; simpl.
  - destruct (Value_eq_dec k k'); [congruence | reflexivity].
  - destruct (Value_eq_dec k1 k) as [->|H1]; simpl.
    + destruct (Value_eq_dec k k'); [congruence | reflexivity].
    + destruct (Value_eq_dec k1 k'); [reflexivity | exact IH].
Qed.

Lemma In_dict_set (k : Value) (e : Entry) (d : dict) (name : Value) (info : Entry) :
  In (name, info) (dict_set k e d) -> (name = k /\ info = e) \/ In (name, info) d.
Proof.
  induction d as [|[k' e'] d IH]; simpl.
  - intros [[= <- <-]|[]]. auto.
  - destruct (Value_eq_dec k' k) as [->|Hne]; simpl.
    + intros [[= <- <-]|I]; auto.
    + intros [E|I]; [auto|]. destruct (IH I); auto.
Qed.

Lemma NoDup_dict_set (k : Value) (e : Entry) (d : dict) :
  NoDup (keys d) -> NoDup (keys (dict_set k e d)).
Proof.
  induction d as [|[k' e'] d IH]; simpl; intros N.
  - constructor; [simpl; tauto | constructor].
  - inversion N as [|? ? N1 N2]; subst.
    destruct (Value_eq_dec k' k) as [->|Hne]; simpl.
    + constructor; assumption.
    + constructor; [|apply IH, N2].
      change (~ In k' (keys (dict_set k e d))). rewrite keys_dict_set.
      intros [->|I]; [congruence | contradiction].
Qed.

Lemma table_ok_set (k : Value) (e : Entry) (d : dict) :
  entry_ok e -> table_ok d -> table_ok (dict_set k e d).
Proof.
  intros He [N A]. split; [apply NoDup_dict_set, N|].
  intros name info I. apply In_dict_set in I. destruct I as [[_ ->]|I]; [exact He | eauto].
Qed.

Lemma keeps_table_refl (s : state) : keeps_table s s.
Proof. intros H; exact H. Qed.

Lemma keeps_table_trans (s1 s2 s3 : state) :
  keeps_table s1 s2 -> keeps_table s2 s3 -> keeps_table s1 s3.
Proof. unfold keeps_table; auto. Qed.

Lemma match_keeps_table (expected_type : Kind) :
  returns keeps_table (match_ tokens expected_type).
Proof. intros s token s' H. apply match_ok in H. destruct H as (_ & _ & ->). intros T; exact T. Qed.

Lemma parse_expression_keeps_table (fuel : nat) :
  returns keeps_table (parse_expression tokens fuel).
Proof.
  intros s e s' H. apply parse_expression_spelled in H.
  destruct H as (_ & _ & _ & _ & T & _). unfold keeps_table. rewrite T. auto.
Qed.

(** What a declaration reads and what it stores *)
Lemma parse_declaration_effect (fuel : nat) (s s' : state) (u : unit) :
  parse_declaration tokens fuel s = Ok u s' ->
  exists kw name asg e consumed semi,
    skipn (current_token s) tokens
    = kw :: (IDENTIFIER, name) :: asg :: consumed ++ semi :: skipn (current_token s') tokens
    /\ fst kw = KEYWORD /\ fst asg = ASSIGN /\ spelled e consumed /\ fst semi = DELIMITER
    /\ current_token s' = current_token s + 4 + List.length consumed
    /\ symbol_table s'
       = dict_set name {| type := "variable"; value := Some e; declared := Some true |}
           (symbol_table s).
Proof.
  intros H. unfold parse_declaration in H.
  bind_inv H kw s1 E1. bind_inv H identifier s2 E2. bind_inv H asg s3 E3.
  bind_inv H val s4 E4. bind_inv H semi s5 E5. bind_inv H d s6 E6.
  cbv [get_symbol_table] in E6. injection E6 as <- <-.
  cbv [put_symbol_table] in H. injection H as _ <-.
  apply match_ok in E1. destruct E1 as (N1 & K1 & ->).
  apply match_ok in E2. destruct E2 as (N2 & K2 & ->).
  apply match_ok in E3. destruct E3 as (N3 & K3 & ->).
  apply parse_expression_spelled in E4. destruct E4 as (consumed & S4 & P4 & C4 & T4 & _).
  apply match_ok in E5. destruct E5 as (N5 & K5 & ->).
  cbn [current_token symbol_table] in *. rewrite !Nat.add_1_r in *.
  exists kw, (snd identifier), asg, val, consumed, semi.
  split; [|split; [|split; [|split; [|split; [|split]]]]]; auto.
  - rewrite (skipn_nth_error _ _ N1), (skipn_nth_error _ _ N2), (skipn_nth_error _ _ N3).
    rewrite S4, (skipn_nth_error _ _ N5). rewrite <- (identifier_token _ K2). reflexivity.
  - lia.
  - rewrite T4. reflexivity.
Qed.

(** What an assignment reads and what it stores: a known name keeps the
    other fields of its entry, a new one gets an entry without the mark of a
    declaration. *)
Lemma parse_assignment_effect (fuel : nat) (s s' : state) (u : unit) :
  parse_assignment tokens fuel s = Ok u s' ->
  exists name asg e consumed semi,
    skipn (current_token s) tokens
    = (IDENTIFIER, name) :: asg :: consumed ++ semi :: skipn (current_token s') tokens
    /\ fst asg = ASSIGN /\ spelled e consumed /\ fst semi = DELIMITER
    /\ current_token s' = current_token s + 3 + List.length consumed
    /\ symbol_table s'
       = dict_set name
           match dict_get name (symbol_table s) with
           | Some entry => {| type := type entry; value := Some e; declared := declared entry |}
           | None => {| type := "variable"; value := Some e; declared := None |}
           end
           (symbol_table s).
Proof.
  intros H. unfold parse_assignment in H.
  bind_inv H identifier s1 E1. bind_inv H asg s2 E2.
  bind_inv H val s3 E3. bind_inv H semi s4 E4. bind_inv H d s5 E5.
  cbv [get_symbol_table] in E5. injection E5 as <- <-.
  assert (Hs' : s' = {| current_token := current_token s4;
                        symbol_table :=
                          dict_set (snd identifier)
                            match dict_get (snd identifier) (symbol_table s4) with
                            | Some entry =>
                                {| type := type entry; value := Some val;
                                   declared := declared entry |}
                            | None =>
                                {| type := "variable"; value := Some val; declared := None |}
                            end
                            (symbol_table s4) |}).
  { destruct (dict_get (snd identifier) (symbol_table s4));
      cbv [put_symbol_table] in H; injection H as _ <-; reflexivity. }
  clear H. subst s'.
  apply match_ok in E1. destruct E1 as (N1 & K1 & ->).
  apply match_ok in E2. destruct E2 as (N2 & K2 & ->).
  apply parse_expression_spelled in E3. destruct E3 as (consumed & S3 & P3 & C3 & T3 & _).
  apply match_ok in E4. destruct E4 as (N4 & K4 & ->).
  cbn [current_token symbol_table] in *. rewrite !Nat.add_1_r in *.
  exists (snd identifier), asg, val, consumed, semi.
  split; [|split; [|split; [|split; [|split]]]]; auto.
  - rewrite (skipn_nth_error _ _ N1), (skipn_nth_error _ _ N2).
    rewrite S3, (skipn_nth_error _ _ N4). rewrite <- (identifier_token _ K1). reflexivity.
  - lia.
  - rewrite T3. reflexivity.
Qed.

Lemma parse_declaration_keeps_table (fuel : nat) :
  returns keeps_table (parse_declaration tokens fuel).
Proof.
  intros s u s' H. apply parse_declaration_effect in H.
  destruct H as (kw & name & asg & e & consumed & semi & _ & _ & _ & _ & _ & _ & T).
  unfold keeps_table. rewrite T. apply table_ok_set.
  split; [reflexivity | split; [discriminate | right; reflexivity]].
Qed.

Lemma parse_assignment_keeps_table (fuel : nat) :
  returns keeps_table (parse_assignment tokens fuel).
Proof.
  intros s u s' H. apply parse_assignment_effect in H.
  destruct H as (name & asg & e & consumed & semi & _ & _ & _ & _ & _ & T).
  unfold keeps_table. rewrite T. intros Hs. apply table_ok_set; [|exact Hs].
  destruct (dict_get name (symbol_table s)) as [entry|] eqn:G.
  - apply dict_get_In in G. destruct (proj2 Hs _ _ G) as (A & _ & C).
    split; [exact A | split; [discriminate | exact C]].
  - split; [reflexivity | split; [discriminate | left; reflexivity]].
Qed.

Ltac keeps_step :=
  pose proof match_keeps_table;
  returns_step keeps_table_refl keeps_table_trans.

Lemma statements_keep_table (fuel : nat) :
  returns keeps_table (parse_statement tokens fuel)
  /\ returns keeps_table (parse_conditional tokens fuel)
  /\ returns keeps_table (parse_fixed_loop tokens fuel)
  /\ returns keeps_table (parse_while_loop tokens fuel)
  /\ returns keeps_table (parse_compound_statement tokens fuel)
  /\ returns keeps_table (compound_statement_loop tokens fuel).
Proof.
  induction fuel as [|fuel (IH1 & IH2 & IH3 & IH4 & IH5 & IH6)].
  - repeat apply conj; intros s u s' H; discriminate H.
  - pose proof (parse_expression_keeps_table fuel).
    pose proof (parse_assignment_keeps_table fuel).
    repeat apply conj;
      cbn [parse_statement parse_conditional parse_fixed_loop parse_while_loop
             parse_compound_statement compound_statement_loop];
      unfold parse_input, parse_output; keeps_step.
Qed.

Lemma parse_program_keeps_table (fuel : nat) :
  returns keeps_table (parse_program tokens fuel).
Proof.
  assert (L : forall fuel, returns keeps_table (program_loop tokens fuel)).
  { clear fuel. induction fuel as [|fuel IH]; cbn [program_loop]; [apply returns_out_of_fuel|].
    pose proof (parse_declaration_keeps_table fuel).
    pose proof (proj1 (statements_keep_table fuel)).
    keeps_step. }
  pose proof (L fuel). unfold parse_program. keeps_step.
Qed.

(** ** Tokens behind the program *)

Section Appended.

Variable rest : list Token.

Lemma alike_refl {A : Type} (m : M A) : returns_alike (List.length tokens) m m.
Proof. intros s a s' H _. exact H. Qed.

Lemma alike_bind {A B : Type} (m m' : M A) (f f' : A -> M B) :
  returns_alike (List.length tokens) m m' ->
  (forall a, returns_alike (List.length tokens) (f a) (f' a)) ->
  (forall a, steps (cursor_moves tokens) (f a)) ->
  returns_alike (List.length tokens) (bind m f) (bind m' f').
Proof.
  intros Hm Hf Hc s b s' H Hb. bind_inv H a s1 E.
  pose proof (moves_forward (Hc a) _ H) as Hle. simpl in Hle.
  unfold bind. rewrite (Hm _ _ _ E) by lia. apply Hf; assumption.
Qed.

Lemma alike_index (i : nat) :
  returns_alike (List.length tokens) (index tokens i) (index (tokens ++ rest) i).
Proof.
  intros s t s' H _. apply index_ok in H. destruct H as [-> Hn].
  unfold index. rewrite nth_error_app1 by (apply nth_error_Some; congruence).
  rewrite Hn. reflexivity.
Qed.

Lemma alike_at_cursor (p : Token -> bool) :
  returns_alike (List.length tokens) (at_cursor tokens p) (at_cursor (tokens ++ rest) p).
Proof.
  intros s b s' H Hb. pose proof H as H'. apply at_cursor_ok in H'. destruct H' as [-> _].
  revert H. cbv [at_cursor bind get_current_token ret].
  rewrite nth_error_app1 by exact Hb. auto.
Qed.

Lemma match_appended (expected_type : Kind) (s s' : state) (t : Token) :
  match_ tokens expected_type s = Ok t s' ->
  match_ (tokens ++ rest) expected_type s = Ok t s'.
Proof.
  intros H. pose proof H as H'. apply match_ok in H'. destruct H' as (Hn & _ & _).
  revert H. cbv [match_ bind get_current_token at_cursor index ret advance raise].
  rewrite nth_error_app1 by (apply nth_error_Some; congruence). auto.
Qed.

Lemma alike_match (expected_type : Kind) :
  returns_alike (List.length tokens)
    (match_ tokens expected_type) (match_ (tokens ++ rest) expected_type).
Proof. intros s t s' H _. apply match_appended, H. Qed.

Lemma alike_length_check {A : Type} (i : nat) (e : exn) (m m' : M A) :
  returns_alike (List.length tokens) m m' ->
  returns_alike (List.length tokens)
    (if List.length tokens <=? i then raise e else m)
    (if List.length (tokens ++ rest) <=? i then raise e else m').
Proof.
  intros Hm s a s' H Hb.
  destruct (List.length tokens <=? i) eqn:L; [discriminate H|].
  apply Nat.leb_gt in L.
  destruct (List.length (tokens ++ rest) <=? i) eqn:L'.
  - apply Nat.leb_le in L'. rewrite length_app in L'. lia.
  - apply Hm; assumption.
Qed.

Ltac alike_step :=
  repeat first
    [ assumption
    | apply alike_index
    | apply alike_at_cursor
    | apply alike_match
    | apply alike_length_check
    | apply alike_refl
    | apply alike_bind; [ | intros ? | intros ?; cursor_step ]
    | match goal with
      | |- returns_alike _ (if ?b then _ else _) _ => destruct b
      | |- returns_alike _ (match ?x with _ => _ end) _ => destruct x
      end ].

Lemma parse_expression_alike (fuel : nat) :
  returns_alike (List.length tokens)
    (parse_expression tokens fuel) (parse_expression (tokens ++ rest) fuel).
Proof.
  induction fuel as [|fuel IH]; cbn [parse_expression]; [intros s a s' H; discriminate H|].
  pose proof (parse_expression_cursor fuel). alike_step.
Qed.

Lemma statements_alike (fuel : nat) :
  returns_alike (List.length tokens)
    (parse_statement tokens fuel) (parse_statement (tokens ++ rest) fuel)
  /\ returns_alike (List.length tokens)
       (parse_conditional tokens fuel) (parse_conditional (tokens ++ rest) fuel)
  /\ returns_alike (List.length tokens)
       (parse_fixed_loop tokens fuel) (parse_fixed_loop (tokens ++ rest) fuel)
  /\ returns_alike (List.length tokens)
       (parse_while_loop tokens fuel) (parse_while_loop (tokens ++ rest) fuel)
  /\ returns_alike (List.length tokens)
       (parse_compound_statement tokens fuel) (parse_compound_statement (tokens ++ rest) fuel)
  /\ returns_alike (List.length tokens)
       (compound_statement_loop tokens fuel) (compound_statement_loop (tokens ++ rest) fuel).
Proof.
  induction fuel as [|fuel (IH1 & IH2 & IH3 & IH4 & IH5 & IH6)].
  - repeat apply conj; intros s u s' H; discriminate H.
  - pose proof (parse_expression_alike fuel).
    pose proof (parse_expression_cursor fuel).
    pose proof (parse_assignment_cursor fuel).
    pose proof (parse_output_cursor fuel).
    pose proof parse_input_cursor.
    destruct (statements_cursor fuel) as (C1 & C2 & C3 & C4 & C5 & C6).
    repeat apply conj;
      cbn [parse_statement parse_conditional parse_fixed_loop parse_while_loop
             parse_compound_statement compound_statement_loop];
      unfold parse_assignment, parse_input, parse_output; alike_step.
Qed.

Lemma program_loop_alike (fuel : nat) :
  returns_alike (List.length tokens)
    (program_loop tokens fuel) (program_loop (tokens ++ rest) fuel).
Proof.
  induction fuel as [|fuel IH]; cbn [program_loop]; [intros s a s' H; discriminate H|].
  pose proof (parse_expression_alike fuel).
  pose proof (parse_expression_cursor fuel).
  pose proof (parse_declaration_cursor fuel).
  pose proof (program_loop_cursor fuel).
  pose proof (proj1 (statements_alike fuel)).
  pose proof (proj1 (statements_cursor fuel)).
  unfold parse_declaration. alike_step.
Qed.

(** A program that is accepted is accepted with the same table whatever
    follows its last token. *)
Lemma parse_program_appended (fuel : nat) (s s' : state) (u : unit) :
  parse_program tokens fuel s = Ok u s' ->
  parse_program (tokens ++ rest) fuel s = Ok u s'.
Proof.
  intros H. unfold parse_program in *.
  bind_inv H open s1 E1. bind_inv H u2 s2 E2. bind_inv H close s3 E3.
  apply ret_ok in H. destruct H as [-> ->].
  assert (B2 : current_token s2 < List.length tokens).
  { apply match_ok in E3. destruct E3 as (Hn & _). apply nth_error_Some. congruence. }
  assert (B1 : current_token s1 <= current_token s2).
  { apply (moves_forward (program_loop_cursor fuel) _ E2). }
  unfold bind.
  rewrite (@match_appended DELIMITER _ _ _ E1).
  rewrite (@program_loop_alike fuel _ _ _ E2) by lia.
  rewrite (@match_appended DELIMITER _ _ _ E3). reflexivity.
Qed.

End Appended.

(** ** The fuel a run needs *)

Lemma finished_bind {A B : Type} (m : M A) (f : A -> M B) (s : state) :
  finished (m s) ->
  (forall a s1, m s = Ok a s1 -> finished (f a s1)) ->
  finished (bind m f s).
Proof.
  intros Hm Hf. unfold bind. destruct (m s) as [a s1|e s1|s1]; simpl in *; auto.
Qed.

Lemma match_finished (expected_type : Kind) (s : state) :
  finished (match_ tokens expected_type s).
Proof.
  cbv [match_ bind get_current_token at_cursor index ret advance raise].
  destruct (nth_error tokens (current_token s)) as [t|]; [|exact I].
  destruct (Kind_eqb (fst t) expected_type); exact I.
Qed.

Lemma at_cursor_finished (p : Token -> bool) (s : state) : finished (at_cursor tokens p s).
Proof.
  cbv [at_cursor bind get_current_token ret].
  destruct (nth_error tokens (current_token s)); exact I.
Qed.

Lemma index_finished (i : nat) (s : state) : finished (index tokens i s).
Proof. unfold index. destruct (nth_error tokens i); exact I. Qed.

(** An expression is never cut when the fuel is more than half the number
    of tokens behind the cursor. *)
Lemma parse_expression_finished (fuel : nat) :
  forall s, List.length tokens - current_token s < 2 * fuel ->
            finished (parse_expression tokens fuel s).
Proof.
  induction fuel as [|fuel IH]; intros s H; [lia|]. cbn [parse_expression].
  apply finished_bind; [exact I|]. intros i s0 E0.
  cbv [get_current_token] in E0. injection E0 as <- <-.
  apply finished_bind; [apply index_finished|]. intros token s1 E1.
  apply index_ok in E1. destruct E1 as [-> Hcur].
  apply finished_bind.
  { destruct (Kind_eqb (fst token) IDENTIFIER || Kind_eqb (fst token) NUMBER);
      [apply match_finished | exact I]. }
  intros lhs s2 E2.
  destruct (Kind_eqb (fst token) IDENTIFIER || Kind_eqb (fst token) NUMBER); [|discriminate E2].
  apply match_ok in E2. destruct E2 as (_ & _ & ->).
  apply finished_bind; [apply at_cursor_finished|]. intros rel s3 E3.
  apply at_cursor_ok in E3. destruct E3 as [-> _].
  destruct rel; [|exact I].
  apply finished_bind; [apply match_finished|]. intros operator s4 E4.
  apply match_ok in E4. destruct E4 as (Ho & _ & ->). simpl in Ho.
  assert (current_token s + 1 < List.length tokens) by (apply nth_error_Some; congruence).
  apply finished_bind; [apply IH; simpl; lia|]. intros rhs s5 E5. exact I.
Qed.

Lemma agrees_refl {A : Type} (P : state -> Prop) (m : M A) : agrees P m m.
Proof. intros s _ _. reflexivity. Qed.

Lemma agrees_weaken {A : Type} (P P' : state -> Prop) (m' m : M A) :
  (forall s, P' s -> P s) -> agrees P m' m -> agrees P' m' m.
Proof. intros W H s Hs F. apply H; auto. Qed.

Lemma agrees_bind {A B : Type} (P : state -> Prop) (Q : A -> state -> Prop)
    (m' m : M A) (k' k : A -> M B) :
  agrees P m' m ->
  (forall a, agrees (Q a) (k' a) (k a)) ->
  (forall s a s1, P s -> m s = Ok a s1 -> finished (k a s1) -> Q a s1) ->
  agrees P (bind m' k') (bind m k).
Proof.
  intros Hm Hk Hq s Hs F. unfold bind in *.
  assert (Fm : finished (m s)) by (destruct (m s); simpl in *; auto).
  rewrite (Hm s Hs Fm). destruct (m s) as [a s1|e s1|s1] eqn:E; try reflexivity.
  apply Hk; [|exact F]. eapply Hq; eauto.
Qed.

Lemma room_forward (fuel c : nat) (s s1 : state) :
  current_token s <= current_token s1 -> room tokens fuel c s -> room tokens fuel c s1.
Proof. unfold room. lia. Qed.

Lemma room_less (fuel c c' : nat) (s : state) :
  c' <= c -> room tokens fuel c s -> room tokens fuel c' s.
Proof. unfold room. lia. Qed.

Lemma room_advanced (fuel c : nat) (s s1 : state) :
  current_token s < current_token s1 -> current_token s < List.length tokens ->
  room tokens fuel c s -> room tokens fuel (c + 3) s1.
Proof. unfold room. lia. Qed.

Lemma room_succ (fuel c : nat) (s : state) :
  room tokens (S fuel) (S c) s -> room tokens fuel c s.
Proof. unfold room. lia. Qed.

(** Binding under a room that only the cursor could spoil *)
Lemma agrees_bind_room {A B : Type} (fuel c : nat) (m' m : M A) (k' k : A -> M B) :
  agrees (room tokens fuel c) m' m ->
  (forall a, agrees (room tokens fuel c) (k' a) (k a)) ->
  steps (cursor_moves tokens) m ->
  agrees (room tokens fuel c) (bind m' k') (bind m k).
Proof.
  intros Hm Hk Hc. apply agrees_bind with (Q := fun _ => room tokens fuel c); auto.
  intros s a s1 Hs E _. eapply room_forward; [|exact Hs].
  apply (moves_forward Hc _ E).
Qed.

(** Binding behind a [match], which makes room *)
Lemma agrees_after_match {B : Type} (fuel c : nat) (expected_type : Kind)
    (k' k : Token -> M B) :
  (forall a, agrees (room tokens fuel (c + 3)) (k' a) (k a)) ->
  agrees (room tokens fuel c) (bind (match_ tokens expected_type) k')
    (bind (match_ tokens expected_type) k).
Proof.
  intros Hk. apply agrees_bind with (Q := fun _ => room tokens fuel (c + 3)); auto.
  - apply agrees_refl.
  - intros s a s1 Hs E _. apply match_ok in E. destruct E as (Hn & _ & ->).
    eapply room_advanced; [| |exact Hs]; [simpl; lia|].
    apply nth_error_Some. congruence.
Qed.

(** Two runs of a function that are not cut give the same answer. *)
Lemma finished_agree {A : Type} (X : nat -> M A) :
  (forall fuel fuel', fuel <= fuel' -> approx (X fuel) (X fuel')) ->
  forall f g s, finished (X f s) -> finished (X g s) -> X f s = X g s.
Proof.
  intros Mono f g s Ff Fg. destruct (Nat.le_ge_cases f g) as [L|L].
  - pose proof (Mono f g L s) as H. destruct (X f s); simpl in *; [auto | auto | contradiction].
  - pose proof (Mono g f L s) as H. destruct (X g s); simpl in *; [auto | auto | contradiction].
Qed.

Lemma parse_expression_agrees (f g : nat) :
  agrees (room tokens f 1) (parse_expression tokens f) (parse_expression tokens g).
Proof.
  intros s Hs F. apply (finished_agree (parse_expression tokens)); [|  |exact F].
  - intros fuel fuel' L. apply parse_expression_mono, L.
  - apply parse_expression_finished. unfold room in Hs. lia.
Qed.

Ltac room_step :=
  repeat first
    [ assumption
    | apply agrees_refl
    | apply agrees_bind_room; [ | intros ? | cursor_step ]
    | match goal with
      | |- agrees _ (if ?b then _ else _) _ => destruct b
      | |- agrees _ (match ?x with _ => _ end) _ => destruct x
      end ].

Lemma parse_declaration_agrees (f g : nat) :
  agrees (room tokens f 1) (parse_declaration tokens f) (parse_declaration tokens g).
Proof.
  pose proof (@parse_expression_agrees f g). pose proof (parse_expression_cursor g).
  unfold parse_declaration. room_step.
Qed.

Lemma parse_assignment_agrees (f g : nat) :
  agrees (room tokens f 1) (parse_assignment tokens f) (parse_assignment tokens g).
Proof.
  pose proof (@parse_expression_agrees f g). pose proof (parse_expression_cursor g).
  unfold parse_assignment. room_step.
Qed.

Lemma parse_output_agrees (f g : nat) :
  agrees (room tokens f 1) (parse_output tokens f) (parse_output tokens g).
Proof.
  pose proof (@parse_expression_agrees f g). pose proof (parse_expression_cursor g).
  unfold parse_output. room_step.
Qed.

(** A loop that meets a keyword [parse_statement] has no branch for is cut
    by every fuel bound. *)
Lemma compound_statement_loop_stray (g : nat) :
  forall s current,
    at_cursor tokens not_closing_brace s = Ok true s ->
    nth_error tokens (current_token s) = Some current ->
    fst current = KEYWORD -> dispatched (snd current) = false ->
    ~ finished (compound_statement_loop tokens g s).
Proof.
  induction g as [|g IH]; intros s current Hc Hn K D; [simpl; auto|].
  cbn [compound_statement_loop]. unfold bind at 1. rewrite Hc.
  destruct g as [|g]; [simpl; auto|].
  unfold bind at 1. rewrite (parse_statement_stray g _ Hn K D). eapply IH; eauto.
Qed.

Lemma program_loop_stray (g : nat) :
  forall s current,
    at_cursor tokens not_closing_brace s = Ok true s ->
    nth_error tokens (current_token s) = Some current ->
    fst current = KEYWORD -> dispatched (snd current) = false ->
    Value_is (snd current) "let" = false ->
    ~ finished (program_loop tokens g s).
Proof.
  induction g as [|g IH]; intros s current Hc Hn K D L; [simpl; auto|].
  cbn [program_loop]. unfold bind at 1. rewrite Hc.
  cbv [bind get_current_token index ret]. rewrite Hn, L, andb_false_r.
  destruct g as [|g]; [simpl; auto|].
  rewrite (parse_statement_stray g _ Hn K D).
  change (~ finished (program_loop tokens (S g) s)). eapply IH; eauto.
Qed.

Lemma at_cursor_true (p : Token -> bool) (s s1 : state) :
  at_cursor tokens p s = Ok true s1 -> current_token s < List.length tokens.
Proof.
  intros H. apply at_cursor_ok in H. destruct H as [_ H].
  apply nth_error_Some. destruct (nth_error tokens (current_token s)); [discriminate | discriminate H].
Qed.

(** With room for three calls a token, and a few more, a call that is not
    cut under some bound is not cut under the given one. *)
Lemma statements_agree (g : nat) :
  forall f,
    agrees (room tokens f 2) (parse_statement tokens f) (parse_statement tokens g)
    /\ agrees (room tokens f 1) (parse_conditional tokens f) (parse_conditional tokens g)
    /\ agrees (room tokens f 1) (parse_fixed_loop tokens f) (parse_fixed_loop tokens g)
    /\ agrees (room tokens f 1) (parse_while_loop tokens f) (parse_while_loop tokens g)
    /\ agrees (room tokens f 1)
         (parse_compound_statement tokens f) (parse_compound_statement tokens g)
    /\ agrees (room tokens f 3)
         (compound_statement_loop tokens f) (compound_statement_loop tokens g).
Proof.
  induction g as [|g IH]; intros f.
  { repeat apply conj; intros s _ F; destruct F. }
  destruct f as [|f].
  { repeat apply conj; intros s Hs; unfold room in Hs; lia. }
  destruct (IH f) as (I1 & I2 & I3 & I4 & I5 & I6).
  pose proof (@parse_expression_agrees f g) as PE.
  pose proof (@parse_assignment_agrees f g) as PA.
  pose proof (@parse_output_agrees f g) as PO.
  pose proof (parse_expression_cursor g).
  pose proof (parse_assignment_cursor g).
  pose proof (parse_output_cursor g).
  pose proof parse_input_cursor.
  destruct (statements_cursor g) as (C1 & C2 & C3 & C4 & C5 & C6).
  repeat apply conj.
  - (* parse_statement *)
    apply agrees_weaken with (P := room tokens f 1); [intros s; apply room_succ|].
    cbn [parse_statement]. room_step.
  - (* parse_conditional *)
    apply agrees_weaken with (P := room tokens f 0); [intros s; apply room_succ|].
    cbn [parse_conditional]. apply agrees_after_match. intros kw.
    apply agrees_weaken with (P := room tokens f 1); [intros s; apply room_less; lia|].
    room_step.
  - (* parse_fixed_loop *)
    apply agrees_weaken with (P := room tokens f 0); [intros s; apply room_succ|].
    cbn [parse_fixed_loop]. apply agrees_after_match. intros kw.
    apply agrees_weaken with (P := room tokens f 1); [intros s; apply room_less; lia|].
    room_step.
  - (* parse_while_loop *)
    apply agrees_weaken with (P := room tokens f 0); [intros s; apply room_succ|].
    cbn [parse_while_loop]. apply agrees_after_match. intros kw.
    apply agrees_weaken with (P := room tokens f 1); [intros s; apply room_less; lia|].
    room_step.
  - (* parse_compound_statement *)
    apply agrees_weaken with (P := room tokens f 0); [intros s; apply room_succ|].
    cbn [parse_compound_statement]. apply agrees_after_match. intros open.
    room_step.
  - (* compound_statement_loop *)
    apply agrees_weaken with (P := room tokens f 2); [intros s; apply room_succ|].
    cbn [compound_statement_loop].
    apply agrees_bind
      with (Q := fun (continue : bool) s1 =>
                   room tokens f 2 s1
                   /\ (continue = true -> at_cursor tokens not_closing_brace s1 = Ok true s1)).
    + apply agrees_refl.
    + intros [|]; [|apply agrees_refl].
      apply agrees_bind with (Q := fun _ => room tokens f 3).
      * apply agrees_weaken with (P := room tokens f 2); [tauto | exact I1].
      * intros _. exact I6.
      * intros s u s1 [Hs Hc] E F. specialize (Hc eq_refl).
        pose proof (@at_cursor_true _ _ _ Hc) as Hlt.
        destruct (@parse_statement_progress _ _ _ _ E) as [Lt | [-> (current & Hn & K & D)]].
        -- apply room_less with (c := 2 + 3); [lia|]. eapply room_advanced; eauto.
        -- exfalso. exact (@compound_statement_loop_stray g _ _ Hc Hn K D F).
    + intros s continue s1 Hs E _. pose proof E as E'. apply at_cursor_ok in E'.
      destruct E' as [-> _]. split; [exact Hs|]. intros ->. exact E.
Qed.

Lemma program_loop_agrees (g : nat) :
  forall f, agrees (room tokens f 3) (program_loop tokens f) (program_loop tokens g).
Proof.
  induction g as [|g IH]; intros f; [intros s _ F; destruct F|].
  destruct f as [|f]; [intros s Hs; unfold room in Hs; lia|].
  apply agrees_weaken with (P := room tokens f 2); [intros s; apply room_succ|].
  cbn [program_loop].
  apply agrees_bind
    with (Q := fun (continue : bool) s1 =>
                 room tokens f 2 s1
                 /\ (continue = true -> at_cursor tokens not_closing_brace s1 = Ok true s1)).
  - apply agrees_refl.
  - intros [|]; [|apply agrees_refl].
    apply agrees_bind
      with (Q := fun i s1 =>
                   room tokens f 2 s1 /\ i = current_token s1
                   /\ at_cursor tokens not_closing_brace s1 = Ok true s1).
    + apply agrees_refl.
    + intros i.
      apply agrees_bind
        with (Q := fun token s1 =>
                     room tokens f 2 s1 /\ nth_error tokens (current_token s1) = Some token
                     /\ at_cursor tokens not_closing_brace s1 = Ok true s1).
      * apply agrees_refl.
      * intros token. apply agrees_bind with (Q := fun _ => room tokens f 3).
        -- destruct (Kind_eqb (fst token) KEYWORD && Value_is (snd token) "let").
           ++ apply agrees_weaken with (P := room tokens f 1);
                [intros s [Hs _]; revert Hs; apply room_less; lia|].
              apply parse_declaration_agrees.
           ++ apply agrees_weaken with (P := room tokens f 2); [tauto|].
              apply (statements_agree g f).
        -- intros _. apply IH.
        -- intros s u s1 (Hs & Hn & Hc) E F.
           pose proof (@at_cursor_true _ _ _ Hc) as Hlt.
           apply room_less with (c := 2 + 3); [lia|].
           destruct (Kind_eqb (fst token) KEYWORD && Value_is (snd token) "let") eqn:L.
           ++ eapply room_advanced; eauto. eapply parse_declaration_advances; eauto.
           ++ destruct (@parse_statement_progress _ _ _ _ E) as [Lt | [-> (current & Hn' & K & D)]].
              ** eapply room_advanced; eauto.
              ** exfalso. assert (current = token) by congruence. subst current.
                 rewrite K in L. cbn [Kind_eqb] in L.
                 refine (@program_loop_stray g _ _ Hc Hn K D _ F).
                 destruct (Kind_eq_dec KEYWORD KEYWORD); [exact L | contradiction].
      * intros s token s1 (Hs & -> & Hc) E _. apply index_ok in E. destruct E as [-> Hn]. auto.
    + intros s i s1 [Hs Hc] E _. cbv [get_current_token] in E. injection E as <- <-. auto.
  - intros s continue s1 Hs E _. pose proof E as E'. apply at_cursor_ok in E'.
    destruct E' as [-> _]. split; [exact Hs|]. intros ->. exact E.
Qed.

Lemma parse_program_agrees (f g : nat) :
  agrees (room tokens f 0) (parse_program tokens f) (parse_program tokens g).
Proof.
  unfold parse_program. apply agrees_after_match. intros open.
  pose proof (@program_loop_agrees g f). pose proof (program_loop_cursor g).
  room_step.
Qed.

(** The answer of [parse] under any bound that does not cut it is the
    answer under the bound of three times the number of tokens. *)
Lemma parse_bounded (f g : nat) :
  3 * List.length tokens <= f ->
  parse tokens g <> Unfinished ->
  parse tokens f = parse tokens g.
Proof.
  intros Hf Hg. unfold parse in *.
  rewrite (@parse_program_agrees f g init); [reflexivity | unfold room; simpl; lia |].
  destruct (parse_program tokens g init); simpl; auto.
Qed.

(** ** Reading behind the end of the stream *)

Lemma bind_raise {A B : Type} (m : M A) (f : A -> M B) (s s' : state) (e : exn) :
  bind m f s = Raise e s' ->
  m s = Raise e s' \/ exists a s1, m s = Ok a s1 /\ f a s1 = Raise e s'.
Proof.
  unfold bind. destruct (m s) as [a s1|e1 s1|s1]; intros H;
    [right; exists a, s1; auto | left; injection H as -> ->; reflexivity | discriminate H].
Qed.

Lemma match_no_index_error (expected_type : Kind) (s s' : state) :
  match_ tokens expected_type s <> Raise IndexError s'.
Proof.
  cbv [match_ bind get_current_token at_cursor index ret advance raise].
  destruct (nth_error tokens (current_token s)) as [t|]; [|discriminate].
  destruct (Kind_eqb (fst t) expected_type); discriminate.
Qed.

Lemma at_cursor_no_raise (p : Token -> bool) (s s' : state) (e : exn) :
  at_cursor tokens p s <> Raise e s'.
Proof.
  cbv [at_cursor bind get_current_token ret].
  destruct (nth_error tokens (current_token s)); discriminate.
Qed.

Lemma index_raise (i : nat) (s s' : state) (e : exn) :
  index tokens i s = Raise e s' -> List.length tokens <= i.
Proof.
  unfold index. destruct (nth_error tokens i) eqn:E; [discriminate|].
  intros _. apply nth_error_None, E.
Qed.

(** Taking apart a run that raised [IndexError] *)
Ltac inv_index_error :=
  repeat match goal with
  | H : bind _ _ _ = Raise IndexError _ |- _ =>
      let a := fresh "a" in
      let s := fresh "s" in
      let E := fresh "E" in
      apply bind_raise in H; destruct H as [H | (a & s & E & H)]
  | H : match_ _ _ _ = Raise IndexError _ |- _ => exfalso; exact (@match_no_index_error _ _ _ H)
  | H : at_cursor _ _ _ = Raise _ _ |- _ => exfalso; exact (@at_cursor_no_raise _ _ _ _ H)
  | H : get_current_token _ = Raise _ _ |- _ => discriminate H
  | H : get_symbol_table _ = Raise _ _ |- _ => discriminate H
  | H : put_symbol_table _ _ = Raise _ _ |- _ => discriminate H
  | H : ret _ _ = Raise _ _ |- _ => discriminate H
  | H : raise (SyntaxError _) _ = Raise IndexError _ |- _ => discriminate H
  | H : out_of_fuel _ = Raise _ _ |- _ => discriminate H
  | H : (if ?b then _ else _) _ = Raise _ _ |- _ => destruct b eqn:?
  | H : (match ?x with Some _ => _ | None => _ end) _ = Raise _ _ |- _ => destruct x
  end.

(** The token consumed last stands before the cursor. *)
Ltac open_now :=
  match goal with
  | Hn : nth_error tokens ?j = Some ?t, Hk : fst ?t = _ |- after_open tokens _ =>
      exists j, t; split; [simpl; lia | split; [exact Hn | rewrite Hk; reflexivity]]
  end.

Lemma ends_open_at (j : nat) (t : Token) :
  nth_error tokens j = Some t -> List.length tokens <= S j -> open_end (fst t) = true ->
  ends_open tokens.
Proof.
  intros Hn Hl Ho. exists t.
  assert (j < List.length tokens) by (apply nth_error_Some; congruence).
  replace (List.length tokens - 1) with j by lia. auto.
Qed.

(** An expression reads behind the end only when the stream ends in the
    token the expression has to follow. *)
Lemma parse_expression_index_error (fuel : nat) :
  forall s s',
    after_open tokens s ->
    parse_expression tokens fuel s = Raise IndexError s' -> ends_open tokens.
Proof.
  induction fuel as [|fuel IH]; intros s s' P H; cbn [parse_expression] in H; [discriminate H|].
  inv_index_error; inv_run.
  - apply index_raise in H. destruct P as (j & t & Hc & Hn & Ho).
    apply (@ends_open_at j t Hn); [lia | exact Ho].
  - eapply IH; [|exact H]. open_now.
Qed.

Ltac index_error_now :=
  first
    [ match goal with
      | H : parse_expression _ _ _ = Raise IndexError _ |- _ =>
          eapply parse_expression_index_error; [|exact H]; open_now
      end
    | match goal with
      | L : forall s s', _ = Raise IndexError s' -> ends_open tokens,
        H : _ = Raise IndexError _ |- _ => exact (L _ _ H)
      end ].

Lemma parse_declaration_index_error (fuel : nat) :
  forall s s', parse_declaration tokens fuel s = Raise IndexError s' -> ends_open tokens.
Proof.
  intros s s' H. unfold parse_declaration in H. inv_index_error; inv_run; index_error_now.
Qed.

Lemma parse_assignment_index_error (fuel : nat) :
  forall s s', parse_assignment tokens fuel s = Raise IndexError s' -> ends_open tokens.
Proof.
  intros s s' H. unfold parse_assignment in H. inv_index_error; inv_run; index_error_now.
Qed.

Lemma parse_input_index_error :
  forall s s', parse_input tokens s = Raise IndexError s' -> ends_open tokens.
Proof. intros s s' H. unfold parse_input in H. inv_index_error. Qed.

Lemma parse_output_index_error (fuel : nat) :
  forall s s', parse_output tokens fuel s = Raise IndexError s' -> ends_open tokens.
Proof.
  intros s s' H. unfold parse_output in H. inv_index_error; inv_run; index_error_now.
Qed.

Lemma statements_index_error (fuel : nat) :
  (forall s s', parse_statement tokens fuel s = Raise IndexError s' -> ends_open tokens)
  /\ (forall s s', parse_conditional tokens fuel s = Raise IndexError s' -> ends_open tokens)
  /\ (forall s s', parse_fixed_loop tokens fuel s = Raise IndexError s' -> ends_open tokens)
  /\ (forall s s', parse_while_loop tokens fuel s = Raise IndexError s' -> ends_open tokens)
  /\ (forall s s',
        parse_compound_statement tokens fuel s = Raise IndexError s' -> ends_open tokens)
  /\ (forall s s',
        compound_statement_loop tokens fuel s = Raise IndexError s' -> ends_open tokens).
Proof.
  induction fuel as [|fuel (IH1 & IH2 & IH3 & IH4 & IH5 & IH6)].
  - repeat apply conj; intros s s' H; discriminate H.
  - pose proof (parse_assignment_index_error fuel) as PA.
    pose proof parse_input_index_error as PI.
    pose proof (parse_output_index_error fuel) as PO.
    repeat apply conj; intros s s' H;
      cbn [parse_statement parse_conditional parse_fixed_loop parse_while_loop
             parse_compound_statement compound_statement_loop] in H.
    + (* parse_statement *)
      apply bind_raise in H. destruct H as [H | (i & s0 & E0 & H)]; [discriminate H|].
      cbv [get_current_token] in E0. injection E0 as <- <-.
      destruct (List.length tokens <=? current_token s) eqn:L; [discriminate H|].
      apply Nat.leb_gt in L.
      apply bind_raise in H. destruct H as [H | (current & s1 & E1 & H)].
      { apply index_raise in H. lia. }
      apply index_ok in E1. destruct E1 as [-> Hcur].
      apply bind_raise in H. destruct H as [H | (assignment & s2 & E2 & H)].
      { destruct (Kind_eqb (fst current) IDENTIFIER) eqn:K; [|discriminate H].
        apply bind_raise in H. destruct H as [H | (next & s3 & _ & H)]; [|discriminate H].
        apply index_raise in H. apply (@ends_open_at (current_token s) current Hcur); [lia|].
        unfold Kind_eqb in K. destruct (Kind_eq_dec (fst current) IDENTIFIER) as [->|];
          [reflexivity | discriminate K]. }
      assert (s2 = s) as ->.
      { destruct (Kind_eqb (fst current) IDENTIFIER); inv_run; reflexivity. }
      inv_index_error; index_error_now.
    + inv_index_error; inv_run; index_error_now.
    + inv_index_error; inv_run; index_error_now.
    + inv_index_error; inv_run; index_error_now.
    + inv_index_error; inv_run; index_error_now.
    + inv_index_error; inv_run; index_error_now.
Qed.

Lemma program_loop_index_error (fuel : nat) :
  forall s s', program_loop tokens fuel s = Raise IndexError s' -> ends_open tokens.
Proof.
  induction fuel as [|fuel IH]; intros s s' H; cbn [program_loop] in H; [discriminate H|].
  pose proof (parse_declaration_index_error fuel) as PD.
  pose proof (proj1 (statements_index_error fuel)) as PS.
  apply bind_raise in H. destruct H as [H | (continue & s0 & E0 & H)].
  { exfalso. exact (@at_cursor_no_raise _ _ _ _ H). }
  destruct continue; [|discriminate H].
  pose proof (@at_cursor_true _ _ _ E0) as T.
  apply at_cursor_ok in E0. destruct E0 as [-> _].
  apply bind_raise in H. destruct H as [H | (i & s0 & E0 & H)]; [discriminate H|].
  cbv [get_current_token] in E0. injection E0 as <- <-.
  apply bind_raise in H. destruct H as [H | (token & s1 & E1 & H)].
  { apply index_raise in H. lia. }
  apply index_ok in E1. destruct E1 as [-> Hcur].
  inv_index_error; index_error_now.
Qed.

(** [parse_program] reads behind the end of the stream only when the
    stream ends in an identifier, an assignment sign, a keyword or a
    relational operator. *)
Lemma parse_program_index_error (fuel : nat) :
  forall s s', parse_program tokens fuel s = Raise IndexError s' -> ends_open tokens.
Proof.
  intros s s' H. unfold parse_program in H.
  pose proof (program_loop_index_error fuel) as PL.
  inv_index_error; index_error_now.
Qed.

(** ** The shape of what is accepted *)

Lemma reads_app (l1 l2 : list Token) (s s1 s2 : state) :
  reads tokens l1 s s1 -> reads tokens l2 s1 s2 -> reads tokens (l1 ++ l2) s s2.
Proof.
  intros [A1 B1] [A2 B2]. split.
  - rewrite A1, A2. apply app_assoc.
  - rewrite length_app. lia.
Qed.

Lemma reads_nil (s : state) : reads tokens [] s s.
Proof. split; simpl; lia || reflexivity. Qed.

Lemma match_reads (expected_type : Kind) (s s1 : state) (t : Token) :
  match_ tokens expected_type s = Ok t s1 ->
  reads tokens [t] s s1 /\ fst t = expected_type /\ nth_error tokens (current_token s) = Some t.
Proof.
  intros H. apply match_ok in H. destruct H as (Hn & Hk & ->). simpl.
  split; [|auto]. split; simpl.
  - rewrite (skipn_nth_error _ _ Hn), Nat.add_1_r. reflexivity.
  - reflexivity.
Qed.

Lemma spelled_expression (e : Expr) : forall l, spelled e l -> expression l.
Proof.
  induction e as [v|a op b IH]; intros l H.
  - destruct l as [|t [|? ?]]; try contradiction. destruct H as [H _]. constructor. exact H.
  - destruct l as [|t [|o l]]; try contradiction.
    destruct H as (H1 & _ & H2 & _ & H3). constructor; auto.
Qed.

Lemma parse_expression_reads (fuel : nat) (s s' : state) (e : Expr) :
  parse_expression tokens fuel s = Ok e s' ->
  exists l, reads tokens l s s' /\ expression l.
Proof.
  intros H. apply parse_expression_spelled in H.
  destruct H as (l & S & P & C & _). exists l.
  split; [split; assumption | eapply spelled_expression; eauto].
Qed.

Lemma parse_assignment_reads (fuel : nat) (s s' : state) (u : unit) :
  parse_assignment tokens fuel s = Ok u s' ->
  exists l, reads tokens l s s' /\ statement l.
Proof.
  intros H. apply parse_assignment_effect in H.
  destruct H as (name & asg & e & consumed & semi & S & K1 & P & K2 & C & _).
  exists ((IDENTIFIER, name) :: asg :: consumed ++ [semi]). split.
  - split.
    + rewrite S. simpl. rewrite <- app_assoc. reflexivity.
    + simpl. rewrite length_app. simpl. lia.
  - constructor; auto. eapply spelled_expression; eauto.
Qed.

Lemma parse_declaration_reads (fuel : nat) (s s' : state) (u : unit) :
  nth_error tokens (current_token s) = Some (KEYWORD, VStr "let") ->
  parse_declaration tokens fuel s = Ok u s' ->
  exists l, reads tokens l s s' /\ declaration l.
Proof.
  intros Hlet H. apply parse_declaration_effect in H.
  destruct H as (kw & name & asg & e & consumed & semi & S & K0 & K1 & P & K2 & C & _).
  assert (kw = (KEYWORD, VStr "let")).
  { rewrite (skipn_nth_error _ _ Hlet) in S. congruence. }
  subst kw.
  exists ((KEYWORD, VStr "let") :: (IDENTIFIER, name) :: asg :: consumed ++ [semi]). split.
  - split.
    + rewrite S. simpl. rewrite <- app_assoc. reflexivity.
    + simpl. rewrite length_app. simpl. lia.
  - constructor; auto. eapply spelled_expression; eauto.
Qed.

Lemma matched_keyword (s s1 : state) (t : Token) (text : string) :
  nth_error tokens (current_token s) = Some (KEYWORD, VStr text) ->
  match_ tokens KEYWORD s = Ok t s1 ->
  reads tokens [(KEYWORD, VStr text)] s s1.
Proof.
  intros Hn H. apply match_reads in H. destruct H as (R & _ & Hn').
  assert (t = (KEYWORD, VStr text)) by congruence. subst t. exact R.
Qed.

Lemma parse_input_reads (s s' : state) (u : unit) :
  nth_error tokens (current_token s) = Some (KEYWORD, VStr "input") ->
  parse_input tokens s = Ok u s' ->
  exists l, reads tokens l s s' /\ statement l.
Proof.
  intros Hn H. unfold parse_input in H.
  bind_inv H kw s1 E1. bind_inv H identifier s2 E2. bind_inv H semi s3 E3.
  apply ret_ok in H. destruct H as [_ ->].
  pose proof (matched_keyword _ Hn E1) as R1.
  apply match_reads in E2. destruct E2 as (R2 & K2 & _).
  apply match_reads in E3. destruct E3 as (R3 & K3 & _).
  rewrite (identifier_token _ K2) in R2.
  eexists. split; [exact (reads_app R1 (reads_app R2 R3))|].
  simpl. constructor. exact K3.
Qed.

Lemma parse_output_reads (fuel : nat) (s s' : state) (u : unit) :
  nth_error tokens (current_token s) = Some (KEYWORD, VStr "output") ->
  parse_output tokens fuel s = Ok u s' ->
  exists l, reads tokens l s s' /\ statement l.
Proof.
  intros Hn H. unfold parse_output in H.
  bind_inv H kw s1 E1. bind_inv H e s2 E2. bind_inv H semi s3 E3.
  apply ret_ok in H. destruct H as [_ ->].
  pose proof (matched_keyword _ Hn E1) as R1.
  apply parse_expression_reads in E2. destruct E2 as (l2 & R2 & X2).
  apply match_reads in E3. destruct E3 as (R3 & K3 & _).
  eexists. split; [exact (reads_app R1 (reads_app R2 R3))|].
  simpl. constructor; assumption.
Qed.

Lemma token_is (token : Token) (kind : Kind) (text : string) :
  Kind_eqb (fst token) kind = true -> Value_is (snd token) text = true ->
  token = (kind, VStr text).
Proof.
  destruct token as [k v]; simpl. unfold Kind_eqb.
  destruct (Kind_eq_dec k kind) as [->|]; [|discriminate]. intros _.
  destruct v; simpl; try discriminate. intros H. apply String.eqb_eq in H. congruence.
Qed.

Lemma reads_head (l : list Token) (t t' : Token) (s s' : state) :
  reads tokens (t' :: l) s s' -> nth_error tokens (current_token s) = Some t -> t' = t.
Proof. intros [R _] Hn. rewrite (skipn_nth_error _ _ Hn) in R. simpl in R. congruence. Qed.

(** The delimiter consumed where a loop of statements has stopped is the
    closing brace. *)
Lemma matched_closing_brace (s s1 : state) (t : Token) :
  (forall t, nth_error tokens (current_token s) = Some t -> not_closing_brace t = false) ->
  match_ tokens DELIMITER s = Ok t s1 ->
  reads tokens [(DELIMITER, VStr "}")] s s1.
Proof.
  intros Hc H. apply match_reads in H. destruct H as (R & K & Hn).
  specialize (Hc _ Hn). unfold not_closing_brace in Hc. apply negb_false_iff in Hc.
  assert (t = (DELIMITER, VStr "}")).
  { apply token_is; [|exact Hc]. rewrite K. unfold Kind_eqb.
    destruct (Kind_eq_dec DELIMITER DELIMITER); [reflexivity | contradiction]. }
  subst t. exact R.
Qed.

Lemma at_cursor_false (p : Token -> bool) (s s1 : state) :
  at_cursor tokens p s = Ok false s1 ->
  forall t, nth_error tokens (current_token s) = Some t -> p t = false.
Proof.
  intros H t Hn. apply at_cursor_ok in H. destruct H as [_ H]. rewrite Hn in H. auto.
Qed.

(** What the statement methods read, when they return *)
Lemma statements_read (fuel : nat) :
  (forall s s' u,
     parse_statement tokens fuel s = Ok u s' ->
     (exists l, reads tokens l s s' /\ statement l)
     \/ (s' = s /\ exists current,
           nth_error tokens (current_token s) = Some current
           /\ fst current = KEYWORD /\ dispatched (snd current) = false))
  /\ (forall s s' u,
        nth_error tokens (current_token s) = Some (KEYWORD, VStr "if") ->
        parse_conditional tokens fuel s = Ok u s' ->
        exists l, reads tokens l s s' /\ statement l)
  /\ (forall s s' u,
        nth_error tokens (current_token s) = Some (KEYWORD, VStr "for") ->
        parse_fixed_loop tokens fuel s = Ok u s' ->
        exists l, reads tokens l s s' /\ statement l)
  /\ (forall s s' u,
        nth_error tokens (current_token s) = Some (KEYWORD, VStr "do") ->
        parse_while_loop tokens fuel s = Ok u s' ->
        exists l, reads tokens l s s' /\ statement l)
  /\ (forall s s' u,
        parse_compound_statement tokens fuel s = Ok u s' ->
        exists l, reads tokens l s s' /\ block l)
  /\ (forall s s' u,
        compound_statement_loop tokens fuel s = Ok u s' ->
        (exists l, reads tokens l s s' /\ statements l)
        /\ forall t, nth_error tokens (current_token s') = Some t ->
                     not_closing_brace t = false).
Proof.
  induction fuel as [|fuel (IH1 & IH2 & IH3 & IH4 & IH5 & IH6)].
  - repeat apply conj; intros; match goal with H : _ = Ok _ _ |- _ => discriminate H end.
  - repeat apply conj.
    + (* parse_statement *)
      intros s s' u H. cbn [parse_statement] in H.
      bind_inv H i s0 E0. cbv [get_current_token] in E0. injection E0 as <- <-.
      destruct (List.length tokens <=? current_token s); [discriminate|].
      bind_inv H current s1 E1. apply index_ok in E1. destruct E1 as [-> Hcur].
      bind_inv H assignment s2 E2.
      assert (s2 = s) as ->.
      { destruct (Kind_eqb (fst current) IDENTIFIER); inv_run; reflexivity. }
      clear E2.
      destruct assignment; [left; eapply parse_assignment_reads; eauto|].
      destruct (Kind_eqb (fst current) KEYWORD) eqn:K.
      * assert (Hkw : forall text, Value_is (snd current) text = true ->
                                   nth_error tokens (current_token s) = Some (KEYWORD, VStr text)).
        { intros text V. rewrite Hcur. f_equal. apply token_is; assumption. }
        destruct (Value_is (snd current) "if") eqn:V1; [left; eapply IH2; eauto|].
        destruct (Value_is (snd current) "for") eqn:V2; [left; eapply IH3; eauto|].
        destruct (Value_is (snd current) "do") eqn:V3; [left; eapply IH4; eauto|].
        destruct (Value_is (snd current) "input") eqn:V4;
          [left; eapply parse_input_reads; eauto|].
        destruct (Value_is (snd current) "output") eqn:V5;
          [left; eapply parse_output_reads; eauto|].
        apply ret_ok in H. destruct H as [_ ->]. right. split; [reflexivity|].
        exists current. split; [exact Hcur|]. split.
        -- unfold Kind_eqb in K.
           destruct (Kind_eq_dec (fst current) KEYWORD); [assumption | discriminate].
        -- unfold dispatched. rewrite V1, V2, V3, V4, V5. reflexivity.
      * destruct (Kind_eqb (fst current) DELIMITER && Value_is (snd current) "{") eqn:D;
          [|discriminate].
        apply andb_prop in D. destruct D as [D1 D2].
        left. destruct (IH5 _ _ _ H) as (l & R & B). exists l. split; [exact R|].
        destruct B as [open body KO SB].
        assert (open = current) by (eapply reads_head; eauto). subst open.
        rewrite (@token_is _ _ _ D1 D2). constructor. exact SB.
    + (* parse_conditional *)
      intros s s' u Hif H. cbn [parse_conditional] in H.
      bind_inv H kw0 s1 E1. bind_inv H cond s2 E2. bind_inv H kw s3 E3.
      bind_inv H u4 s4 E4. bind_inv H has_else s5 E5.
      pose proof (matched_keyword _ Hif E1) as R1.
      apply parse_expression_reads in E2. destruct E2 as (l2 & R2 & X2).
      apply match_reads in E3. destruct E3 as (R3 & K3 & _).
      destruct (IH5 _ _ _ E4) as (l4 & R4 & B4).
      pose proof E5 as E5'. apply at_cursor_ok in E5'. destruct E5' as [-> Helse].
      destruct has_else.
      * bind_inv H kw5 s6 E6. destruct (IH5 _ _ _ H) as (l7 & R7 & B7).
        assert (R6 : reads tokens [(KEYWORD, VStr "else")] s4 s6).
        { pose proof E6 as E6'. apply match_reads in E6'. destruct E6' as (R6 & K6 & Hn6).
          rewrite Hn6 in Helse. symmetry in Helse.
          replace (KEYWORD, VStr "else") with kw5; [exact R6|].
          apply token_is; [|exact Helse]. rewrite K6. unfold Kind_eqb.
          destruct (Kind_eq_dec KEYWORD KEYWORD); [reflexivity | contradiction]. }
        eexists. split;
          [exact (reads_app R1 (reads_app R2 (reads_app R3 (reads_app R4 (reads_app R6 R7)))))|].
        simpl. apply statement_if_else; assumption.
      * apply ret_ok in H. destruct H as [_ ->].
        eexists. split; [exact (reads_app R1 (reads_app R2 (reads_app R3 R4)))|].
        simpl. apply statement_if; assumption.
    + (* parse_fixed_loop *)
      intros s s' u Hfor H. cbn [parse_fixed_loop] in H.
      bind_inv H kw0 s1 E1. bind_inv H identifier s2 E2. bind_inv H asg s3 E3.
      bind_inv H from s4 E4. bind_inv H kw s5 E5. bind_inv H to s6 E6.
      pose proof (matched_keyword _ Hfor E1) as R1.
      apply match_reads in E2. destruct E2 as (R2 & K2 & _).
      rewrite (identifier_token _ K2) in R2.
      apply match_reads in E3. destruct E3 as (R3 & K3 & _).
      apply parse_expression_reads in E4. destruct E4 as (l4 & R4 & X4).
      apply match_reads in E5. destruct E5 as (R5 & K5 & _).
      apply parse_expression_reads in E6. destruct E6 as (l6 & R6 & X6).
      destruct (IH5 _ _ _ H) as (l7 & R7 & B7).
      eexists. split;
        [exact (reads_app R1 (reads_app R2 (reads_app R3 (reads_app R4
                  (reads_app R5 (reads_app R6 R7))))))|].
      simpl. apply statement_for; assumption.
    + (* parse_while_loop *)
      intros s s' u Hdo H. cbn [parse_while_loop] in H.
      bind_inv H kw0 s1 E1. bind_inv H u2 s2 E2. bind_inv H kw s3 E3. bind_inv H cond s4 E4.
      apply ret_ok in H. destruct H as [_ ->].
      pose proof (matched_keyword _ Hdo E1) as R1.
      destruct (IH5 _ _ _ E2) as (l2 & R2 & B2).
      apply match_reads in E3. destruct E3 as (R3 & K3 & _).
      apply parse_expression_reads in E4. destruct E4 as (l4 & R4 & X4).
      eexists. split; [exact (reads_app R1 (reads_app R2 (reads_app R3 R4)))|].
      simpl. apply statement_do; assumption.
    + (* parse_compound_statement *)
      intros s s' u H. cbn [parse_compound_statement] in H.
      bind_inv H open s1 E1. bind_inv H u2 s2 E2. bind_inv H close s3 E3.
      apply ret_ok in H. destruct H as [_ ->].
      apply match_reads in E1. destruct E1 as (R1 & K1 & _).
      destruct (IH6 _ _ _ E2) as ((l2 & R2 & S2) & C2).
      pose proof (matched_closing_brace _ C2 E3) as R3.
      eexists. split; [exact (reads_app R1 (reads_app R2 R3))|].
      simpl. constructor; assumption.
    + (* compound_statement_loop *)
      intros s s' u H. cbn [compound_statement_loop] in H.
      bind_inv H continue s0 E0. pose proof E0 as E0'. apply at_cursor_ok in E0'.
      destruct E0' as [-> _]. destruct continue.
      * bind_inv H u1 s1 E1.
        destruct (IH1 _ _ _ E1) as [(l1 & R1 & S1) | [-> (current & Hn & K & D)]].
        -- destruct (IH6 _ _ _ H) as ((l2 & R2 & S2) & C2). split; [|exact C2].
           exists (l1 ++ l2). split; [exact (reads_app R1 R2) | constructor; assumption].
        -- exfalso. apply (@compound_statement_loop_stray fuel _ _ E0 Hn K D).
           rewrite H. exact I.
      * apply ret_ok in H. destruct H as [_ ->]. split.
        -- exists []. split; [apply reads_nil | constructor].
        -- eapply at_cursor_false; eauto.
Qed.

Lemma program_loop_reads (fuel : nat) :
  forall s s' u,
    program_loop tokens fuel s = Ok u s' ->
    (exists l, reads tokens l s s' /\ items l)
    /\ forall t, nth_error tokens (current_token s') = Some t -> not_closing_brace t = false.
Proof.
  induction fuel as [|fuel IH]; intros s s' u H; cbn [program_loop] in H; [discriminate|].
  bind_inv H continue s0 E0. pose proof E0 as E0'. apply at_cursor_ok in E0'.
  destruct E0' as [-> _]. destruct continue.
  - bind_inv H i s0 E00. cbv [get_current_token] in E00. injection E00 as <- <-.
    bind_inv H token s1 E1. apply index_ok in E1. destruct E1 as [-> Hcur].
    bind_inv H u1 s1 E1.
    destruct (IH _ _ _ H) as ((l2 & R2 & S2) & C2). split; [|exact C2].
    destruct (Kind_eqb (fst token) KEYWORD && Value_is (snd token) "let") eqn:L.
    + apply andb_prop in L. destruct L as [L1 L2].
      assert (Hlet : nth_error tokens (current_token s) = Some (KEYWORD, VStr "let")).
      { rewrite Hcur. f_equal. apply token_is; assumption. }
      destruct (@parse_declaration_reads _ _ _ _ Hlet E1) as (l1 & R1 & D1).
      exists (l1 ++ l2). split; [exact (reads_app R1 R2) | apply items_declaration; assumption].
    + destruct (proj1 (statements_read fuel) _ _ _ E1)
        as [(l1 & R1 & S1) | [-> (current & Hn & K & D)]].
      * exists (l1 ++ l2). split; [exact (reads_app R1 R2) | apply items_statement; assumption].
      * exfalso. assert (current = token) by congruence. subst current.
        rewrite K in L. cbn [Kind_eqb] in L.
        apply (@program_loop_stray fuel _ _ E0 Hn K D).
        -- destruct (Kind_eq_dec KEYWORD KEYWORD); [exact L | contradiction].
        -- rewrite H. exact I.
  - apply ret_ok in H. destruct H as [_ ->]. split.
    + exists []. split; [apply reads_nil | constructor].
    + eapply at_cursor_false; eauto.
Qed.

Lemma reads_from_start (l : list Token) (s' : state) :
  reads tokens l init s' -> firstn (current_token s') tokens = l.
Proof.
  intros [A B]. simpl in A, B. rewrite B.
  assert (F : firstn (List.length l) (l ++ skipn (current_token s') tokens) = l).
  { rewrite firstn_app, Nat.sub_diag, firstn_all. simpl. apply app_nil_r. }
  rewrite <- A in F. exact F.
Qed.

(** The tokens an accepted program was read from are a program of the
    grammar. *)
Lemma parse_program_reads (fuel : nat) (s' : state) (u : unit) :
  parse_program tokens fuel init = Ok u s' ->
  program (firstn (current_token s') tokens).
Proof.
  intros H. unfold parse_program in H.
  bind_inv H open s1 E1. bind_inv H u2 s2 E2. bind_inv H close s3 E3.
  apply ret_ok in H. destruct H as [_ ->].
  apply match_reads in E1. destruct E1 as (R1 & K1 & _).
  destruct (program_loop_reads _ _ E2) as ((l2 & R2 & S2) & C2).
  pose proof (matched_closing_brace _ C2 E3) as R3.
  rewrite (reads_from_start (reads_app R1 (reads_app R2 R3))).
  exists open, l2. repeat split; assumption.
Qed.

(** ** What the grammar derives is accepted *)

Lemma bind_after {A B : Type} (m : M A) (f : A -> M B) (s s1 : state) (a : A) :
  m s = Ok a s1 -> bind m f s = f a s1.
Proof. intros H. unfold bind. rewrite H. reflexivity. Qed.

Ltac run E :=
  match type of E with
  | ?m ?s = Ok ?a ?s1 => rewrite (@bind_after _ _ m _ s s1 a E)
  end.

Lemma skipn_head {X : Type} (n : nat) :
  forall (l : list X) (x : X) (rest : list X),
    skipn n l = x :: rest -> nth_error l n = Some x.
Proof.
  induction n as [|n IH]; intros [|y l] x rest H; simpl in *; try discriminate.
  - congruence.
  - eapply IH; eauto.
Qed.

Lemma at_cursor_head (p : Token -> bool) (s : state) :
  at_cursor tokens p s = Ok (head_is p (skipn (current_token s) tokens)) s.
Proof.
  unfold at_cursor, bind, get_current_token.
  destruct (nth_error tokens (current_token s)) as [t|] eqn:E.
  - rewrite (skipn_nth_error _ _ E). reflexivity.
  - apply nth_error_None in E. rewrite skipn_all2 by exact E. reflexivity.
Qed.

Lemma after_reading (l rest : list Token) (s s' : state) :
  skipn (current_token s) tokens = l ++ rest -> reads tokens l s s' ->
  skipn (current_token s') tokens = rest.
Proof. intros A [R _]. rewrite R in A. apply app_inv_head in A. exact A. Qed.

Lemma Kind_eqb_same (k : Kind) : Kind_eqb k k = true.
Proof. unfold Kind_eqb. destruct (Kind_eq_dec k k); [reflexivity | contradiction]. Qed.

Lemma match_ahead (k : Kind) (s : state) (t : Token) (rest : list Token) :
  skipn (current_token s) tokens = t :: rest -> fst t = k ->
  exists s1, match_ tokens k s = Ok t s1 /\ reads tokens [t] s s1.
Proof.
  intros A K. pose proof (@skipn_head _ _ _ _ _ A) as Hn.
  assert (E : match_ tokens k s
              = Ok t {| current_token := current_token s + 1;
                        symbol_table := symbol_table s |}).
  { unfold match_. unfold bind at 1. cbv [get_current_token].
    rewrite (@bind_after _ _ _ _ _ _ _ (at_cursor_head _ s)). rewrite A. cbn [head_is].
    rewrite K, Kind_eqb_same.
    unfold index. rewrite Hn. reflexivity. }
  eexists. split; [exact E|]. apply match_reads in E. apply E.
Qed.

Lemma reads_same_cursor (l : list Token) (s s1 s' : state) :
  reads tokens l s s1 -> current_token s' = current_token s1 -> reads tokens l s s'.
Proof. unfold reads. intros [A B] C. rewrite C. auto. Qed.

Lemma operand_test (t : Token) :
  operand (fst t) = true ->
  Kind_eqb (fst t) IDENTIFIER || Kind_eqb (fst t) NUMBER = true.
Proof. destruct t as [[] v]; simpl; intros H; try discriminate H; reflexivity. Qed.

Lemma expression_accepted (e : list Token) :
  expression e ->
  forall s rest,
    skipn (current_token s) tokens = e ++ rest ->
    head_is (fun token => Kind_eqb (fst token) REL_OP) rest = false ->
    accepted tokens e (parse_expression tokens) s.
Proof.
  induction 1 as [t O|t o e O K X IH]; intros s rest A N.
  - destruct (@match_ahead _ _ _ _ A eq_refl) as (s1 & E1 & R1).
    exists 1, (Leaf (snd t)), s1. split; [exact R1|].
    intros [|f] Hf; [lia|]. cbn [parse_expression].
    unfold bind at 1. cbv [get_current_token].
    pose proof (@skipn_head _ _ _ _ _ A) as Hn.
    unfold index at 1. rewrite Hn. unfold bind at 1. cbv [ret].
    rewrite (@operand_test _ O). run E1.
    rewrite (@bind_after _ _ _ _ _ _ _ (at_cursor_head _ s1)).
    rewrite (@after_reading _ _ _ _ A R1), N. reflexivity.
  - destruct (@match_ahead _ _ _ _ A eq_refl) as (s1 & E1 & R1).
    pose proof (@after_reading [t] _ _ _ A R1) as A1.
    destruct (@match_ahead _ _ _ _ A1 K) as (s2 & E2 & R2).
    pose proof (@after_reading [o] _ _ _ A1 R2) as A2.
    destruct (IH _ _ A2 N) as (g & v & s3 & R3 & G).
    exists (S g), (Comparison (snd t) (snd o) v), s3.
    split; [exact (reads_app R1 (reads_app R2 R3))|].
    intros [|f] Hf; [lia|]. cbn [parse_expression].
    unfold bind at 1. cbv [get_current_token].
    pose proof (@skipn_head _ _ _ _ _ A) as Hn.
    unfold index at 1. rewrite Hn. unfold bind at 1. cbv [ret].
    rewrite (@operand_test _ O). run E1.
    rewrite (@bind_after _ _ _ _ _ _ _ (at_cursor_head _ s1)).
    rewrite A1. cbn [head_is]. rewrite K, Kind_eqb_same. run E2.
    run (G f ltac:(lia)). reflexivity.
Qed.

Ltac eat A K s1 E R A1 :=
  destruct (@match_ahead _ _ _ _ A K) as (s1 & E & R);
  pose proof (@after_reading [_] _ _ _ A R) as A1.

Lemma assignment_accepted (name : Value) (asg semi : Token) (e : list Token) :
  fst asg = ASSIGN -> expression e -> fst semi = DELIMITER ->
  forall s rest,
    skipn (current_token s) tokens = ((IDENTIFIER, name) :: asg :: e ++ [semi]) ++ rest ->
    accepted tokens ((IDENTIFIER, name) :: asg :: e ++ [semi]) (parse_assignment tokens) s.
Proof.
  intros K1 X K2 s rest A.
  assert (A0 : skipn (current_token s) tokens
               = [(IDENTIFIER, name)] ++ [asg] ++ e ++ [semi] ++ rest).
  { rewrite A. simpl. rewrite <- app_assoc. reflexivity. }
  eat A0 (eq_refl IDENTIFIER) s1 E1 R1 A1. eat A1 K1 s2 E2 R2 A2.
  assert (N : head_is (fun token => Kind_eqb (fst token) REL_OP) ([semi] ++ rest) = false).
  { cbn. rewrite K2. reflexivity. }
  destruct (@expression_accepted _ X _ _ A2 N) as (g & v & s3 & R3 & G).
  pose proof (@after_reading e _ _ _ A2 R3) as A3.
  eat A3 K2 s4 E4 R4 A4.
  pose proof (reads_app R1 (reads_app R2 (reads_app R3 R4))) as R.
  destruct (dict_get name (symbol_table s4)) as [entry|] eqn:D.
  - exists g, tt. eexists. split; [eapply reads_same_cursor; [exact R|]|].
    2:{ intros f Hf. unfold parse_assignment. run E1. run E2. run (G f Hf). run E4.
        unfold bind, get_symbol_table. cbn [snd]. rewrite D. reflexivity. }
    reflexivity.
  - exists g, tt. eexists. split; [eapply reads_same_cursor; [exact R|]|].
    2:{ intros f Hf. unfold parse_assignment. run E1. run E2. run (G f Hf). run E4.
        unfold bind, get_symbol_table. cbn [snd]. rewrite D. reflexivity. }
    reflexivity.
Qed.

Lemma declaration_accepted (d : list Token) :
  declaration d ->
  forall s rest,
    skipn (current_token s) tokens = d ++ rest ->
    accepted tokens d (parse_declaration tokens) s.
Proof.
  intros [name asg semi e K1 X K2] s rest A.
  assert (A0 : skipn (current_token s) tokens
               = [(KEYWORD, VStr "let")] ++ [(IDENTIFIER, name)] ++ [asg] ++ e
                   ++ [semi] ++ rest).
  { rewrite A. simpl. rewrite <- app_assoc. reflexivity. }
  eat A0 (eq_refl KEYWORD) s0 E0 R0 A0'.
  eat A0' (eq_refl IDENTIFIER) s1 E1 R1 A1. eat A1 K1 s2 E2 R2 A2.
  assert (N : head_is (fun token => Kind_eqb (fst token) REL_OP) ([semi] ++ rest) = false).
  { cbn. rewrite K2. reflexivity. }
  destruct (@expression_accepted _ X _ _ A2 N) as (g & v & s3 & R3 & G).
  pose proof (@after_reading e _ _ _ A2 R3) as A3.
  eat A3 K2 s4 E4 R4 A4.
  pose proof (reads_app R0 (reads_app R1 (reads_app R2 (reads_app R3 R4)))) as R.
  exists g, tt. eexists. split; [eapply reads_same_cursor; [exact R|]|].
  2:{ intros f Hf. unfold parse_declaration. run E0. run E1. run E2. run (G f Hf). run E4.
      unfold bind, get_symbol_table. reflexivity. }
  reflexivity.
Qed.

Lemma input_accepted (name : Value) (semi : Token) :
  fst semi = DELIMITER ->
  forall s rest,
    skipn (current_token s) tokens
    = [(KEYWORD, VStr "input"); (IDENTIFIER, name); semi] ++ rest ->
    accepted tokens [(KEYWORD, VStr "input"); (IDENTIFIER, name); semi]
      (fun _ => parse_input tokens) s.
Proof.
  intros K2 s rest A.
  assert (A0 : skipn (current_token s) tokens
               = [(KEYWORD, VStr "input")] ++ [(IDENTIFIER, name)] ++ [semi] ++ rest)
    by exact A.
  eat A0 (eq_refl KEYWORD) s1 E1 R1 A1. eat A1 (eq_refl IDENTIFIER) s2 E2 R2 A2.
  eat A2 K2 s3 E3 R3 A3.
  exists 0, tt, s3. split; [exact (reads_app R1 (reads_app R2 R3))|].
  intros f _. unfold parse_input. run E1. run E2. run E3. reflexivity.
Qed.

Lemma output_accepted (semi : Token) (e : list Token) :
  expression e -> fst semi = DELIMITER ->
  forall s rest,
    skipn (current_token s) tokens = ((KEYWORD, VStr "output") :: e ++ [semi]) ++ rest ->
    accepted tokens ((KEYWORD, VStr "output") :: e ++ [semi]) (parse_output tokens) s.
Proof.
  intros X K2 s rest A.
  assert (A0 : skipn (current_token s) tokens
               = [(KEYWORD, VStr "output")] ++ e ++ [semi] ++ rest).
  { rewrite A. simpl. rewrite <- app_assoc. reflexivity. }
  eat A0 (eq_refl KEYWORD) s1 E1 R1 A1.
  assert (N : head_is (fun token => Kind_eqb (fst token) REL_OP) ([semi] ++ rest) = false).
  { cbn. rewrite K2. reflexivity. }
  destruct (@expression_accepted _ X _ _ A1 N) as (g & v & s2 & R2 & G).
  pose proof (@after_reading e _ _ _ A1 R2) as A2.
  eat A2 K2 s3 E3 R3 A3.
  exists g, tt, s3. split; [exact (reads_app R1 (reads_app R2 R3))|].
  intros f Hf. unfold parse_output. run E1. run (G f Hf). run E3. reflexivity.
Qed.

(** The branch [parse_statement] takes, from the token at the cursor *)
Lemma ahead_inside (s : state) (t : Token) (rest : list Token) :
  skipn (current_token s) tokens = t :: rest ->
  (List.length tokens <=? current_token s) = false.
Proof.
  intros A. apply Nat.leb_gt. apply nth_error_Some.
  rewrite (@skipn_head _ _ _ _ _ A). discriminate.
Qed.

Lemma statement_to_assignment (f : nat) (s : state) (name : Value) (asg : Token)
      (rest : list Token) :
  skipn (current_token s) tokens = (IDENTIFIER, name) :: asg :: rest ->
  fst asg = ASSIGN ->
  parse_statement tokens (S f) s = parse_assignment tokens f s.
Proof.
  intros A K. cbn [parse_statement]. unfold bind at 1. cbv [get_current_token].
  rewrite (@ahead_inside _ _ _ A).
  assert (Hn : nth_error tokens (current_token s) = Some (IDENTIFIER, name))
    by exact (@skipn_head _ _ _ _ _ A).
  assert (Hn1 : nth_error tokens (current_token s + 1) = Some asg).
  { assert (A' : skipn (S (current_token s)) tokens = asg :: rest)
      by (rewrite (skipn_nth_error _ _ Hn) in A; congruence).
    rewrite Nat.add_1_r. exact (@skipn_head _ _ _ _ _ A'). }
  unfold bind, index. rewrite Hn. cbv [ret]. cbn [fst]. rewrite Kind_eqb_same.
  rewrite Hn1. rewrite K, Kind_eqb_same. reflexivity.
Qed.

Lemma statement_to_keyword (f : nat) (s : state) (v : Value) (rest : list Token) :
  skipn (current_token s) tokens = (KEYWORD, v) :: rest ->
  parse_statement tokens (S f) s
  = (if Value_is v "if" then parse_conditional tokens f
     else if Value_is v "for" then parse_fixed_loop tokens f
     else if Value_is v "do" then parse_while_loop tokens f
     else if Value_is v "input" then parse_input tokens
     else if Value_is v "output" then parse_output tokens f
     else ret tt) s.
Proof.
  intros A. cbn [parse_statement]. unfold bind at 1. cbv [get_current_token].
  rewrite (@ahead_inside _ _ _ A).
  assert (Hn : nth_error tokens (current_token s) = Some (KEYWORD, v))
    by exact (@skipn_head _ _ _ _ _ A).
  unfold bind, index. rewrite Hn. cbv [ret]. cbn [fst snd]. reflexivity.
Qed.

Lemma statement_to_block (f : nat) (s : state) (rest : list Token) :
  skipn (current_token s) tokens = (DELIMITER, VStr "{") :: rest ->
  parse_statement tokens (S f) s = parse_compound_statement tokens f s.
Proof.
  intros A. cbn [parse_statement]. unfold bind at 1. cbv [get_current_token].
  rewrite (@ahead_inside _ _ _ A).
  assert (Hn : nth_error tokens (current_token s) = Some (DELIMITER, VStr "{"))
    by exact (@skipn_head _ _ _ _ _ A).
  unfold bind, index. rewrite Hn. cbv [ret]. cbn [fst snd]. reflexivity.
Qed.

(** The first token of a statement, and the tests it passes *)
Lemma statement_starts (l : list Token) :
  statement l -> exists t l', l = t :: l' /\ starter t = true.
Proof. destruct 1; eexists _, _; split; reflexivity. Qed.

Lemma statements_start (l : list Token) :
  statements l -> l = [] \/ exists t l', l = t :: l' /\ starter t = true.
Proof.
  destruct 1 as [|st rest S1 S2]; [left; reflexivity | right].
  destruct (statement_starts S1) as (t & l' & -> & T). exists t, (l' ++ rest). auto.
Qed.

Lemma items_start (l : list Token) :
  items l ->
  l = [] \/ exists t l', l = t :: l' /\ (starter t = true \/ t = (KEYWORD, VStr "let")).
Proof.
  destruct 1 as [|d rest D I|st rest S1 I]; [left; reflexivity | right | right].
  - destruct D. eexists _, _. split; [reflexivity | right; reflexivity].
  - destruct (statement_starts S1) as (t & l' & -> & T). exists t, (l' ++ rest). auto.
Qed.

Lemma dispatched_spelling (v : Value) :
  dispatched v = true ->
  Value_is v "else" = false /\ Value_is v "}" = false /\ Value_is v "let" = false.
Proof.
  unfold dispatched. destruct v as [n|x|w]; simpl; try discriminate. intros H.
  repeat (apply orb_prop in H; destruct H as [H|H]);
    apply String.eqb_eq in H; subst w; repeat split; reflexivity.
Qed.

Lemma starter_passes (t : Token) :
  plain t = true -> starter t = true \/ t = (KEYWORD, VStr "let") ->
  Kind_eqb (fst t) REL_OP = false
  /\ Value_is (snd t) "else" = false
  /\ not_closing_brace t = true.
Proof.
  intros P [T | ->]; [|repeat split; reflexivity].
  destruct t as [k v]. unfold starter, plain, not_closing_brace in *. cbn [fst snd] in *.
  destruct k; try discriminate T.
  - destruct (@dispatched_spelling _ T) as (E1 & E2 & _). rewrite E1, E2. auto.
  - rewrite Kind_eqb_same in P. cbn [andb] in P. apply negb_true_iff in P.
    apply orb_false_elim in P. destruct P as [P1 P2]. rewrite P1, P2. auto.
  - destruct v as [n|x|w]; simpl in T; try discriminate T.
    apply String.eqb_eq in T. subst w. auto.
Qed.

Lemma starter_no_let (t : Token) :
  starter t = true -> Kind_eqb (fst t) KEYWORD && Value_is (snd t) "let" = false.
Proof.
  destruct t as [k v]. unfold starter. cbn [fst snd].
  destruct k; try discriminate; try reflexivity.
  intros T. destruct (@dispatched_spelling _ T) as (_ & _ & E). rewrite E.
  apply andb_false_r.
Qed.

Lemma block_after_statements (open : Token) (body : list Token) :
  fst open = DELIMITER ->
  (forall s rest,
      skipn (current_token s) tokens = body ++ (DELIMITER, VStr "}") :: rest ->
      accepted tokens body (compound_statement_loop tokens) s) ->
  forall s rest,
    skipn (current_token s) tokens = (open :: body ++ [(DELIMITER, VStr "}")]) ++ rest ->
    accepted tokens (open :: body ++ [(DELIMITER, VStr "}")])
      (parse_compound_statement tokens) s.
Proof.
  intros K H s rest A.
  assert (A0 : skipn (current_token s) tokens
               = [open] ++ body ++ [(DELIMITER, VStr "}")] ++ rest).
  { rewrite A. simpl. rewrite <- app_assoc. reflexivity. }
  eat A0 K s1 E1 R1 A1.
  destruct (H _ _ A1) as (g & u2 & s2 & R2 & G).
  pose proof (@after_reading body _ _ _ A1 R2) as A2.
  eat A2 (eq_refl DELIMITER) s3 E3 R3 A3.
  exists (S g), tt, s3. split; [exact (reads_app R1 (reads_app R2 R3))|].
  intros [|f] Hf; [lia|]. cbn [parse_compound_statement].
  run E1. run (G f ltac:(lia)). run E3. reflexivity.
Qed.

Scheme statement_minimal := Minimality for statement Sort Prop
  with block_minimal := Minimality for block Sort Prop
  with statements_minimal := Minimality for statements Sort Prop.

Combined Scheme grammar_minimal from statement_minimal, block_minimal, statements_minimal.

Section Accepted.

Hypothesis plain_tokens : forallb plain tokens = true.

Lemma ahead_plain (s : state) (l : list Token) :
  skipn (current_token s) tokens = l -> forall t, In t l -> plain t = true.
Proof.
  intros A t Ht. apply (proj1 (forallb_forall plain tokens) plain_tokens).
  rewrite <- (firstn_skipn (current_token s) tokens), A. apply in_or_app. auto.
Qed.

Lemma grammar_accepted :
  (forall l, statement l ->
     forall s rest,
       skipn (current_token s) tokens = l ++ rest ->
       head_is (fun token => Kind_eqb (fst token) REL_OP) rest = false ->
       head_is (fun token => Value_is (snd token) "else") rest = false ->
       accepted tokens l (parse_statement tokens) s)
  /\ (forall l, block l ->
        forall s rest,
          skipn (current_token s) tokens = l ++ rest ->
          accepted tokens l (parse_compound_statement tokens) s)
  /\ (forall l, statements l ->
        forall s rest,
          skipn (current_token s) tokens = l ++ (DELIMITER, VStr "}") :: rest ->
          accepted tokens l (compound_statement_loop tokens) s).
Proof.
  apply grammar_minimal.
  - (* assignment *)
    intros name asg semi e K1 X K2 s rest A _ _.
    destruct (@assignment_accepted name asg semi e K1 X K2 _ _ A) as (g & u & s' & R & G).
    exists (S g), tt, s'. split; [exact R|]. intros [|f] Hf; [lia|].
    rewrite (@statement_to_assignment f s name asg _ A K1). destruct u. apply G. lia.
  - (* if *)
    intros kw cond yes X K B IHB s rest A NR NE.
    assert (A0 : skipn (current_token s) tokens
                 = [(KEYWORD, VStr "if")] ++ cond ++ [kw] ++ yes ++ rest).
    { rewrite A. simpl. rewrite <- !app_assoc. reflexivity. }
    pose proof (@statement_to_keyword) as D.
    eat A0 (eq_refl KEYWORD) s1 E1 R1 A1.
    assert (N : head_is (fun token => Kind_eqb (fst token) REL_OP) ([kw] ++ yes ++ rest)
                = false).
    { cbn. rewrite K. reflexivity. }
    destruct (@expression_accepted _ X _ _ A1 N) as (g2 & v & s2 & R2 & G2).
    pose proof (@after_reading cond _ _ _ A1 R2) as A2.
    eat A2 K s3 E3 R3 A3.
    destruct (IHB _ _ A3) as (g4 & u4 & s4 & R4 & G4).
    pose proof (@after_reading yes _ _ _ A3 R4) as A4.
    exists (2 + Nat.max g2 g4), tt, s4.
    split; [exact (reads_app R1 (reads_app R2 (reads_app R3 R4)))|].
    intros [|[|f]] Hf; try lia.
    rewrite (D (S f) s _ _ A0). cbn [Value_is String.eqb Ascii.eqb Bool.eqb].
    cbn [parse_conditional].
    run E1. run (G2 f ltac:(lia)). run E3. run (G4 f ltac:(lia)).
    rewrite (@bind_after _ _ _ _ _ _ _ (at_cursor_head _ s4)). rewrite A4, NE.
    reflexivity.
  - (* if, else *)
    intros kw cond yes no X K B IHB B' IHB' s rest A NR NE.
    assert (A0 : skipn (current_token s) tokens
                 = [(KEYWORD, VStr "if")] ++ cond ++ [kw] ++ yes
                     ++ [(KEYWORD, VStr "else")] ++ no ++ rest).
    { rewrite A. simpl. rewrite <- !app_assoc. simpl. rewrite <- !app_assoc. reflexivity. }
    pose proof (@statement_to_keyword) as D.
    eat A0 (eq_refl KEYWORD) s1 E1 R1 A1.
    assert (N : head_is (fun token => Kind_eqb (fst token) REL_OP)
                  ([kw] ++ yes ++ [(KEYWORD, VStr "else")] ++ no ++ rest) = false).
    { cbn. rewrite K. reflexivity. }
    destruct (@expression_accepted _ X _ _ A1 N) as (g2 & v & s2 & R2 & G2).
    pose proof (@after_reading cond _ _ _ A1 R2) as A2.
    eat A2 K s3 E3 R3 A3.
    destruct (IHB _ _ A3) as (g4 & u4 & s4 & R4 & G4).
    pose proof (@after_reading yes _ _ _ A3 R4) as A4.
    eat A4 (eq_refl KEYWORD) s5 E5 R5 A5.
    destruct (IHB' _ _ A5) as (g6 & u6 & s6 & R6 & G6).
    exists (2 + Nat.max g2 (Nat.max g4 g6)), tt, s6. split.
    { exact (reads_app R1 (reads_app R2 (reads_app R3 (reads_app R4
               (reads_app R5 R6))))). }
    intros [|[|f]] Hf; try lia.
    rewrite (D (S f) s _ _ A0). cbn [Value_is String.eqb Ascii.eqb Bool.eqb].
    cbn [parse_conditional].
    run E1. run (G2 f ltac:(lia)). run E3. run (G4 f ltac:(lia)).
    rewrite (@bind_after _ _ _ _ _ _ _ (at_cursor_head _ s4)). rewrite A4.
    cbn [head_is app snd Value_is String.eqb Ascii.eqb Bool.eqb].
    run E5. destruct u6. apply G6. lia.
  - (* for *)
    intros name asg kw from to body K1 X1 K X2 B IHB s rest A NR NE.
    assert (A0 : skipn (current_token s) tokens
                 = [(KEYWORD, VStr "for")] ++ [(IDENTIFIER, name)] ++ [asg] ++ from
                     ++ [kw] ++ to ++ body ++ rest).
    { rewrite A. simpl. rewrite <- !app_assoc. simpl. rewrite <- !app_assoc. reflexivity. }
    pose proof (@statement_to_keyword) as D.
    eat A0 (eq_refl KEYWORD) s1 E1 R1 A1. eat A1 (eq_refl IDENTIFIER) s2 E2 R2 A2.
    eat A2 K1 s3 E3 R3 A3.
    assert (N4 : head_is (fun token => Kind_eqb (fst token) REL_OP)
                   ([kw] ++ to ++ body ++ rest) = false).
    { cbn. rewrite K. reflexivity. }
    destruct (@expression_accepted _ X1 _ _ A3 N4) as (g4 & v4 & s4 & R4 & G4).
    pose proof (@after_reading from _ _ _ A3 R4) as A4.
    eat A4 K s5 E5 R5 A5.
    assert (N6 : head_is (fun token => Kind_eqb (fst token) REL_OP) (body ++ rest) = false).
    { destruct B as [open inner KO SI]. cbn. rewrite KO. reflexivity. }
    destruct (@expression_accepted _ X2 _ _ A5 N6) as (g6 & v6 & s6 & R6 & G6).
    pose proof (@after_reading to _ _ _ A5 R6) as A6.
    destruct (IHB _ _ A6) as (g7 & u7 & s7 & R7 & G7).
    exists (2 + Nat.max g4 (Nat.max g6 g7)), tt, s7. split.
    { exact (reads_app R1 (reads_app R2 (reads_app R3 (reads_app R4
               (reads_app R5 (reads_app R6 R7)))))). }
    intros [|[|f]] Hf; try lia.
    rewrite (D (S f) s _ _ A0). cbn [Value_is String.eqb Ascii.eqb Bool.eqb].
    cbn [parse_fixed_loop].
    run E1. run E2. run E3. run (G4 f ltac:(lia)). run E5. run (G6 f ltac:(lia)).
    destruct u7. apply G7. lia.
  - (* do *)
    intros kw body cond B IHB K X s rest A NR NE.
    assert (A0 : skipn (current_token s) tokens
                 = [(KEYWORD, VStr "do")] ++ body ++ [kw] ++ cond ++ rest).
    { rewrite A. simpl. rewrite <- !app_assoc. reflexivity. }
    pose proof (@statement_to_keyword) as D.
    eat A0 (eq_refl KEYWORD) s1 E1 R1 A1.
    destruct (IHB _ _ A1) as (g2 & u2 & s2 & R2 & G2).
    pose proof (@after_reading body _ _ _ A1 R2) as A2.
    eat A2 K s3 E3 R3 A3.
    destruct (@expression_accepted _ X _ _ A3 NR) as (g4 & v4 & s4 & R4 & G4).
    exists (2 + Nat.max g2 g4), tt, s4.
    split; [exact (reads_app R1 (reads_app R2 (reads_app R3 R4)))|].
    intros [|[|f]] Hf; try lia.
    rewrite (D (S f) s _ _ A0). cbn [Value_is String.eqb Ascii.eqb Bool.eqb].
    cbn [parse_while_loop].
    run E1. run (G2 f ltac:(lia)). run E3. run (G4 f ltac:(lia)). reflexivity.
  - (* input *)
    intros name semi K s rest A _ _.
    pose proof (@statement_to_keyword) as D.
    destruct (@input_accepted name semi K _ _ A) as (g & u & s' & R & G).
    exists 1, tt, s'. split; [exact R|]. intros [|f] Hf; [lia|].
    rewrite (D f s _ _ A). cbn [Value_is String.eqb Ascii.eqb Bool.eqb].
    destruct u. apply (G g). lia.
  - (* output *)
    intros semi e X K s rest A _ _.
    pose proof (@statement_to_keyword) as D.
    destruct (@output_accepted semi e X K _ _ A) as (g & u & s' & R & G).
    exists (S g), tt, s'. split; [exact R|]. intros [|f] Hf; [lia|].
    rewrite (D f s _ _ A). cbn [Value_is String.eqb Ascii.eqb Bool.eqb].
    destruct u. apply G. lia.
  - (* a block as a statement *)
    intros body SB IHS s rest A _ _.
    destruct (@block_after_statements (DELIMITER, VStr "{") body eq_refl IHS _ _ A)
      as (g & u & s' & R & G).
    exists (S g), tt, s'. split; [exact R|]. intros [|f] Hf; [lia|].
    rewrite (@statement_to_block f s _ A). destruct u. apply G. lia.
  - (* a block *)
    intros open body K SB IHS s rest A.
    exact (@block_after_statements open body K IHS _ _ A).
  - (* no statement *)
    intros s rest A. exists 1, tt, s. split; [apply reads_nil|].
    intros [|f] Hf; [lia|]. cbn [compound_statement_loop].
    rewrite (@bind_after _ _ _ _ _ _ _ (at_cursor_head _ s)). rewrite A. reflexivity.
  - (* a statement and more *)
    intros st more S1 IH1 S2 IH2 s rest A.
    assert (A0 : skipn (current_token s) tokens
                 = st ++ more ++ (DELIMITER, VStr "}") :: rest).
    { rewrite A, <- app_assoc. reflexivity. }
    destruct (statement_starts S1) as (t & st' & Est & T).
    assert (P : forall x, In x (st ++ more ++ (DELIMITER, VStr "}") :: rest) ->
                          plain x = true) by exact (ahead_plain _ A0).
    assert (Pt : plain t = true) by (apply P; rewrite Est; left; reflexivity).
    destruct (@starter_passes _ Pt (or_introl T)) as (_ & _ & C).
    assert (N : head_is (fun token => Kind_eqb (fst token) REL_OP)
                  (more ++ (DELIMITER, VStr "}") :: rest) = false
                /\ head_is (fun token => Value_is (snd token) "else")
                     (more ++ (DELIMITER, VStr "}") :: rest) = false).
    { destruct (statements_start S2) as [-> | (t2 & more' & -> & T2)];
        [split; reflexivity|].
      assert (P2 : plain t2 = true).
      { apply P. apply in_or_app. right. left. reflexivity. }
      destruct (@starter_passes _ P2 (or_introl T2)) as (N1 & N2 & _). cbn. auto. }
    destruct N as [NR NE].
    destruct (IH1 _ _ A0 NR NE) as (g1 & u1 & s1 & R1 & G1).
    pose proof (@after_reading st _ _ _ A0 R1) as A1.
    destruct (IH2 _ _ A1) as (g2 & u2 & s2 & R2 & G2).
    exists (S (Nat.max g1 g2)), tt, s2. split; [exact (reads_app R1 R2)|].
    intros [|f] Hf; [lia|]. cbn [compound_statement_loop].
    rewrite (@bind_after _ _ _ _ _ _ _ (at_cursor_head _ s)). rewrite A0, Est.
    cbn [head_is app]. rewrite C.
    run (G1 f ltac:(lia)). destruct u2. apply G2. lia.
Qed.

Lemma items_accepted (l : list Token) :
  items l ->
  forall s rest,
    skipn (current_token s) tokens = l ++ (DELIMITER, VStr "}") :: rest ->
    accepted tokens l (program_loop tokens) s.
Proof.
  induction 1 as [|d more D I IH|st more S1 I IH]; intros s rest A.
  - exists 1, tt, s. split; [apply reads_nil|].
    intros [|f] Hf; [lia|]. cbn [program_loop].
    rewrite (@bind_after _ _ _ _ _ _ _ (at_cursor_head _ s)). rewrite A. reflexivity.
  - assert (A0 : skipn (current_token s) tokens
                 = d ++ more ++ (DELIMITER, VStr "}") :: rest).
    { rewrite A, <- app_assoc. reflexivity. }
    destruct (@declaration_accepted d D _ _ A0) as (g1 & u1 & s1 & R1 & G1).
    pose proof (@after_reading d _ _ _ A0 R1) as A1.
    destruct (IH _ _ A1) as (g2 & u2 & s2 & R2 & G2).
    exists (S (Nat.max g1 g2)), tt, s2. split; [exact (reads_app R1 R2)|].
    intros [|f] Hf; [lia|]. cbn [program_loop].
    rewrite (@bind_after _ _ _ _ _ _ _ (at_cursor_head _ s)). rewrite A0.
    destruct D as [name asg semi e K1 X K2]. cbn [head_is app].
    change (not_closing_brace (KEYWORD, VStr "let")) with true. cbv iota.
    unfold bind at 1. cbv [get_current_token].
    assert (Hn : nth_error tokens (current_token s) = Some (KEYWORD, VStr "let"))
      by exact (@skipn_head _ _ _ _ _ A0).
    unfold index at 1. rewrite Hn. unfold bind at 1. cbv [ret].
    change (Kind_eqb (fst (KEYWORD, VStr "let")) KEYWORD
            && Value_is (snd (KEYWORD, VStr "let")) "let") with true. cbv iota.
    run (G1 f ltac:(lia)). destruct u2. apply G2. lia.
  - assert (A0 : skipn (current_token s) tokens
                 = st ++ more ++ (DELIMITER, VStr "}") :: rest).
    { rewrite A, <- app_assoc. reflexivity. }
    destruct (statement_starts S1) as (t & st' & Est & T).
    assert (P : forall x, In x (st ++ more ++ (DELIMITER, VStr "}") :: rest) ->
                          plain x = true) by exact (ahead_plain _ A0).
    assert (Pt : plain t = true) by (apply P; rewrite Est; left; reflexivity).
    destruct (@starter_passes _ Pt (or_introl T)) as (_ & _ & C).
    assert (N : head_is (fun token => Kind_eqb (fst token) REL_OP)
                  (more ++ (DELIMITER, VStr "}") :: rest) = false
                /\ head_is (fun token => Value_is (snd token) "else")
                     (more ++ (DELIMITER, VStr "}") :: rest) = false).
    { destruct (items_start I) as [-> | (t2 & more' & -> & T2)];
        [split; reflexivity|].
      assert (P2 : plain t2 = true).
      { apply P. apply in_or_app. right. left. reflexivity. }
      destruct (@starter_passes _ P2 T2) as (N1 & N2 & _). cbn. auto. }
    destruct N as [NR NE].
    destruct (proj1 grammar_accepted _ S1 _ _ A0 NR NE) as (g1 & u1 & s1 & R1 & G1).
    pose proof (@after_reading st _ _ _ A0 R1) as A1.
    destruct (IH _ _ A1) as (g2 & u2 & s2 & R2 & G2).
    exists (S (Nat.max g1 g2)), tt, s2. split; [exact (reads_app R1 R2)|].
    intros [|f] Hf; [lia|]. cbn [program_loop].
    rewrite (@bind_after _ _ _ _ _ _ _ (at_cursor_head _ s)). rewrite A0, Est.
    cbn [head_is app]. rewrite C.
    unfold bind at 1. cbv [get_current_token].
    assert (Hn : nth_error tokens (current_token s) = Some t).
    { rewrite Est in A0. exact (@skipn_head _ _ _ _ _ A0). }
    unfold index at 1. rewrite Hn. unfold bind at 1. cbv [ret].
    rewrite (@starter_no_let _ T).
    run (G1 f ltac:(lia)). destruct u2. apply G2. lia.
Qed.

(** A program of the grammar is accepted, and read to its end. *)
Lemma program_accepted (l rest : list Token) :
  program l -> tokens = l ++ rest ->
  accepted tokens l (parse_program tokens) init.
Proof.
  intros (open & body & K & I & ->) A.
  assert (A0 : skipn (current_token init) tokens
               = [open] ++ body ++ [(DELIMITER, VStr "}")] ++ rest).
  { rewrite A. simpl. rewrite <- app_assoc. reflexivity. }
  eat A0 K s1 E1 R1 A1.
  destruct (@items_accepted body I _ _ A1) as (g & u2 & s2 & R2 & G).
  pose proof (@after_reading body _ _ _ A1 R2) as A2.
  eat A2 (eq_refl DELIMITER) s3 E3 R3 A3.
  exists g, tt, s3. split; [exact (reads_app R1 (reads_app R2 R3))|].
  intros f Hf. unfold parse_program. run E1. run (G f Hf). run E3. reflexivity.
Qed.

End Accepted.

End ParserFacts.

(** * The semantic checker *)

Section CheckerFacts.

Import SyntaxAnalyzer SemanticAnalyzer.

Lemma is_let_true (token : Token) :
  is_let token = true <-> token = (KEYWORD, VStr "let").
Proof.
  destruct token as [kind v]. unfold is_let, Kind_eqb, Value_is; simpl. split.
  - destruct (Kind_eq_dec kind KEYWORD) as [->|]; [|discriminate].
    destruct v; try discriminate. simpl. intros H. apply String.eqb_eq in H. congruence.
  - intros [= -> ->]. reflexivity.
Qed.

Lemma Kind_eqb_true (a b : Kind) : Kind_eqb a b = true <-> a = b.
Proof. unfold Kind_eqb. destruct (Kind_eq_dec a b); split; congruence. Qed.

Lemma let_declares_nil (name : Value) : ~ let_declares [] name.
Proof. intros (before & after & H). destruct before; discriminate. Qed.

Lemma let_declares_cons (token : Token) (rest : list Token) (name : Value) :
  let_declares (token :: rest) name <->
  (token = (KEYWORD, VStr "let") /\ exists after, rest = (IDENTIFIER, name) :: after) \/
  let_declares rest name.
Proof.
  split.
  - intros (before & after & H). destruct before as [|t before]; simpl in H.
    + injection H as -> ->. left; eauto.
    + injection H as -> ->. right. exists before, after. reflexivity.
  - intros [[-> [after ->]] | (before & after & ->)].
    + exists [], after. reflexivity.
    + exists (token :: before), after. reflexivity.
Qed.

(** The first loop of [check_variables] touches [declared_variables] only,
    and adds exactly the identifiers that follow a [let]. *)
Lemma collect_declared_spec (tokens : list Token) :
  forall self,
    let self' := collect_declared tokens self in
    symbol_table self' = symbol_table self /\
    errors self' = errors self /\
    undeclared_usage self' = undeclared_usage self /\
    forall name, In name (declared_variables self') <->
                 In name (declared_variables self) \/ let_declares tokens name.
Proof.
  induction tokens as [|token rest IH]; intros self; cbn zeta.
  - simpl. repeat apply conj; auto. intros name. pose proof (@let_declares_nil name). tauto.
  - cbn [collect_declared].
    match goal with |- context [collect_declared rest ?x] => specialize (IH x); set (mid := x) in * end.
    cbn zeta in IH. destruct IH as (T & E & U & D).
    assert (Hmid : symbol_table mid = symbol_table self /\ errors mid = errors self /\
                   undeclared_usage mid = undeclared_usage self /\
                   forall name, In name (declared_variables mid) <->
                     In name (declared_variables self) \/
                     (token = (KEYWORD, VStr "let") /\ exists after, rest = (IDENTIFIER, name) :: after)).
    { subst mid. destruct (is_let token) eqn:L.
      - apply is_let_true in L. destruct rest as [|next after].
        + repeat apply conj; auto. intros name. split; [auto|].
          intros [H | (_ & after & H)]; [exact H | discriminate].
        + destruct (Kind_eqb (fst next) IDENTIFIER) eqn:K.
          * apply Kind_eqb_true in K. repeat apply conj; auto. intros name. simpl.
            rewrite set_add_iff. destruct next as [k v]; simpl in K; subst k; simpl.
            split.
            -- intros [-> | H]; [right; split; eauto | left; exact H].
            -- intros [H | (_ & after' & [= -> _])]; auto.
          * repeat apply conj; auto. intros name. split; [auto|].
            intros [H | (_ & after' & [= -> _])]; [exact H|].
            simpl in K. unfold Kind_eqb in K. destruct (Kind_eq_dec IDENTIFIER IDENTIFIER); congruence.
      - repeat apply conj; auto. intros name. split; [auto|].
        intros [H | (Hl & _)]; [exact H|]. apply is_let_true in Hl. congruence. }
    destruct Hmid as (T' & E' & U' & D').
    repeat apply conj; try congruence.
    intros name. rewrite D, D', let_declares_cons. tauto.
Qed.

(** The second loop touches [undeclared_usage] only, adds the identifiers of
    the stream that are not declared, and keeps the set free of repetition. *)
Lemma collect_undeclared_spec (tokens : list Token) :
  forall self,
    let self' := collect_undeclared tokens self in
    symbol_table self' = symbol_table self /\
    errors self' = errors self /\
    declared_variables self' = declared_variables self /\
    (NoDup (undeclared_usage self) -> NoDup (undeclared_usage self')) /\
    forall name, In name (undeclared_usage self') <->
                 In name (undeclared_usage self) \/
                 (In (IDENTIFIER, name) tokens /\ ~ In name (declared_variables self)).
Proof.
  induction tokens as [|token rest IH]; intros self; cbn zeta.
  - simpl. repeat apply conj; auto. tauto.
  - cbn [collect_undeclared].
    match goal with |- context [collect_undeclared rest ?x] => specialize (IH x); set (mid := x) in * end.
    cbn zeta in IH. destruct IH as (T & E & D & N & U).
    assert (Hmid : symbol_table mid = symbol_table self /\ errors mid = errors self /\
                   declared_variables mid = declared_variables self /\
                   (NoDup (undeclared_usage self) -> NoDup (undeclared_usage mid)) /\
                   forall name, In name (undeclared_usage mid) <->
                     In name (undeclared_usage self) \/
                     (token = (IDENTIFIER, name) /\ ~ In name (declared_variables self))).
    { subst mid. destruct token as [kind v]; simpl.
      destruct (Kind_eqb kind IDENTIFIER) eqn:K.
      - apply Kind_eqb_true in K; subst kind.
        destruct (set_mem Value_eq_dec v (declared_variables self)) eqn:M.
        + apply set_mem_correct1 in M. repeat apply conj; auto.
          intros name; split; [auto|]. intros [H | ([= ->] & H)]; [exact H | contradiction].
        + apply set_mem_complete1 in M. simpl. repeat apply conj; auto.
          * apply set_add_nodup.
          * intros name. rewrite set_add_iff. split.
            -- intros [-> | H]; auto.
            -- intros [H | ([= ->] & _)]; auto.
      - repeat apply conj; auto. intros name; split; [auto|].
        intros [H | ([= -> _] & _)]; [exact H|].
        unfold Kind_eqb in K. destruct (Kind_eq_dec IDENTIFIER IDENTIFIER); congruence. }
    destruct Hmid as (T' & E' & D' & N' & U').
    repeat apply conj; try congruence; [tauto|].
    intros name. rewrite U, U', D'. simpl. intuition congruence.
Qed.

Lemma append_errors_spec {X : Type} (f : X -> SemanticError) (l : list X) :
  forall self,
    let self' := fold_left (fun self x => append_error (f x) self) l self in
    symbol_table self' = symbol_table self /\
    errors self' = errors self ++ map f l /\
    declared_variables self' = declared_variables self /\
    undeclared_usage self' = undeclared_usage self.
Proof.
  induction l as [|x l IH]; intros self; cbn zeta; simpl.
  - rewrite app_nil_r. auto.
  - specialize (IH (append_error (f x) self)). cbn zeta in IH.
    destruct IH as (T & E & D & U). simpl in *.
    rewrite <- app_assoc in E. auto.
Qed.

Lemma check_types_fold (d : dict) :
  forall self,
    let self' := fold_left check_type d self in
    symbol_table self' = symbol_table self /\
    errors self' = errors self ++ map UnknownType (unclassified d).
Proof.
  induction d as [|[var_name info] d IH]; intros self; cbn zeta.
  - simpl. rewrite app_nil_r. auto.
  - cbn [fold_left unclassified].
    specialize (IH (check_type self (var_name, info))). cbn zeta in IH.
    destruct IH as (T & E). rewrite T, E. unfold check_type, expected_type.
    destruct (value info) as [v|]; [|auto].
    destruct (isinstance_int v), (isinstance_float v), (String.eqb (type info) "variable");
      simpl; rewrite <- ?app_assoc; auto.
Qed.

Lemma check_types_spec (self : analyzer) :
  symbol_table (check_types self) = symbol_table self /\
  errors (check_types self) = errors self ++ map UnknownType (unclassified (symbol_table self)).
Proof. apply (check_types_fold (symbol_table self) self). Qed.

Lemma In_unclassified (d : dict) (name : Value) :
  In name (unclassified d) ->
  exists info v, In (name, info) d /\ value info = Some v /\
                 isinstance_int v = false /\ isinstance_float v = false.
Proof.
  induction d as [|[var_name info] d IH]; simpl; [contradiction|].
  destruct (value info) as [v|] eqn:V.
  - destruct (String.eqb (type info) "variable" && negb (isinstance_int v)
              && negb (isinstance_float v)) eqn:C.
    + intros [<- | H].
      * apply andb_prop in C. destruct C as [C C3]. apply andb_prop in C. destruct C as [_ C2].
        exists info, v. repeat apply conj; auto.
        -- destruct (isinstance_int v); [discriminate | reflexivity].
        -- destruct (isinstance_float v); [discriminate | reflexivity].
      * destruct (IH H) as (i & w & ? & ?). exists i, w. auto.
    + intros H. destruct (IH H) as (i & w & ? & ?). exists i, w. auto.
  - intros H. destruct (IH H) as (i & w & ? & ?). exists i, w. auto.
Qed.

Lemma unclassified_no_value (d : dict) :
  (forall name info, In (name, info) d -> value info = None) -> unclassified d = [].
Proof.
  induction d as [|[var_name info] d IH]; simpl; intros H; [reflexivity|].
  rewrite (H var_name info) by auto. apply IH. intros; eapply H; eauto.
Qed.

(** The sets the loops build depend on the sets they start from only. *)
Lemma collect_declared_sets (tokens : list Token) :
  forall self self',
    declared_variables self = declared_variables self' ->
    declared_variables (collect_declared tokens self) =
    declared_variables (collect_declared tokens self').
Proof.
  induction tokens as [|token rest IH]; intros self self' H; cbn [collect_declared]; [exact H|].
  apply IH. destruct (is_let token); [|exact H].
  destruct rest as [|next after]; [exact H|].
  destruct (Kind_eqb (fst next) IDENTIFIER); [|exact H].
  simpl. rewrite H. reflexivity.
Qed.

Lemma collect_undeclared_sets (tokens : list Token) :
  forall self self',
    declared_variables self = declared_variables self' ->
    undeclared_usage self = undeclared_usage self' ->
    undeclared_usage (collect_undeclared tokens self) =
    undeclared_usage (collect_undeclared tokens self').
Proof.
  induction tokens as [|token rest IH]; intros self self' D U; cbn [collect_undeclared]; [exact U|].
  destruct (Kind_eqb (fst token) IDENTIFIER); [|apply IH; assumption].
  rewrite D. destruct (set_mem Value_eq_dec (snd token) (declared_variables self'));
    apply IH; simpl; congruence.
Qed.

Lemma undeclared_NoDup (tokens : list Token) : NoDup (undeclared tokens).
Proof.
  unfold undeclared.
  destruct (collect_undeclared_spec tokens (collect_declared tokens init)) as (_ & _ & _ & N & _).
  destruct (collect_declared_spec tokens init) as (_ & _ & U & _).
  apply N. rewrite U. apply NoDup_nil.
Qed.

Lemma In_undeclared (tokens : list Token) (name : Value) :
  In name (undeclared tokens) <-> In (IDENTIFIER, name) tokens /\ ~ let_declares tokens name.
Proof.
  unfold undeclared.
  destruct (collect_undeclared_spec tokens (collect_declared tokens init)) as (_ & _ & _ & _ & I).
  destruct (collect_declared_spec tokens init) as (_ & _ & U & D).
  rewrite I, U. simpl. rewrite D. simpl. tauto.
Qed.

Section Iteration.

Variable iterate : set Value -> list Value.

Lemma check_variables_spec (tokens : list Token) (self : analyzer) :
  declared_variables self = [] ->
  undeclared_usage self = [] ->
  symbol_table (check_variables iterate tokens self) = symbol_table self /\
  errors (check_variables iterate tokens self) =
    errors self ++ map UsedBeforeDeclaration (iterate (undeclared tokens)).
Proof.
  intros D U. unfold check_variables.
  match goal with |- context [fold_left ?f ?l ?x] =>
    destruct (append_errors_spec UsedBeforeDeclaration l x) as (T & E & _ & _) end.
  destruct (collect_undeclared_spec tokens (collect_declared tokens self)) as (T2 & E2 & _).
  destruct (collect_declared_spec tokens self) as (T1 & E1 & U1 & _).
  rewrite T, E, T2, E2, T1, E1. split; [reflexivity|].
  unfold undeclared.
  rewrite (collect_undeclared_sets tokens (collect_declared tokens self) (collect_declared tokens init)).
  - reflexivity.
  - apply collect_declared_sets. rewrite D; reflexivity.
  - rewrite U1, U. destruct (collect_declared_spec tokens init) as (_ & _ & U0 & _).
    rewrite U0. reflexivity.
Qed.

(** What [analyze] answers, written out *)
Lemma analyze_success (lexical_errors : list LexicalAnalyzer.LexicalError)
    (table : dict) (tokens : list Token) :
  result_errors (analyze iterate lexical_errors (Success table) tokens init) =
    map Lexical lexical_errors
    ++ map UsedBeforeDeclaration (iterate (undeclared tokens))
    ++ map UnknownType (unclassified table).
Proof.
  unfold analyze. cbn [result_errors].
  match goal with |- context [fold_left ?f lexical_errors init] =>
    destruct (append_errors_spec Lexical lexical_errors init) as (T & E & D & U);
    set (self1 := fold_left f lexical_errors init) in * end.
  destruct (check_types_spec (check_variables iterate tokens (set_symbol_table table self1)))
    as (_ & E4).
  destruct (@check_variables_spec tokens (set_symbol_table table self1)) as (T3 & E3);
    [exact D | exact U |].
  rewrite E4, E3, T3. simpl. rewrite E. simpl. rewrite <- app_assoc. reflexivity.
Qed.

Lemma analyze_failure (lexical_errors : list LexicalAnalyzer.LexicalError)
    (error : SyntaxMessage) (tokens : list Token) :
  result_errors (analyze iterate lexical_errors (Failure error) tokens init) =
    map Lexical lexical_errors ++ [Syntax error].
Proof.
  unfold analyze. cbn [result_errors].
  destruct (append_errors_spec Lexical lexical_errors init) as (_ & E & _).
  simpl. simpl in E. rewrite E. reflexivity.
Qed.

End Iteration.

Lemma count_used_before_declaration (l : list Value) (name : Value) :
  count_occ SemanticError_eq_dec (map UsedBeforeDeclaration l) (UsedBeforeDeclaration name)
  = count_occ Value_eq_dec l name.
Proof.
  induction l as [|x l IH]; cbn [count_occ map]; [reflexivity|].
  destruct (SemanticError_eq_dec (UsedBeforeDeclaration x) (UsedBeforeDeclaration name)) as [E|N],
           (Value_eq_dec x name) as [E'|N']; congruence.
Qed.

Lemma count_other_errors {X : Type} (f : X -> SemanticError) (l : list X) (e : SemanticError) :
  (forall x, f x <> e) -> count_occ SemanticError_eq_dec (map f l) e = 0.
Proof.
  intros H. apply count_occ_not_In. intros I. apply in_map_iff in I.
  destruct I as (x & E & _). exact (H x E).
Qed.

(** ** The type pass on a table the parser built *)

Import Grammar.

Lemma unclassified_In (d : dict) (name : Value) (info : Entry) (v : Expr) :
  In (name, info) d -> value info = Some v -> type info = "variable"%string ->
  isinstance_int v = false -> isinstance_float v = false ->
  In name (unclassified d).
Proof.
  intros I V T N1 N2. induction d as [|[var_name info'] d IH]; simpl in *; [contradiction|].
  destruct I as [[= -> ->]|I].
  - rewrite V, T, N1, N2. simpl. auto.
  - destruct (value info') as [v'|]; [|auto].
    destruct (String.eqb (type info') "variable" && negb (isinstance_int v')
              && negb (isinstance_float v')); simpl; auto.
Qed.

(** On a table of well-formed entries the type pass reports the names whose
    value is not a number. *)
Lemma unclassified_table (d : dict) (name : Value) :
  table_ok d ->
  (In name (unclassified d) <->
   exists info v, dict_get name d = Some info /\ value info = Some v
                  /\ isinstance_int v = false /\ isinstance_float v = false).
Proof.
  intros [N A]. split.
  - intros H. apply In_unclassified in H. destruct H as (info & v & I & V & N1 & N2).
    exists info, v. split; [apply In_dict_get; assumption | auto].
  - intros (info & v & G & V & N1 & N2). apply dict_get_In in G.
    destruct (A _ _ G) as (T & _). eapply unclassified_In; eauto.
Qed.

Lemma unclassified_nil (d : dict) :
  table_ok d ->
  (unclassified d = [] <->
   forall name info, In (name, info) d ->
     exists v, value info = Some (Leaf v) /\ (is_int v = true \/ is_float v = true)).
Proof.
  intros [N A]. split.
  - intros U name info I. destruct (A _ _ I) as (T & V & _).
    destruct (value info) as [e|] eqn:Ve; [|contradiction].
    destruct e as [v|a op b].
    + exists v. split; [reflexivity|].
      destruct (is_int v) eqn:I1; [auto|]. destruct (is_float v) eqn:I2; [auto|].
      exfalso. assert (H : In name (unclassified d)) by (eapply unclassified_In; eauto).
      rewrite U in H. exact H.
    + exfalso. assert (H : In name (unclassified d)) by (eapply unclassified_In; eauto).
      rewrite U in H. exact H.
  - intros H. destruct (unclassified d) as [|name l] eqn:U; [reflexivity|].
    exfalso. assert (I : In name (unclassified d)) by (rewrite U; left; reflexivity).
    apply In_unclassified in I. destruct I as (info & v & I & V & N1 & N2).
    destruct (H _ _ I) as (x & V' & [X|X]); rewrite V in V'; injection V' as ->;
      simpl in *; congruence.
Qed.

Lemma In_UnknownType (lexical_errors : list LexicalAnalyzer.LexicalError)
    (l u : list Value) (name : Value) :
  In (UnknownType name)
    (map Lexical lexical_errors ++ map UsedBeforeDeclaration l ++ map UnknownType u)
  <-> In name u.
Proof.
  rewrite !in_app_iff, !in_map_iff. split.
  - intros [(x & E & _) | [(x & E & _) | (x & E & I)]]; try discriminate E.
    injection E as ->. exact I.
  - intros I. right. right. exists name. auto.
Qed.

Lemma analyze_table (iterate : set Value -> list Value)
    (lexical_errors : list LexicalAnalyzer.LexicalError) (table : dict) (tokens : list Token) :
  result_symbol_table (analyze iterate lexical_errors (Success table) tokens init) = table.
Proof.
  unfold analyze. cbn [result_symbol_table].
  match goal with |- context [fold_left ?f lexical_errors init] =>
    destruct (append_errors_spec Lexical lexical_errors init) as (T & E & D & U);
    set (self1 := fold_left f lexical_errors init) in * end.
  destruct (check_types_spec (check_variables iterate tokens (set_symbol_table table self1)))
    as (T4 & _).
  destruct (@check_variables_spec iterate tokens (set_symbol_table table self1)) as (T3 & _);
    [exact D | exact U |].
  rewrite T4, T3. reflexivity.
Qed.

Lemma analyze_success_flag (iterate : set Value -> list Value)
    (lexical_errors : list LexicalAnalyzer.LexicalError) (table : dict) (tokens : list Token) :
  result_success (analyze iterate lexical_errors (Success table) tokens init) = true
  <-> lexical_errors = [] /\ iterate (undeclared tokens) = [] /\ unclassified table = [].
Proof.
  pose proof (analyze_success iterate lexical_errors table tokens) as E.
  unfold analyze in *. cbn [result_success result_errors] in *. rewrite E.
  rewrite Nat.eqb_eq, !length_app, !length_map. split.
  - intros H. repeat split; apply length_zero_iff_nil; lia.
  - intros (-> & -> & ->). reflexivity.
Qed.

Lemma let_declares_decidable (tokens : list Token) (name : Value) :
  let_declares tokens name \/ ~ let_declares tokens name.
Proof.
  destruct (collect_declared_spec tokens init) as (_ & _ & _ & D). specialize (D name).
  destruct (in_dec Value_eq_dec name (declared_variables (collect_declared tokens init)))
    as [I|N].
  - left. apply D in I. destruct I as [[]|I]. exact I.
  - right. intros L. apply N, D. right. exact L.
Qed.

Lemma undeclared_nil (tokens : list Token) :
  undeclared tokens = [] <->
  forall name, In (IDENTIFIER, name) tokens -> let_declares tokens name.
Proof.
  split.
  - intros U name I. destruct (let_declares_decidable tokens name) as [L|N]; [exact L|].
    exfalso. assert (H : In name (undeclared tokens)) by (apply In_undeclared; auto).
    rewrite U in H. exact H.
  - intros H. destruct (undeclared tokens) as [|name l] eqn:U; [reflexivity|].
    exfalso. assert (I : In name (undeclared tokens)) by (rewrite U; left; reflexivity).
    apply In_undeclared in I. destruct I as [I N]. exact (N (H _ I)).
Qed.

Lemma analyze_failure_result (iterate : set Value -> list Value)
    (lexical_errors : list LexicalAnalyzer.LexicalError) (error : SyntaxMessage)
    (tokens : list Token) :
  analyze iterate lexical_errors (Failure error) tokens init
  = {| result_success := false;
       result_errors := map Lexical lexical_errors ++ [Syntax error];
       result_symbol_table := [] |}.
Proof.
  unfold analyze.
  destruct (append_errors_spec Lexical lexical_errors init) as (T & E & _).
  simpl. simpl in T, E. rewrite T, E. reflexivity.
Qed.

End CheckerFacts.

(** * The properties of the specification *)

Section Properties.

Import CharClass Re LexicalAnalyzer SyntaxAnalyzer SemanticAnalyzer Run.

(** C10. [tokenize] never emits a token of kind BIN_NUMBER, OCT_NUMBER or
    DEC_NUMBER.  A text one of these three rules matches begins with a decimal
    digit, and there the NUMBER rule, earlier in the table, matches as well;
    a literal with a base suffix is read as a NUMBER followed by what is left
    of the suffix. *)
Theorem tokenize_never_emits_suffixed_numbers :
  (forall program,
     Forall (fun token : Token =>
               fst token <> BIN_NUMBER /\ fst token <> OCT_NUMBER /\ fst token <> DEC_NUMBER)
       (fst (tokenize program)))
  /\ (forall kind prev s n,
        suffixed_number kind = true ->
        match_at (rule kind) prev s = Some n ->
        exists c s', s = String c s' /\ digit c = true
                     /\ exists m, match_at (rule NUMBER) prev s = Some m)
  /\ fst (tokenize "101b 17o 9d")
     = [(NUMBER, VInt 101); (IDENTIFIER, VStr "b"); (NUMBER, VInt 17);
        (IDENTIFIER, VStr "o"); (NUMBER, VInt 9); (IDENTIFIER, VStr "d")].
Proof.
  split; [|split].
  - intros program. apply Forall_forall. intros token H.
    unfold tokenize in H. cbn [fst] in H. apply in_flat_map in H.
    destruct H as (m & Hm & Ht).
    apply finditer_kinds in Hm. apply token_of_kind in Ht. rewrite Ht.
    destruct (fst m); try discriminate Hm; repeat split; discriminate.
  - intros kind prev s n Hk Hm.
    destruct (suffixed_number_starts_with_digit kind prev s Hk Hm) as (c & s' & -> & Hc).
    exists c, s'. repeat split; auto. eapply number_shadows; eauto.
  - vm_compute. reflexivity.
Qed.

(** C3. The second pass of [tokenize] tests each character on its own, not
    the positions the first pass left over: in "1.5" the scan consumes all
    three characters as one NUMBER, and the decimal point is reported as an
    unknown symbol all the same.  A lone "$" is reported once, and the
    tokens around it are recognised.  For every source the errors are the
    characters, in order, that are no white space and stand outside the
    token alphabet, consumed or not. *)
Theorem decimal_point_reported_as_unknown_symbol :
  finditer 0 None "1.5" = [(NUMBER, "1.5"%string)]
  /\ tokenize "1.5" = ([(NUMBER, VFloat "1.5")], [UnknownSymbol "."])
  /\ tokenize "let $z = 30;"
     = ([(KEYWORD, VStr "let"); (IDENTIFIER, VStr "z"); (ASSIGN, VStr "=");
         (NUMBER, VInt 30); (DELIMITER, VStr ";")],
        [UnknownSymbol "$"])
  /\ (forall program,
        snd (tokenize program)
        = map UnknownSymbol
            (filter (fun c => negb (space c) && negb (token_character c))
               (list_ascii_of_string program))).
Proof.
  split; [|split; [|split]]; try (vm_compute; reflexivity).
  intros program. apply unknown_symbols_filter.
Qed.

(** C7. The value of a NUMBER token is an integer exactly when the matched
    text has no decimal point and no exponent marker, and a float otherwise:
    "10" is an integer, "10.5" and "1E3" are floats.  [check_types] reports
    an unknown type only for an entry of the symbol table whose value is
    present and is neither an integer nor a float; entries without a value
    add no error. *)
Theorem number_and_type_classification :
  (forall text, exists v,
     token_of (NUMBER, text) = [(NUMBER, v)]
     /\ (is_int v = true <->
         contains "." text = false /\ contains "E" text = false /\ contains "e" text = false)
     /\ (is_float v = true <->
         contains "." text = true \/ contains "E" text = true \/ contains "e" text = true))
  /\ fst (tokenize "10") = [(NUMBER, VInt 10)]
  /\ fst (tokenize "10.5") = [(NUMBER, VFloat "10.5")]
  /\ fst (tokenize "1E3") = [(NUMBER, VFloat "1E3")]
  /\ (forall self name,
        In (UnknownType name) (SemanticAnalyzer.errors (check_types self)) ->
        In (UnknownType name) (SemanticAnalyzer.errors self)
        \/ exists info v,
             In (name, info) (SemanticAnalyzer.symbol_table self)
             /\ value info = Some v
             /\ isinstance_int v = false /\ isinstance_float v = false)
  /\ (forall self,
        (forall name info, In (name, info) (SemanticAnalyzer.symbol_table self) ->
                           value info = None) ->
        SemanticAnalyzer.errors (check_types self) = SemanticAnalyzer.errors self).
Proof.
  repeat apply conj; try (vm_compute; reflexivity).
  - intros text. exists (number_value text). split; [reflexivity|].
    unfold number_value.
    destruct (contains "." text), (contains "E" text), (contains "e" text); simpl;
      intuition discriminate.
  - intros self name H. destruct (check_types_spec self) as (_ & E). rewrite E in H.
    apply in_app_or in H. destruct H as [H|H]; [left; exact H|right].
    apply in_map_iff in H. destruct H as (x & [= ->] & H).
    apply In_unclassified in H. exact H.
  - intros self H. destruct (check_types_spec self) as (_ & E). rewrite E.
    rewrite unclassified_no_value by exact H. apply app_nil_r.
Qed.

(** C4. [match_]: when the token at the cursor has the expected kind, it is
    returned and the cursor moves on by one; otherwise a syntax error is
    raised that carries the expected kind and the token found, or the
    end-of-file marker when the cursor is at the end, and the cursor stays.
    For "{ let y 20 ; }" the parse fails with the error that expected
    ASSIGN and found the NUMBER 20. *)
Theorem match_consumes_or_fails (tokens : list Token) (expected_type : Kind) (s : state) :
  (forall token,
     nth_error tokens (current_token s) = Some token ->
     fst token = expected_type ->
     match_ tokens expected_type s
     = Ok token {| current_token := current_token s + 1;
                   SyntaxAnalyzer.symbol_table := SyntaxAnalyzer.symbol_table s |})
  /\ (~ (exists token, nth_error tokens (current_token s) = Some token
                       /\ fst token = expected_type) ->
      match_ tokens expected_type s
      = Raise (SyntaxError (Expected expected_type (nth_error tokens (current_token s)))) s)
  /\ (nth_error tokens (current_token s) = None <-> List.length tokens <= current_token s)
  /\ (forall fuel,
        parse (fst (tokenize "{ let y 20 ; }")) (S fuel)
        = Returns (Failure (Expected ASSIGN (Some (NUMBER, VInt 20))))).
Proof.
  repeat apply conj.
  - intros token Hn Hk.
    cbv [match_ bind get_current_token at_cursor index ret advance raise].
    rewrite Hn. rewrite (proj2 (Kind_eqb_true _ _) Hk). reflexivity.
  - intros Hno.
    cbv [match_ bind get_current_token at_cursor index ret advance raise].
    destruct (nth_error tokens (current_token s)) as [token|] eqn:Hn; [|reflexivity].
    destruct (Kind_eqb (fst token) expected_type) eqn:Hk; [|reflexivity].
    exfalso. apply Hno. exists token. split; [reflexivity|]. apply Kind_eqb_true, Hk.
  - apply nth_error_None.
  - apply nth_error_None.
  - intros fuel. reflexivity.
Qed.

(** C1. [analyze_program] does not return a result for every source: for
    "{ x" the look-ahead of [parse_statement] reads past the last token, the
    [IndexError] is not a [SyntaxError], so [parse] does not catch it and it
    leaves [analyze_program]. *)
Theorem analyze_program_index_error :
  (forall iterate fuel, analyze_program iterate "{ x" (S (S fuel)) = Uncaught IndexError)
  /\ (forall iterate fuel a, analyze_program iterate "{ x" fuel <> Returns a).
Proof.
  assert (H : forall iterate fuel,
             analyze_program iterate "{ x" (S (S fuel)) = Uncaught IndexError)
    by (intros; reflexivity).
  split; [exact H|].
  intros iterate [|[|fuel]] a; [discriminate | discriminate | rewrite H; discriminate].
Qed.

(** The statement loop of [parse_program] on "{ then }": [parse_statement]
    returns at the keyword without consuming it, so the loop is cut by
    every fuel bound in the state it started from. *)
Lemma program_loop_stuck (fuel : nat) :
  let tokens := fst (tokenize "{ then }") in
  let s := {| current_token := 1; SyntaxAnalyzer.symbol_table := [] |} in
  program_loop tokens fuel s = OutOfFuel s.
Proof.
  cbn zeta. induction fuel as [|fuel IH]; [reflexivity|].
  cbn [program_loop].
  match goal with |- bind _ _ ?s = _ => set (s1 := s) in * end.
  assert (Hs : parse_statement (fst (tokenize "{ then }")) fuel s1 = OutOfFuel s1
               \/ parse_statement (fst (tokenize "{ then }")) fuel s1 = Ok tt s1)
    by (destruct fuel; [left | right]; reflexivity).
  change (match parse_statement (fst (tokenize "{ then }")) fuel s1 with
          | Ok _ s' => program_loop (fst (tokenize "{ then }")) fuel s'
          | Raise e s' => Raise e s'
          | OutOfFuel s' => OutOfFuel s'
          end = OutOfFuel s1).
  destruct Hs as [-> | ->]; [reflexivity | exact IH].
Qed.

(** C2. The parser does not terminate on every token sequence: for
    "{ then }" the statement loop of [parse_program] makes no progress, and
    [analyze_program] is cut by every fuel bound. *)
Theorem parser_loops_on_stray_keyword :
  forall iterate fuel, analyze_program iterate "{ then }" fuel = Unfinished.
Proof.
  intros iterate fuel. unfold analyze_program.
  change (tokenize "{ then }") with (fst (tokenize "{ then }"), snd (tokenize "{ then }")).
  cbv iota beta.
  assert (H : parse (fst (tokenize "{ then }")) fuel = Unfinished).
  { unfold parse, parse_program.
    pose proof (program_loop_stuck fuel) as L. cbn zeta in L.
    assert (E : match_ (fst (tokenize "{ then }")) DELIMITER SyntaxAnalyzer.init
                = Ok (DELIMITER, VStr "{")
                    {| current_token := 1; SyntaxAnalyzer.symbol_table := [] |})
      by reflexivity.
    unfold bind at 1. rewrite E. unfold bind at 1. rewrite L. reflexivity. }
  rewrite H. reflexivity.
Qed.

(** C8. The cursor never goes past the end of the token stream, whatever
    the run.  But a missing token at the end of the stream does not always
    give the end-of-file failure: in "{ let x =" [parse_expression] reads
    [tokens[current_token]] behind the last token, and in "{ x" the
    look-ahead of [parse_statement] does; both raise [IndexError]. *)
Theorem exhausted_stream_raises_index_error :
  (forall tokens fuel,
     current_token (final (parse_program tokens fuel SyntaxAnalyzer.init)) <= List.length tokens)
  /\ (forall fuel, parse (fst (tokenize "{ let x =")) (S (S fuel)) = Uncaught IndexError)
  /\ (forall fuel, parse (fst (tokenize "{ x")) (S (S fuel)) = Uncaught IndexError).
Proof.
  split; [|split; intros; reflexivity].
  intros tokens fuel.
  destruct (parse_program_cursor tokens fuel SyntaxAnalyzer.init) as [_ H].
  apply H. simpl. lia.
Qed.

(** C9. After a successful parse the keys of the symbol table are exactly
    the identifiers that stood on the left side of a declaration or of an
    assignment among the tokens the parse consumed: the identifier tokens
    followed by the assignment sign, the variable of a [for] header apart.
    An identifier whose consumed occurrences are all operands, arguments of
    [input] or variables of a [for] header is no key. *)
Theorem symbol_table_keys_are_left_sides (tokens : list Token) (fuel : nat) (s' : state) :
  parse_program tokens fuel SyntaxAnalyzer.init = Ok tt s' ->
  parse tokens fuel = Returns (Success (SyntaxAnalyzer.symbol_table s'))
  /\ (forall name,
        In name (keys (SyntaxAnalyzer.symbol_table s')) <->
        exists i, S i < current_token s' /\ left_side tokens i name)
  /\ (forall name,
        (forall i, S i < current_token s' ->
                   nth_error tokens i = Some (IDENTIFIER, name) ->
                   ~ kind_at tokens (S i) ASSIGN \/ after_for tokens i) ->
        dict_get name (SyntaxAnalyzer.symbol_table s') = None).
Proof.
  intros H.
  assert (K : forall name,
             In name (keys (SyntaxAnalyzer.symbol_table s')) <->
             exists i, S i < current_token s' /\ left_side tokens i name).
  { intros name. pose proof H as A. apply parse_program_adds in A. destruct A as [_ A].
    specialize (A name). simpl in A. split.
    - intros I. destruct (proj1 A (or_introl I)) as [[]|(i & _ & Hi & L)]. eauto.
    - intros (i & Hi & L).
      destruct (proj2 A (or_intror (ex_intro _ i (conj (Nat.le_0_l _) (conj Hi L)))))
        as [I|[]].
      exact I. }
  split; [|split].
  - unfold parse. rewrite H. reflexivity.
  - exact K.
  - intros name N. apply dict_get_None. rewrite K. intros (i & Hi & (Hn & Ha & Hf)).
    destruct (N i Hi Hn) as [N'|N']; contradiction.
Qed.

Lemma symbol_table_keys_are_left_sides_witness :
  let tokens :=
    fst (tokenize "{ for i = 1 do 3 { input k ; output z ; } x = 2 ; let y = x ; }") in
  let s' := final (parse_program tokens 10 SyntaxAnalyzer.init) in
  keys (SyntaxAnalyzer.symbol_table s') = [VStr "x"; VStr "y"]
  /\ (In (VStr "x") (keys (SyntaxAnalyzer.symbol_table s')) <->
      exists i, S i < current_token s' /\ left_side tokens i (VStr "x"))
  /\ dict_get (VStr "i") (SyntaxAnalyzer.symbol_table s') = None
  /\ dict_get (VStr "k") (SyntaxAnalyzer.symbol_table s') = None
  /\ dict_get (VStr "z") (SyntaxAnalyzer.symbol_table s') = None.
Proof.
  cbn zeta.
  match goal with |- context [final ?r] =>
    assert (H : r = Ok tt (final r)) by (vm_compute; reflexivity)
  end.
  destruct (symbol_table_keys_are_left_sides _ _ H) as (_ & K & N).
  assert (T : forall name,
            name = VStr "i" \/ name = VStr "k" \/ name = VStr "z" ->
            forall i,
              S i < current_token
                      (final (parse_program
                                (fst (tokenize "{ for i = 1 do 3 { input k ; output z ; } x = 2 ; let y = x ; }"))
                                10 SyntaxAnalyzer.init)) ->
              nth_error (fst (tokenize "{ for i = 1 do 3 { input k ; output z ; } x = 2 ; let y = x ; }")) i
              = Some (IDENTIFIER, name) ->
              ~ kind_at (fst (tokenize "{ for i = 1 do 3 { input k ; output z ; } x = 2 ; let y = x ; }")) (S i) ASSIGN
              \/ after_for (fst (tokenize "{ for i = 1 do 3 { input k ; output z ; } x = 2 ; let y = x ; }")) i).
  { intros name Hname i Hlt Hn. vm_compute in Hlt.
    destruct Hname as [E|[E|E]]; subst name;
    do 30 (try (destruct i as [|i];
      [ vm_compute in Hn;
        first [ discriminate Hn
              | right; eexists; split; [reflexivity | vm_compute; reflexivity]
              | left; intros (t & Ht & Hk); vm_compute in Ht; injection Ht as <-;
                discriminate Hk ]
      | ]));
    exfalso; lia. }
  split; [|split; [|split; [|split]]].
  - vm_compute. reflexivity.
  - exact (K (VStr "x")).
  - exact (N (VStr "i") (T _ (or_introl eq_refl))).
  - exact (N (VStr "k") (T _ (or_intror (or_introl eq_refl)))).
  - exact (N (VStr "z") (T _ (or_intror (or_intror eq_refl)))).
Defined.

(** C6, as the code has it.  When the parse succeeded, the errors of the
    result are the lexical errors in order, each marked as lexical, then
    the errors of the declaration pass, then those of the type pass; when
    the parse failed they are the lexical errors followed by one entry for
    the syntax error.  The result is a success exactly when there is no
    lexical error, the parse succeeded and neither pass gave an error. *)
Theorem analyze_errors_and_success (iterate : set Value -> list Value)
    (lexical_errors : list LexicalError) (parse_result : ParseResult) (tokens : list Token) :
  let result := analyze iterate lexical_errors parse_result tokens SemanticAnalyzer.init in
  let pass_a := SemanticAnalyzer.errors (check_variables iterate tokens SemanticAnalyzer.init) in
  let pass_b := fun table =>
    SemanticAnalyzer.errors (check_types (set_symbol_table table SemanticAnalyzer.init)) in
  (forall table, parse_result = Success table ->
     result_errors result = map Lexical lexical_errors ++ pass_a ++ pass_b table)
  /\ (forall error, parse_result = Failure error ->
        result_errors result = map Lexical lexical_errors ++ [Syntax error])
  /\ (result_success result = true <->
      lexical_errors = []
      /\ exists table, parse_result = Success table /\ pass_a = [] /\ pass_b table = []).
Proof.
  cbn zeta.
  assert (PA : SemanticAnalyzer.errors (check_variables iterate tokens SemanticAnalyzer.init)
               = map UsedBeforeDeclaration (iterate (undeclared tokens))).
  { destruct (@check_variables_spec iterate tokens SemanticAnalyzer.init eq_refl eq_refl)
      as (_ & E). exact E. }
  assert (PB : forall table,
             SemanticAnalyzer.errors (check_types (set_symbol_table table SemanticAnalyzer.init))
             = map UnknownType (unclassified table)).
  { intros table. destruct (check_types_spec (set_symbol_table table SemanticAnalyzer.init))
      as (_ & E). exact E. }
  split; [|split].
  - intros table ->. rewrite PA, PB. apply analyze_success.
  - intros error ->. apply analyze_failure.
  - destruct parse_result as [table|error].
    + pose proof (analyze_success iterate lexical_errors table tokens) as E.
      unfold analyze in *. cbn [result_success result_errors] in *. rewrite E.
      rewrite PA. split.
      * intros H. apply Nat.eqb_eq in H. rewrite !length_app in H.
        assert (L1 : List.length (map Lexical lexical_errors) = 0) by lia.
        assert (L2 : List.length (map UsedBeforeDeclaration (iterate (undeclared tokens))) = 0)
          by lia.
        assert (L3 : List.length (map UnknownType (unclassified table)) = 0) by lia.
        apply length_zero_iff_nil in L1, L2, L3.
        split; [destruct lexical_errors; [reflexivity | discriminate L1]|].
        exists table. rewrite PB. auto.
      * intros (-> & table' & [= <-] & -> & H). rewrite PB in H. rewrite H. reflexivity.
    + split; [discriminate|]. intros (_ & table & H & _). discriminate H.
Qed.

(** C6, as stated, fails when the parse failed: for "{ let y 20 ; }" the
    errors of the result are the one entry for the syntax error, which is
    neither a lexical error nor an error of one of the two passes. *)
Lemma failed_parse_adds_syntax_entry :
  exists a,
    analyze_program (fun l => l) "{ let y 20 ; }" 2 = Returns a
    /\ result_errors (semantic_result a)
       = [Syntax (Expected ASSIGN (Some (NUMBER, VInt 20)))]
    /\ result_errors (semantic_result a)
       <> map Lexical (lexical_errors a)
          ++ SemanticAnalyzer.errors
               (check_variables (fun l => l) (tokens a) SemanticAnalyzer.init)
          ++ SemanticAnalyzer.errors
               (check_types
                  (set_symbol_table (result_symbol_table (semantic_result a))
                     SemanticAnalyzer.init)).
Proof.
  eexists. split; [vm_compute; reflexivity|].
  split; [reflexivity|]. vm_compute. discriminate.
Qed.

End Properties.

Section IterationOrder.

Import LexicalAnalyzer SyntaxAnalyzer SemanticAnalyzer.

Variable iterate : set Value -> list Value.

(** A [for] loop over a set visits each of its elements once. *)
Hypothesis iterate_permutation : forall l, Permutation (iterate l) l.

(** C5. After a successful parse, an identifier of the token stream is
    reported as used before declaration exactly when no [let] keyword of the
    stream is immediately followed by it, wherever its uses stand; it is
    then reported once, however often it occurs. *)
Theorem used_before_declaration_once (lexical_errors : list LexicalError) (table : dict)
    (tokens : list Token) (name : Value) :
  let result := analyze iterate lexical_errors (Success table) tokens SemanticAnalyzer.init in
  let reports :=
    count_occ SemanticError_eq_dec (result_errors result) (UsedBeforeDeclaration name) in
  (In (UsedBeforeDeclaration name) (result_errors result) <->
   In (IDENTIFIER, name) tokens /\ ~ let_declares tokens name)
  /\ (In (IDENTIFIER, name) tokens /\ ~ let_declares tokens name -> reports = 1)
  /\ (let_declares tokens name -> reports = 0)
  /\ (~ In (IDENTIFIER, name) tokens -> reports = 0).
Proof.
  cbn zeta. rewrite analyze_success.
  assert (C : count_occ SemanticError_eq_dec
                (map Lexical lexical_errors
                 ++ map UsedBeforeDeclaration (iterate (undeclared tokens))
                 ++ map UnknownType (unclassified table))
                (UsedBeforeDeclaration name)
              = count_occ Value_eq_dec (undeclared tokens) name).
  { rewrite !count_occ_app, count_used_before_declaration.
    rewrite !count_other_errors by discriminate.
    rewrite (proj1 (Permutation_count_occ Value_eq_dec _ _) (iterate_permutation _)). lia. }
  assert (One : In name (undeclared tokens) -> count_occ Value_eq_dec (undeclared tokens) name = 1)
    by (apply NoDup_count_occ', undeclared_NoDup).
  assert (Zero : ~ In name (undeclared tokens) ->
                 count_occ Value_eq_dec (undeclared tokens) name = 0)
    by (apply count_occ_not_In).
  rewrite C. pose proof (In_undeclared tokens name) as U.
  split; [|split; [|split]].
  - rewrite (count_occ_In SemanticError_eq_dec), C, <- (count_occ_In Value_eq_dec). exact U.
  - intros H. apply One, U, H.
  - intros H. apply Zero. rewrite U. tauto.
  - intros H. apply Zero. rewrite U. tauto.
Qed.

End IterationOrder.

Lemma used_before_declaration_once_witness :
  let tokens := fst (LexicalAnalyzer.tokenize "{ output y ; let y = 1 ; output q ; output q ; }") in
  let result :=
    SemanticAnalyzer.analyze (fun l => l) [] (SyntaxAnalyzer.Success []) tokens
      SemanticAnalyzer.init in
  count_occ SemanticAnalyzer.SemanticError_eq_dec (SemanticAnalyzer.result_errors result)
    (SemanticAnalyzer.UsedBeforeDeclaration (VStr "q")) = 1
  /\ count_occ SemanticAnalyzer.SemanticError_eq_dec (SemanticAnalyzer.result_errors result)
       (SemanticAnalyzer.UsedBeforeDeclaration (VStr "y")) = 0.
Proof.
  cbn zeta. split.
  - refine (proj1 (proj2 (@used_before_declaration_once (fun l => l)
                            (fun l => Permutation_refl l) [] [] _ (VStr "q"))) _).
    split; [vm_compute; tauto|].
    intros H. vm_compute in H.
    repeat (apply let_declares_cons in H;
            destruct H as [[E [after E']] | H]; [try discriminate E; try discriminate E' |]).
    exact (let_declares_nil H).
  - refine (proj1 (proj2 (proj2 (@used_before_declaration_once (fun l => l)
                            (fun l => Permutation_refl l) [] [] _ (VStr "y")))) _).
    exists [(DELIMITER, VStr "{"); (KEYWORD, VStr "output"); (IDENTIFIER, VStr "y");
            (DELIMITER, VStr ";")],
           [(ASSIGN, VStr "="); (NUMBER, VInt 1); (DELIMITER, VStr ";");
            (KEYWORD, VStr "output"); (IDENTIFIER, VStr "q"); (DELIMITER, VStr ";");
            (KEYWORD, VStr "output"); (IDENTIFIER, VStr "q"); (DELIMITER, VStr ";");
            (DELIMITER, VStr "}")].
    vm_compute. reflexivity.
Defined.

(** * Further properties of the code *)

Section FurtherProperties.

Import CharClass Re LexicalAnalyzer SyntaxAnalyzer SemanticAnalyzer Run Grammar.

(** X1. [tokenize] lets nine kinds through: comments and white space are
    dropped, the three numerals with a base suffix are taken by NUMBER, and
    UNARY_OP never matches first, for the word [not] is an IDENTIFIER, as
    the words [or] and [and] are. *)
Theorem tokenize_emits_nine_kinds :
  (forall program,
     Forall (fun token : Token => In (fst token) emitted_kinds) (fst (tokenize program)))
  /\ fst (tokenize "p or q and not r")
     = [(IDENTIFIER, VStr "p"); (IDENTIFIER, VStr "or"); (IDENTIFIER, VStr "q");
        (IDENTIFIER, VStr "and"); (IDENTIFIER, VStr "not"); (IDENTIFIER, VStr "r")].
Proof.
  split; [|vm_compute; reflexivity].
  intros program. apply Forall_forall. intros token H.
  apply tokenize_In in H. destruct H as (m & Hm & Ht).
  pose proof (finditer_kinds _ _ _ _ Hm) as S.
  pose proof (finditer_no_unary _ _ Hm) as U.
  pose proof (token_of_kind _ _ Ht) as K. rewrite K.
  destruct m as [kind text]. simpl in *.
  destruct kind; simpl in Ht; try contradiction; try discriminate S; try congruence;
    simpl; tauto.
Qed.

(** X2. The text a token carries is fixed by its kind: a KEYWORD is one of the
    ten keywords, ASSIGN is [=], REL_OP one of [<], [>], [<=], [>=], ADD_OP
    [+] or [-], MUL_OP [*] or [/], DELIMITER one of the six delimiters; an
    IDENTIFIER is a letter or underscore of ASCII followed by such letters
    and digits; a HEX_NUMBER is one of the letters [a] to [f], hexadecimal
    digits and the suffix: a numeral with a leading digit is never one. *)
Theorem token_spellings (program : string) :
  Forall (fun token : Token =>
            (forall texts, spellings (fst token) = Some texts ->
               exists text, snd token = VStr text /\ In text texts)
            /\ (fst token = IDENTIFIER ->
                exists c w, snd token = VStr (String c w)
                            /\ letter_ c = true /\ all_in letter_digit_ w = true)
            /\ (fst token = HEX_NUMBER ->
                exists c w x, snd token = VStr (String c (w ++ String x EmptyString))
                              /\ hex_letter c = true /\ all_in hex_digit w = true
                              /\ one_of "Hh" x = true))
    (fst (tokenize program)).
Proof.
  apply Forall_forall. intros token H.
  apply tokenize_In in H. destruct H as (m & Hm & Ht).
  pose proof (finditer_matches _ _ Hm) as M.
  apply finditer_sound in Hm. destruct Hm as (prev & c & s & n & R & T).
  destruct m as [kind text]. cbn [fst snd] in *.
  pose proof (token_of_kind _ _ Ht) as K. cbn [fst] in K.
  repeat apply conj.
  - intros texts S. rewrite K in S.
    pose proof (token_regex_spelling _ _ R S) as I. rewrite <- T in I.
    exists text. split; [|exact I].
    destruct kind; try discriminate S; destruct Ht as [<-|[]]; reflexivity.
  - intros K'. rewrite K' in K. subst kind.
    destruct Ht as [<-|[]]. unfold rule in M; simpl rule_in in M. cbn [matches] in M.
    destruct M as (w1 & w2 & E & (a & -> & Ha) & A). exists a, w2. rewrite E. auto.
  - intros K'. rewrite K' in K. subst kind.
    destruct Ht as [<-|[]]. destruct (hex_number_text _ _ R) as (a & w & x & E & F).
    exists a, w, x. cbn [snd]. rewrite T, E. auto.
Qed.

(** X3. The payload of a token by its type.  An [int] belongs to a NUMBER whose
    text is a run of decimal digits, and is not negative: a sign is never
    part of a number.  A [float] belongs to a NUMBER whose text has a point
    or an exponent marker.  A [str] belongs to a token of another kind and
    is the text the rule of that kind matched. *)
Theorem token_payloads (program : string) :
  Forall (fun token : Token =>
            match snd token with
            | VInt n =>
                fst token = NUMBER /\ (0 <= n)%Z
                /\ exists text, text <> EmptyString /\ all_in digit text = true /\ n = int text
            | VFloat literal =>
                fst token = NUMBER /\ matches (rule NUMBER) literal
                /\ contains "." literal || contains "E" literal || contains "e" literal = true
            | VStr text => fst token <> NUMBER /\ matches (rule (fst token)) text
            end)
    (fst (tokenize program)).
Proof.
  apply Forall_forall. intros token H.
  apply tokenize_In in H. destruct H as (m & Hm & Ht).
  pose proof (finditer_matches _ _ Hm) as M. destruct m as [kind text]. simpl in M.
  destruct kind; simpl in Ht; try contradiction; destruct Ht as [<-|[]]; simpl;
    try (split; [discriminate | exact M]).
  unfold number_value.
  destruct (contains "." text || contains "E" text || contains "e" text) eqn:C; simpl.
  - auto.
  - destruct (number_digits M C) as [N D].
    split; [reflexivity|]. split; [apply int_from_nonnegative; lia|].
    exists text. auto.
Qed.

(** X4. [tokenize] gives at most one token and at most one error for each
    character of the source. *)
Theorem tokenize_output_bounded (program : string) :
  List.length (fst (tokenize program)) <= String.length program
  /\ List.length (snd (tokenize program)) <= String.length program.
Proof.
  unfold tokenize. cbn [fst snd]. split.
  - etransitivity; [apply flat_map_length_bound, token_of_length | apply finditer_length].
  - apply unknown_symbols_length.
Qed.

(** X5. A comment stays on one line: the text the COMMENT rule matches is
    [/*], a body without a newline, and [*/].  A comment that spans two
    lines is no comment, and its words become tokens. *)
Theorem comment_stays_on_one_line :
  (forall prev s n,
     match_at (rule COMMENT) prev s = Some n ->
     exists body, substring 0 n s = ("/*" ++ body ++ "*/")%string
                  /\ contains newline body = false)
  /\ fst (tokenize "x /* one line */ y") = [(IDENTIFIER, VStr "x"); (IDENTIFIER, VStr "y")]
  /\ fst (tokenize ("/* two" ++ String newline "lines */"))
     = [(MUL_OP, VStr "/"); (MUL_OP, VStr "*"); (IDENTIFIER, VStr "two");
        (IDENTIFIER, VStr "lines"); (MUL_OP, VStr "*"); (MUL_OP, VStr "/")].
Proof.
  split; [|split; vm_compute; reflexivity].
  intros prev s n H. apply match_at_sound in H.
  unfold rule in H; simpl rule_in in H. cbn [matches] in H.
  destruct H as (w1 & w2 & -> & -> & w3 & w4 & -> & -> & body & w5 & -> & A & w6 & w7 & -> & -> & ->).
  exists body. split; [reflexivity|]. apply dot_no_newline, A.
Qed.

(** X6. A word made of the letters [a] to [f] that ends in [h] is no
    IDENTIFIER: the HEX_NUMBER rule, earlier in the table, takes it. *)
Theorem hex_word_is_no_identifier (c x : ascii) (w : string) :
  hex_letter c = true -> all_in hex_letter w = true -> one_of "Hh" x = true ->
  tokenize (String c (w ++ String x EmptyString))
  = ([(HEX_NUMBER, VStr (String c (w ++ String x EmptyString)))], []).
Proof. intros Hc Hw Hx. apply hex_word_tokens; assumption. Qed.

Lemma hex_word_is_no_identifier_witness :
  tokenize "beach" = ([(HEX_NUMBER, VStr "beach")], []).
Proof.
  apply (@hex_word_is_no_identifier "b" "h" "eac"); reflexivity.
Defined.

(** X7. [parse_expression] reads the longest chain of operands with a
    relational operator between each two: what it returns nests to the
    right and carries the payloads of the tokens it consumed, in order; the
    token it stops at is no relational operator; the symbol table is left
    alone. *)
Theorem expression_is_a_chain_of_comparisons (tokens : list Token) (fuel : nat)
    (s s' : state) (e : Expr) :
  parse_expression tokens fuel s = Ok e s' ->
  exists consumed,
    skipn (current_token s) tokens = consumed ++ skipn (current_token s') tokens
    /\ spelled e consumed
    /\ current_token s' = current_token s + List.length consumed
    /\ SyntaxAnalyzer.symbol_table s' = SyntaxAnalyzer.symbol_table s
    /\ ~ kind_at tokens (current_token s') REL_OP.
Proof. apply parse_expression_spelled. Qed.

Lemma expression_is_a_chain_of_comparisons_witness :
  let tokens := fst (tokenize "x < 10 >= y ;") in
  exists consumed,
    skipn 0 tokens = consumed ++ skipn 5 tokens
    /\ spelled (Comparison (VStr "x") (VStr "<")
                  (Comparison (VInt 10) (VStr ">=") (Leaf (VStr "y")))) consumed
    /\ 5 = 0 + List.length consumed
    /\ @nil (Value * Entry) = []
    /\ ~ kind_at tokens 5 REL_OP.
Proof.
  exact (@expression_is_a_chain_of_comparisons (fst (tokenize "x < 10 >= y ;")) 3
           SyntaxAnalyzer.init {| current_token := 5; SyntaxAnalyzer.symbol_table := [] |}
           _ eq_refl).
Defined.

(** X8. [parse_expression] ends: with a fuel bound above half the number of
    tokens behind the cursor the run is never cut, it returns or raises. *)
Theorem parse_expression_is_never_cut (tokens : list Token) (fuel : nat) (s : state) :
  List.length tokens - current_token s < 2 * fuel ->
  finished (parse_expression tokens fuel s).
Proof. apply parse_expression_finished. Qed.

Lemma parse_expression_is_never_cut_witness :
  finished (parse_expression (fst (tokenize "x < 10 >= y ;")) 4 SyntaxAnalyzer.init).
Proof.
  apply parse_expression_is_never_cut. vm_compute. lia.
Defined.

(** X9. A statement that returns has consumed at least one token, with one
    exception: at a keyword other than [if], [for], [do], [input] and
    [output], [parse_statement] returns at once and leaves the parser as it
    was. *)
Theorem statement_moves_unless_keyword_is_stray (tokens : list Token) (fuel : nat) (s : state) :
  (forall s' u,
     parse_statement tokens fuel s = Ok u s' ->
     current_token s < current_token s'
     \/ (s' = s /\ exists current,
           nth_error tokens (current_token s) = Some current
           /\ fst current = KEYWORD /\ dispatched (snd current) = false))
  /\ (forall current,
        nth_error tokens (current_token s) = Some current ->
        fst current = KEYWORD -> dispatched (snd current) = false ->
        parse_statement tokens (S fuel) s = Ok tt s).
Proof.
  split.
  - intros s' u H. eapply parse_statement_progress; eauto.
  - intros current Hn K D. eapply parse_statement_stray; eauto.
Qed.

(** X10. The tokens an accepted program was read from are delimiters,
    keywords, identifiers, assignment signs, numbers and relational
    operators: no program with an arithmetic operator, a unary operator or a
    hexadecimal number before its closing brace is accepted. *)
Theorem accepted_tokens_are_consumable (tokens : list Token) (fuel : nat) (s' : state) :
  parse_program tokens fuel SyntaxAnalyzer.init = Ok tt s' ->
  forall i, i < current_token s' ->
            exists t, nth_error tokens i = Some t /\ consumable (fst t) = true.
Proof.
  intros H i Hi. destruct (@parse_program_consumes tokens fuel _ _ _ H) as [_ K].
  apply K; simpl; lia.
Qed.

Lemma accepted_tokens_are_consumable_witness :
  let tokens := fst (tokenize "{ let x = 1 ; if x < 2 then { output x ; } }") in
  let s' := final (parse_program tokens 12 SyntaxAnalyzer.init) in
  current_token s' = 17
  /\ forall i, i < current_token s' ->
               exists t, nth_error tokens i = Some t /\ consumable (fst t) = true.
Proof.
  cbn zeta. split; [vm_compute; reflexivity|].
  apply accepted_tokens_are_consumable with (fuel := 12). vm_compute. reflexivity.
Defined.

(** X11. A declaration reads a keyword, an identifier, the assignment sign,
    an expression and a delimiter, and stores the expression under the
    identifier, in an entry of type "variable" marked as declared; the
    entries of the other names stay as they were. *)
Theorem declaration_reads_and_stores (tokens : list Token) (fuel : nat) (s s' : state) :
  parse_declaration tokens fuel s = Ok tt s' ->
  exists kw name asg e consumed semi,
    skipn (current_token s) tokens
    = kw :: (IDENTIFIER, name) :: asg :: consumed ++ semi :: skipn (current_token s') tokens
    /\ fst kw = KEYWORD /\ fst asg = ASSIGN /\ spelled e consumed /\ fst semi = DELIMITER
    /\ dict_get name (SyntaxAnalyzer.symbol_table s')
       = Some {| type := "variable"; value := Some e; declared := Some true |}
    /\ forall other, other <> name ->
         dict_get other (SyntaxAnalyzer.symbol_table s')
         = dict_get other (SyntaxAnalyzer.symbol_table s).
Proof.
  intros H. apply parse_declaration_effect in H.
  destruct H as (kw & name & asg & e & consumed & semi & S & K1 & K2 & P & K3 & _ & T).
  exists kw, name, asg, e, consumed, semi. rewrite T.
  repeat (split; [assumption|]). split.
  - apply dict_get_set_same.
  - intros other Hne. apply dict_get_set_other, Hne.
Qed.

Lemma declaration_reads_and_stores_witness :
  let tokens := fst (tokenize "let x = 1 < y ;") in
  let s' := final (parse_declaration tokens 2 SyntaxAnalyzer.init) in
  exists kw name asg e consumed semi,
    skipn 0 tokens
    = kw :: (IDENTIFIER, name) :: asg :: consumed ++ semi :: skipn (current_token s') tokens
    /\ fst kw = KEYWORD /\ fst asg = ASSIGN /\ spelled e consumed /\ fst semi = DELIMITER
    /\ dict_get name (SyntaxAnalyzer.symbol_table s')
       = Some {| type := "variable"; value := Some e; declared := Some true |}
    /\ forall other, other <> name ->
         dict_get other (SyntaxAnalyzer.symbol_table s') = dict_get other [].
Proof.
  exact (@declaration_reads_and_stores (fst (tokenize "let x = 1 < y ;")) 2
           SyntaxAnalyzer.init _ eq_refl).
Defined.

(** X12. An assignment reads an identifier, the assignment sign, an
    expression and a delimiter, and stores the expression under the
    identifier: a name with an entry keeps the type and the mark of its
    declaration, a new name gets an entry of type "variable" without the
    mark; the entries of the other names stay as they were. *)
Theorem assignment_reads_and_stores (tokens : list Token) (fuel : nat) (s s' : state) :
  parse_assignment tokens fuel s = Ok tt s' ->
  exists name asg e consumed semi,
    skipn (current_token s) tokens
    = (IDENTIFIER, name) :: asg :: consumed ++ semi :: skipn (current_token s') tokens
    /\ fst asg = ASSIGN /\ spelled e consumed /\ fst semi = DELIMITER
    /\ dict_get name (SyntaxAnalyzer.symbol_table s')
       = Some match dict_get name (SyntaxAnalyzer.symbol_table s) with
              | Some entry =>
                  {| type := type entry; value := Some e; declared := declared entry |}
              | None => {| type := "variable"; value := Some e; declared := None |}
              end
    /\ forall other, other <> name ->
         dict_get other (SyntaxAnalyzer.symbol_table s')
         = dict_get other (SyntaxAnalyzer.symbol_table s).
Proof.
  intros H. apply parse_assignment_effect in H.
  destruct H as (name & asg & e & consumed & semi & S & K1 & P & K2 & _ & T).
  exists name, asg, e, consumed, semi. rewrite T.
  repeat (split; [assumption|]). split.
  - apply dict_get_set_same.
  - intros other Hne. apply dict_get_set_other, Hne.
Qed.

Lemma assignment_reads_and_stores_witness :
  let tokens := fst (tokenize "x = 2 ;") in
  let s := {| current_token := 0;
              SyntaxAnalyzer.symbol_table :=
                [(VStr "x", {| type := "variable"; value := Some (Leaf (VInt 1));
                               declared := Some true |})] |} in
  let s' := final (parse_assignment tokens 2 s) in
  exists name asg e consumed semi,
    skipn 0 tokens
    = (IDENTIFIER, name) :: asg :: consumed ++ semi :: skipn (current_token s') tokens
    /\ fst asg = ASSIGN /\ spelled e consumed /\ fst semi = DELIMITER
    /\ dict_get name (SyntaxAnalyzer.symbol_table s')
       = Some match dict_get name (SyntaxAnalyzer.symbol_table s) with
              | Some entry =>
                  {| type := type entry; value := Some e; declared := declared entry |}
              | None => {| type := "variable"; value := Some e; declared := None |}
              end
    /\ forall other, other <> name ->
         dict_get other (SyntaxAnalyzer.symbol_table s')
         = dict_get other (SyntaxAnalyzer.symbol_table s).
Proof.
  exact (@assignment_reads_and_stores (fst (tokenize "x = 2 ;")) 2
           {| current_token := 0;
              SyntaxAnalyzer.symbol_table :=
                [(VStr "x", {| type := "variable"; value := Some (Leaf (VInt 1));
                               declared := Some true |})] |}
           _ eq_refl).
Defined.

(** X13. [parse_program] stops at the delimiter that closes the program and
    never looks behind it: a token stream that is accepted is accepted,
    with the same symbol table, whatever tokens follow it. *)
Theorem tokens_behind_the_program_are_ignored (tokens rest : list Token) (fuel : nat)
    (table : dict) :
  parse tokens fuel = Returns (Success table) ->
  parse (tokens ++ rest) fuel = Returns (Success table).
Proof.
  unfold parse. intros H.
  destruct (parse_program tokens fuel SyntaxAnalyzer.init) as [[] s|[] s|s] eqn:E;
    try discriminate H.
  rewrite (@parse_program_appended tokens rest fuel _ _ _ E). exact H.
Qed.

Lemma tokens_behind_the_program_are_ignored_witness :
  parse (fst (tokenize "{ x = 1 ; }") ++ fst (tokenize "} + 2 then"))  4
  = Returns (Success [(VStr "x", {| type := "variable"; value := Some (Leaf (VInt 1));
                                     declared := None |})]).
Proof.
  apply tokens_behind_the_program_are_ignored. reflexivity.
Defined.

(** X14. The fuel a parse needs is linear in the number of tokens: under a
    bound of three times that number [parse] gives the answer it gives
    under any bound that does not cut it, and when it is cut under such a
    bound it is cut under every bound: the parser does not end. *)
Theorem parse_ends_within_linear_fuel (tokens : list Token) (fuel : nat) :
  3 * List.length tokens <= fuel ->
  (forall fuel', parse tokens fuel' <> Unfinished -> parse tokens fuel = parse tokens fuel')
  /\ (parse tokens fuel = Unfinished -> forall fuel', parse tokens fuel' = Unfinished).
Proof.
  intros Hf. split.
  - intros fuel' H. apply parse_bounded; assumption.
  - intros H fuel'. destruct (parse tokens fuel') eqn:E; [| |reflexivity].
    + rewrite <- H. symmetry. rewrite <- E. apply parse_bounded; [assumption|].
      rewrite E. discriminate.
    + rewrite <- H. symmetry. rewrite <- E. apply parse_bounded; [assumption|].
      rewrite E. discriminate.
Qed.

Lemma parse_ends_within_linear_fuel_witness :
  let tokens := fst (tokenize "{ do { x = 1 ; } while x < 2 }") in
  (forall fuel', parse tokens fuel' <> Unfinished -> parse tokens 42 = parse tokens fuel')
  /\ (parse tokens 42 = Unfinished -> forall fuel', parse tokens fuel' = Unfinished).
Proof.
  apply parse_ends_within_linear_fuel. vm_compute. lia.
Defined.

(** X21. What [parse_program] accepts is a program of this grammar, read up
    to the cursor: a delimiter, declarations and statements, and the
    closing brace, where a declaration is [let], an identifier, the
    assignment sign, an expression and a delimiter; a statement is an
    assignment, [if] with an expression, a keyword, a block and at will
    [else] and a block, [for] with an identifier, the assignment sign, an
    expression, a keyword, an expression and a block, [do] with a block, a
    keyword and an expression, [input] with an identifier and a delimiter,
    [output] with an expression and a delimiter, or statements between
    braces; a block is a delimiter, statements and the closing brace; an
    expression is operands with relational operators between them.  Which
    keyword stands for [then], [to] and [while], and which delimiter ends a
    statement or opens a block, is not looked at. *)
Theorem accepted_program_follows_the_grammar (tokens : list Token) (fuel : nat)
    (s' : state) :
  parse_program tokens fuel SyntaxAnalyzer.init = Ok tt s' ->
  program (firstn (current_token s') tokens).
Proof. intros H. exact (@parse_program_reads tokens fuel s' tt H). Qed.

Lemma accepted_program_follows_the_grammar_witness :
  let tokens := fst (tokenize "{ let x = 1 ; if x < 2 then { output x ; } }") in
  program (firstn (current_token (final (parse_program tokens 12 SyntaxAnalyzer.init)))
             tokens).
Proof.
  cbn zeta. apply accepted_program_follows_the_grammar with (fuel := 12).
  vm_compute. reflexivity.
Defined.

(** X22. Every program of that grammar in which no identifier is spelled as
    the closing brace or as [else] is accepted: under a fuel bound of three
    times its length [parse_program] returns with the cursor behind its
    last token, whatever tokens follow it. *)
Theorem program_of_the_grammar_is_accepted (l rest : list Token) (fuel : nat) :
  program l -> forallb plain l = true -> 3 * List.length l <= fuel ->
  exists s', parse_program (l ++ rest) fuel SyntaxAnalyzer.init = Ok tt s'
             /\ current_token s' = List.length l.
Proof.
  intros Hp Hl Hf.
  destruct (@program_accepted l Hl l [] Hp (eq_sym (app_nil_r l)))
    as (g & u & s' & R & G).
  exists s'. split.
  - apply parse_program_appended.
    rewrite (@parse_program_agrees l fuel g SyntaxAnalyzer.init).
    + destruct u. apply G. lia.
    + unfold room. simpl. lia.
    + rewrite (G g (le_n g)). exact I.
  - destruct R as [_ C]. exact C.
Qed.

Lemma program_of_the_grammar_is_accepted_witness :
  let l := [(DELIMITER, VStr "{"); (KEYWORD, VStr "let"); (IDENTIFIER, VStr "x");
            (ASSIGN, VStr "="); (NUMBER, VInt 1); (DELIMITER, VStr ";");
            (KEYWORD, VStr "output"); (IDENTIFIER, VStr "x"); (DELIMITER, VStr ";");
            (DELIMITER, VStr "}")] in
  exists s', parse_program (l ++ [(MUL_OP, VStr "*")]) 30 SyntaxAnalyzer.init = Ok tt s'
             /\ current_token s' = 10.
Proof.
  cbn zeta. apply program_of_the_grammar_is_accepted; [|reflexivity|simpl; lia].
  exists (DELIMITER, VStr "{"),
    [(KEYWORD, VStr "let"); (IDENTIFIER, VStr "x"); (ASSIGN, VStr "="); (NUMBER, VInt 1);
     (DELIMITER, VStr ";"); (KEYWORD, VStr "output"); (IDENTIFIER, VStr "x");
     (DELIMITER, VStr ";")].
  split; [reflexivity|]. split; [|reflexivity].
  apply (@items_declaration
           [(KEYWORD, VStr "let"); (IDENTIFIER, VStr "x"); (ASSIGN, VStr "=");
            (NUMBER, VInt 1); (DELIMITER, VStr ";")]
           [(KEYWORD, VStr "output"); (IDENTIFIER, VStr "x"); (DELIMITER, VStr ";")]).
  - apply (@declaration_of (VStr "x") (ASSIGN, VStr "=") (DELIMITER, VStr ";")
             [(NUMBER, VInt 1)]); try reflexivity.
    apply expression_operand. reflexivity.
  - apply (@items_statement
             [(KEYWORD, VStr "output"); (IDENTIFIER, VStr "x"); (DELIMITER, VStr ";")] []).
    + apply (@statement_output (DELIMITER, VStr ";") [(IDENTIFIER, VStr "x")]);
        try reflexivity.
      apply expression_operand. reflexivity.
    + apply items_none.
Defined.

(** X15. The symbol table of an accepted program has no name twice, and
    each entry has the type "variable", a value, and the mark of a
    declaration or none.  [analyze] hands this table on unchanged, and its
    type pass reports a name exactly when the value stored under it is not
    a number: an identifier or a comparison. *)
Theorem unknown_type_for_every_value_that_is_no_number (iterate : set Value -> list Value)
    (lexical_errors : list LexicalError) (tokens : list Token) (fuel : nat) (s' : state) :
  parse_program tokens fuel SyntaxAnalyzer.init = Ok tt s' ->
  let table := SyntaxAnalyzer.symbol_table s' in
  let result := analyze iterate lexical_errors (Success table) tokens SemanticAnalyzer.init in
  table_ok table
  /\ result_symbol_table result = table
  /\ forall name,
       In (UnknownType name) (result_errors result) <->
       exists info e, dict_get name table = Some info /\ value info = Some e
                      /\ isinstance_int e = false /\ isinstance_float e = false.
Proof.
  intros H. cbn zeta.
  assert (T : table_ok (SyntaxAnalyzer.symbol_table s')).
  { apply (@parse_program_keeps_table tokens fuel _ _ _ H).
    split; [constructor | intros name info []]. }
  split; [exact T|]. split; [apply analyze_table|].
  intros name. rewrite analyze_success, In_UnknownType. apply unclassified_table, T.
Qed.

Lemma unknown_type_for_every_value_that_is_no_number_witness :
  let tokens := fst (tokenize "{ let x = 1 ; let y = x ; z = x < y ; }") in
  let table := SyntaxAnalyzer.symbol_table (final (parse_program tokens 8 SyntaxAnalyzer.init)) in
  let result := analyze (fun l => l) [] (Success table) tokens SemanticAnalyzer.init in
  keys table = [VStr "x"; VStr "y"; VStr "z"]
  /\ result_errors result
     = [UsedBeforeDeclaration (VStr "z"); UnknownType (VStr "y"); UnknownType (VStr "z")]
  /\ table_ok table
  /\ result_symbol_table result = table
  /\ forall name,
       In (UnknownType name) (result_errors result) <->
       exists info e, dict_get name table = Some info /\ value info = Some e
                      /\ isinstance_int e = false /\ isinstance_float e = false.
Proof.
  cbn zeta. split; [vm_compute; reflexivity|]. split; [vm_compute; reflexivity|].
  apply unknown_type_for_every_value_that_is_no_number with (fuel := 8).
  vm_compute. reflexivity.
Defined.

(** X16. When [analyze_program] returns, its semantic result is a success
    exactly when the tokenizer reported no character, the parse succeeded,
    every identifier of the token stream follows a [let] somewhere in the
    stream, and every value of the symbol table is a single number: a
    program that stores an identifier or a comparison in a variable is
    never a success. *)
Theorem analysis_succeeds_exactly_when (iterate : set Value -> list Value)
    (program : string) (fuel : nat) (a : Analysis) :
  (forall l, Permutation (iterate l) l) ->
  analyze_program iterate program fuel = Returns a ->
  (result_success (semantic_result a) = true <->
   lexical_errors a = []
   /\ exists table,
        parse_result a = Success table
        /\ (forall name, In (IDENTIFIER, name) (tokens a) -> let_declares (tokens a) name)
        /\ (forall name info, In (name, info) table ->
              exists v, value info = Some (Leaf v)
                        /\ (is_int v = true \/ is_float v = true))).
Proof.
  intros P H. unfold analyze_program in H.
  destruct (tokenize program) as [toks errs].
  destruct (parse toks fuel) as [r| |] eqn:E; try discriminate H.
  injection H as <-. cbn [semantic_result lexical_errors parse_result tokens].
  destruct r as [table|error].
  - assert (T : table_ok table).
    { unfold parse in E.
      destruct (parse_program toks fuel SyntaxAnalyzer.init) as [[] s|[] s|s] eqn:R;
        try discriminate E.
      injection E as <-. apply (@parse_program_keeps_table toks fuel _ _ _ R).
      split; [constructor | intros name info []]. }
    assert (I : iterate (undeclared toks) = [] <-> undeclared toks = []).
    { split; intros N.
      - apply Permutation_nil. rewrite <- N. apply P.
      - rewrite N. apply Permutation_nil. symmetry. apply P. }
    rewrite analyze_success_flag. split.
    + intros (L & U & C). split; [exact L|]. exists table. split; [reflexivity|]. split.
      * apply undeclared_nil, I, U.
      * apply (unclassified_nil T), C.
    + intros (L & t & [= <-] & U & C). split; [exact L|]. split.
      * apply I, undeclared_nil, U.
      * apply (unclassified_nil T), C.
  - rewrite analyze_failure_result. cbn [result_success]. split; [discriminate|].
    intros (_ & t & D & _). discriminate D.
Qed.

Lemma analysis_succeeds_exactly_when_witness :
  exists a,
    analyze_program (fun l => l) "{ let x = 1 ; let y = 1E3 ; output x ; }" 8 = Returns a
    /\ result_success (semantic_result a) = true
    /\ (result_success (semantic_result a) = true <->
        lexical_errors a = []
        /\ exists table,
             parse_result a = Success table
             /\ (forall name, In (IDENTIFIER, name) (tokens a) -> let_declares (tokens a) name)
             /\ (forall name info, In (name, info) table ->
                   exists v, value info = Some (Leaf v)
                             /\ (is_int v = true \/ is_float v = true))).
Proof.
  eexists. split; [vm_compute; reflexivity|]. split; [reflexivity|].
  apply (@analysis_succeeds_exactly_when (fun l => l)
           "{ let x = 1 ; let y = 1E3 ; output x ; }" 8).
  - intros l. apply Permutation_refl.
  - vm_compute. reflexivity.
Defined.

(** X17. A source without a token - empty, blank, or made of comments and
    unknown characters only - is rejected by the parser with the error
    that a DELIMITER was expected and the end of the file found, under any
    fuel bound; the semantic result lists the lexical errors and then this
    error, and its symbol table is empty. *)
Theorem source_without_tokens_is_rejected (iterate : set Value -> list Value)
    (program : string) (fuel : nat) :
  fst (tokenize program) = [] ->
  analyze_program iterate program fuel
  = Returns {| tokens := [];
               lexical_errors := snd (tokenize program);
               parse_result := Failure (Expected DELIMITER None);
               semantic_result :=
                 {| result_success := false;
                    result_errors :=
                      map Lexical (snd (tokenize program))
                      ++ [Syntax (Expected DELIMITER None)];
                    result_symbol_table := [] |} |}.
Proof.
  intros H. unfold analyze_program.
  destruct (tokenize program) as [toks errs]. cbn [fst snd] in *. subst toks.
  change (parse [] fuel) with (@Returns ParseResult (Failure (Expected DELIMITER None))).
  cbv iota beta. rewrite analyze_failure_result. reflexivity.
Qed.

Lemma source_without_tokens_is_rejected_witness :
  exists errors,
    snd (tokenize ("  /* nothing */ $" ++ String newline EmptyString)) = errors
    /\ errors = [UnknownSymbol "$"]
    /\ analyze_program (fun l => l) ("  /* nothing */ $" ++ String newline EmptyString) 0
       = Returns {| tokens := [];
                    lexical_errors := errors;
                    parse_result := Failure (Expected DELIMITER None);
                    semantic_result :=
                      {| result_success := false;
                         result_errors :=
                           map Lexical errors ++ [Syntax (Expected DELIMITER None)];
                         result_symbol_table := [] |} |}.
Proof.
  eexists. split; [reflexivity|]. split; [vm_compute; reflexivity|].
  apply source_without_tokens_is_rejected. vm_compute. reflexivity.
Defined.

(** X18. The tokenizer works line by line: the tokens of a line followed by
    a newline and more text are the tokens of the line and then the tokens
    of that text, and so are the errors. *)
Theorem tokenize_line_by_line (a b : string) :
  contains newline a = false ->
  tokenize (a ++ String newline b)
  = (fst (tokenize a) ++ fst (tokenize b), snd (tokenize a) ++ snd (tokenize b)).
Proof. intros C. apply tokenize_on_line, C. Qed.

Lemma tokenize_line_by_line_witness :
  tokenize ("let x = 1; /* one" ++ String newline "x = 2 $ */")
  = (fst (tokenize "let x = 1; /* one") ++ fst (tokenize "x = 2 $ */"),
     snd (tokenize "let x = 1; /* one") ++ snd (tokenize "x = 2 $ */")).
Proof.
  apply tokenize_line_by_line. reflexivity.
Defined.

(** X19. The limits of the interpreter apart, the only exception that
    leaves [analyze_program] is the [IndexError] of reading behind the last
    token, and it is raised only for a token stream that ends in an
    identifier, an assignment sign, a keyword or a relational operator: a
    source whose last token is a delimiter or a number never makes
    [analyze_program] raise. *)
Theorem index_error_only_at_an_open_end (iterate : set Value -> list Value)
    (program : string) (fuel : nat) (e : exn) :
  analyze_program iterate program fuel = Uncaught e ->
  e = IndexError /\ ends_open (fst (tokenize program)).
Proof.
  unfold analyze_program. destruct (tokenize program) as [toks errs]. cbn [fst].
  destruct (parse toks fuel) as [r|e'|] eqn:P; try discriminate. intros [= ->].
  unfold parse in P.
  destruct (parse_program toks fuel SyntaxAnalyzer.init) as [[] s|[msg|] s|s] eqn:R;
    try discriminate P.
  injection P as <-. split; [reflexivity|].
  exact (@parse_program_index_error toks fuel _ _ R).
Qed.

Lemma index_error_only_at_an_open_end_witness :
  IndexError = IndexError /\ ends_open (fst (tokenize "{ if x <")).
Proof.
  apply (@index_error_only_at_an_open_end (fun l => l) "{ if x <" 6). reflexivity.
Defined.

(** X20. One character outside the token alphabet that is no white space,
    anywhere in the source - in a comment, or the point of a number - is
    reported as a lexical error and makes the semantic result a failure,
    whatever the parser and the two passes find. *)
Theorem unknown_character_spoils_success (iterate : set Value -> list Value)
    (program : string) (fuel : nat) (a : Analysis) (c : ascii) :
  In c (list_ascii_of_string program) ->
  space c = false -> token_character c = false ->
  analyze_program iterate program fuel = Returns a ->
  result_success (semantic_result a) = false
  /\ In (Lexical (UnknownSymbol c)) (result_errors (semantic_result a)).
Proof.
  intros I S T H.
  assert (E : In (UnknownSymbol c) (snd (tokenize program))).
  { unfold tokenize. cbn [snd]. rewrite unknown_symbols_filter.
    apply in_map, filter_In. split; [exact I|]. rewrite S, T. reflexivity. }
  unfold analyze_program in H. destruct (tokenize program) as [toks errs]. cbn [snd] in E.
  destruct (parse toks fuel) as [r| |]; try discriminate H. injection H as <-.
  cbn [semantic_result]. destruct r as [table|error].
  - pose proof (analyze_success iterate errs table toks) as R.
    unfold analyze in *. cbn [result_success result_errors] in *. rewrite R. split.
    + apply Nat.eqb_neq. rewrite !length_app, length_map.
      destruct errs; [contradiction | simpl; lia].
    + apply in_or_app. left. apply in_map, E.
  - rewrite analyze_failure_result. cbn [result_success result_errors].
    split; [reflexivity|]. apply in_or_app. left. apply in_map, E.
Qed.

Lemma unknown_character_spoils_success_witness :
  exists a,
    analyze_program (fun l => l) "{ let x = 1.5 ; }" 4 = Returns a
    /\ parse_result a
       = Success [(VStr "x", {| type := "variable"; value := Some (Leaf (VFloat "1.5"));
                                declared := Some true |})]
    /\ result_success (semantic_result a) = false
    /\ In (Lexical (UnknownSymbol ".")) (result_errors (semantic_result a)).
Proof.
  eexists. split; [vm_compute; reflexivity|]. split; [reflexivity|].
  apply (@unknown_character_spoils_success (fun l => l) "{ let x = 1.5 ; }" 4 _ ".").
  - vm_compute. tauto.
  - reflexivity.
  - reflexivity.
  - vm_compute. reflexivity.
Defined.

End FurtherProperties.
